(** * ShareOme: Entrez validation and FASTA cleaning

    A shallow embedding of [clean_fasta.py] (header extraction, the
    batched Entrez validator, the FASTA rewriter, [main]) and of the
    loaders and the loops of [entrez_metadata.py], followed by the
    properties of the design document that concern them and by further
    properties of the code.

    Conventions of the embedding.
    - A Python [str] is a [string]: a sequence of code points below 256.
      On that range the character classes used by the source ([\s], [\S],
      [\d], [[A-Z]], [str.strip], [str.split]) are exactly the ones below.
    - A text file opened for reading is the list of lines its iteration
      yields; a text file opened for writing is the list of strings passed
      to [write], in order.  Where the content of the files matters, it
      is the text their bytes decode to, read with universal newlines
      and written with [os.linesep] being [\n] (Linux, macOS).
    - [Entrez.esummary] + [Entrez.read] + [close] is one remote call.  The
      remote service is a function of the number of calls already made and
      of the [id=] parameter, so every sequence of outcomes and every
      request-dependent behaviour is an instance.
    - [time.sleep] and the remote calls are recorded, in order, in a trace.
      A delay is a duration [time.sleep] accepts (a number of seconds that
      is not negative), so that [time.sleep] returns.
    - A counter that starts at 0 and is only incremented is a [nat]; an
      [int] given by the caller is a [Z].
    - [log] and the [processed] counter, which only feeds log lines, are
      left out.
    - A taxon that [Entrez.read] returns for the taxonomy database is a
      dict from [str] to [str]. *)

From Stdlib Require Import ZArith Ascii String.
From stdpp Require Import base list strings gmap sorting.

Local Open Scope string_scope.
Local Open Scope Z_scope.

(** ** Python exceptions and results *)

Inductive exn :=
| IndexError
| ValueError
| RemoteError (msg : string).

Inductive res (A : Type) :=
| Ok (a : A)
| Raise (e : exn).
Arguments Ok {A} a.
Arguments Raise {A} e.

Definition res_bind {A B} (r : res A) (f : A → res B) : res B :=
  match r with
  | Ok a => f a
  | Raise e => Raise e
  end.

(** ** Text: the [str] methods the source uses *)

Module Py.

(** [str.isspace] on one character, which is also the class [\s]. *)
Definition isspace (c : ascii) : bool :=
  let n := N_of_ascii c in
  ((9 <=? n) && (n <=? 13) || (28 <=? n) && (n <=? 32)
   || (n =? 133) || (n =? 160))%N.

(** The class [\d]. *)
Definition isdigit (c : ascii) : bool :=
  let n := N_of_ascii c in ((48 <=? n) && (n <=? 57))%N.

(** The class [[A-Z]]. *)
Definition isupper (c : ascii) : bool :=
  let n := N_of_ascii c in ((65 <=? n) && (n <=? 90))%N.

(** The class [[A-Za-z0-9]]. *)
Definition isalnum (c : ascii) : bool :=
  let n := N_of_ascii c in
  (isdigit c || isupper c || (97 <=? n) && (n <=? 122))%N.

Definition newline : ascii := ascii_of_nat 10.

(** [s.startswith(">")] *)
Definition startswith_gt (s : string) : bool :=
  match s with
  | String c _ => bool_decide (c = ">"%char)
  | EmptyString => false
  end.

(** [s[1:]] *)
Definition tail (s : string) : string :=
  match s with
  | String _ s' => s'
  | EmptyString => EmptyString
  end.

(** [s.lstrip()] *)
Fixpoint lstrip (s : string) : string :=
  match s with
  | String c s' => if isspace c then lstrip s' else s
  | EmptyString => EmptyString
  end.

(** Removal of the trailing characters that satisfy [p]. *)
Fixpoint rstrip_with (p : ascii → bool) (s : string) : string :=
  match s with
  | String c s' =>
      match rstrip_with p s' with
      | EmptyString => if p c then EmptyString else String c EmptyString
      | t => String c t
      end
  | EmptyString => EmptyString
  end.

(** [s.rstrip("\n")] *)
Definition rstrip_nl (s : string) : string :=
  rstrip_with (λ c, bool_decide (c = newline)) s.

(** [s.strip()] *)
Definition strip (s : string) : string := lstrip (rstrip_with isspace s).

(** [s.split()]: the maximal runs of non-space characters.  [cur] is
    the run being read, reversed. *)
Fixpoint split_go (cur : list ascii) (s : string) : list string :=
  let flush := match cur with
               | [] => []
               | _ => [string_of_list_ascii (rev cur)]
               end in
  match s with
  | EmptyString => flush
  | String c s' =>
      if isspace c then flush ++ split_go [] s' else split_go (c :: cur) s'
  end.

Definition split (s : string) : list string := split_go [] s.

(** [",".join(l)] *)
Fixpoint join_comma (l : list string) : string :=
  match l with
  | [] => EmptyString
  | [x] => x
  | x :: l' => x ++ "," ++ join_comma l'
  end.

End Py.

(** ** Regular expressions: the fragment of [re] the source uses

    A backtracking matcher in continuation-passing style, greedy as
    Python's: a repetition first tries one more iteration and falls back
    to the continuation. *)

Module Re.

Inductive regex :=
| Chr (c : ascii)
| Class (p : ascii → bool)
| Cat (r1 r2 : regex)
| Repeat (lo : nat) (hi : option nat) (r : regex)
| Group (r : regex)
| Eos.

(** A literal word, [Invalid uid] for instance. *)
Fixpoint Word (w : string) (k : regex) : regex :=
  match w with
  | EmptyString => k
  | String c w' => Cat (Chr c) (Word w' k)
  end.

Definition Plus := Repeat 1 None.
Definition Opt := Repeat 0 (Some 1%nat).

Section Matcher.
Context {A : Type}.

(** A matcher takes the rest of the input, the text of group 1 so
    far, and what to do after it. *)
Definition cont := string → option string → option A.
Definition matcher := string → option string → cont → option A.

(** At most [n] further iterations of [step], at least [lo]. *)
Fixpoint iterate (step : matcher) (lo n : nat) : matcher :=
  λ s g k,
    let stop := if (lo =? 0)%nat then k s g else None in
    match n with
    | O => stop
    | S n' =>
        match step s g (λ s' g', iterate step (pred lo) n' s' g' k) with
        | Some a => Some a
        | None => stop
        end
    end.

(** The text [s] has lost to become [s']. *)
Definition consumed (s s' : string) : string :=
  String.substring 0 (String.length s - String.length s') s.

Fixpoint run (r : regex) : matcher :=
  λ s g k,
    match r with
    | Chr c =>
        match s with
        | String c' s' => if bool_decide (c = c') then k s' g else None
        | EmptyString => None
        end
    | Class p =>
        match s with
        | String c' s' => if p c' then k s' g else None
        | EmptyString => None
        end
    | Cat r1 r2 => run r1 s g (λ s' g', run r2 s' g' k)
    | Repeat lo hi r =>
        iterate (run r) lo (default (String.length s) hi) s g k
    | Group r => run r s g (λ s' _, k s' (Some (consumed s s')))
    | Eos =>
        match s with
        | EmptyString => k s g
        | String c EmptyString =>
            if bool_decide (c = Py.newline) then k s g else None
        | _ => None
        end
    end.
End Matcher.

(** The text of group 1 of [r.match(s)]. *)
Definition match_group (r : regex) (s : string) : option string :=
  run r s None (λ _ g, Some (default EmptyString g)).

(** Does [r.match(s)] succeed? *)
Definition matches (r : regex) (s : string) : bool :=
  bool_decide (is_Some (match_group r s)).

(** The text of group 1 of [r.search(s)]: the leftmost match. *)
Fixpoint search_group (r : regex) (s : string) : option string :=
  match match_group r s with
  | Some g => Some g
  | None =>
      match s with
      | String _ s' => search_group r s'
      | EmptyString => None
      end
  end.

End Re.

(** ** The remote service and what a run leaves behind *)

Module Entrez.

(** What [Entrez.esummary] followed by [Entrez.read] and [close] gives:
    the parsed records, or an exception [e] with [str(e) = msg]. *)
Inductive outcome :=
| Success (recs : list string)
| Failure (msg : string).

(** The service: outcome of the call numbered [n] with parameter [id]. *)
Definition service := nat → string → outcome.

(** A duration [time.sleep] accepts: a number of seconds that is not
    negative, [num / den]. *)
Record seconds := Seconds { num : N; den : positive }.

(** An [int] number of seconds, as in [time.sleep(3 * attempt)]. *)
Definition whole_seconds (n : nat) : seconds := Seconds (N.of_nat n) 1.

Inductive event :=
| WholeBatch (batch : list string) (o : outcome)
| PerId (acc : string) (o : outcome)
| Sleep (secs : seconds).

Record state := State {
  calls : nat;
  trace : list event;
  invalid_ids : gset string
}.

Definition failed (o : outcome) : bool :=
  match o with
  | Success _ => false
  | Failure _ => true
  end.

(** One remote call, recorded as [ev]. *)
Definition request (remote : service) (ev : outcome → event) (id : string)
    (st : state) : outcome * state :=
  let o := remote (calls st) id in
  (o, State (S (calls st)) (trace st ++ [ev o]) (invalid_ids st)).

(** [time.sleep(secs)] *)
Definition sleep (secs : seconds) (st : state) : state :=
  State (calls st) (trace st ++ [Sleep secs]) (invalid_ids st).

(** [invalid_ids.add(x)] *)
Definition add_invalid (x : string) (st : state) : state :=
  State (calls st) (trace st) ({[x]} ∪ invalid_ids st).

(** [re.search(r"Invalid uid\s+(\S+)", msg)], group 1. *)
Definition invalid_uid_pat : Re.regex :=
  Re.Word "Invalid uid"
    (Re.Cat (Re.Plus (Re.Class Py.isspace))
            (Re.Group (Re.Plus (Re.Class (λ c, negb (Py.isspace c)))))).

Definition search_invalid_uid (msg : string) : option string :=
  Re.search_group invalid_uid_pat msg.

(** [range(0, stop, step)] for [step > 0]. *)
Definition range_step (stop step : nat) : list nat :=
  (λ j, j * step)%nat <$> seq 0 ((stop + step - 1) / step)%nat.

(** [chunker(seq, n)]: [range] refuses a zero step and is empty for a
    negative one. *)
Definition chunker (l : list string) (n : Z) : res (list (list string)) :=
  if bool_decide (n = 0) then Raise ValueError
  else if bool_decide (n < 0) then Ok []
  else Ok ((λ i, take (Z.to_nat n) (drop i l))
             <$> range_step (length l) (Z.to_nat n)).

(** What ends one turn of a [while True] loop. *)
Inductive turn :=
| Continue (batch : list string) (attempt : nat) (st : state)
| Break (st : state).

(** [delay = 0.10 if api_key else 0.34] when no delay is given. *)
Definition polite_delay (api_key : option string) (delay : option seconds)
    : seconds :=
  match delay with
  | Some d => d
  | None =>
      match api_key with
      | Some (String _ _) => Seconds 10 100
      | _ => Seconds 34 100
      end
  end.

End Entrez.

(** ** [clean_fasta.py] *)

Module CleanFasta.
Import Entrez.

(** [r"^[0-9][A-Za-z0-9]{3}_[A-Za-z0-9]$"] (the leading [^] is implied
    by [re.match]). *)
Definition pdb_chain_pat : Re.regex :=
  Re.Cat (Re.Class Py.isdigit)
    (Re.Cat (Re.Repeat 3 (Some 3%nat) (Re.Class Py.isalnum))
       (Re.Cat (Re.Chr "_") (Re.Cat (Re.Class Py.isalnum) Re.Eos))).

Definition is_valid_protein_id_local (s : string) : bool :=
  let s := Py.strip s in
  if bool_decide (s = EmptyString) then false
  else if Re.matches pdb_chain_pat s then false
  else true.

(** [r"([A-Z]{1,3}_\d+(?:\.\d+)?)"] *)
Definition accession_pat : Re.regex :=
  Re.Group
    (Re.Cat (Re.Repeat 1 (Some 3%nat) (Re.Class Py.isupper))
       (Re.Cat (Re.Chr "_")
          (Re.Cat (Re.Plus (Re.Class Py.isdigit))
             (Re.Opt (Re.Cat (Re.Chr ".") (Re.Plus (Re.Class Py.isdigit))))))).

(** [l[0]] *)
Definition first_item (l : list string) : res string :=
  match l with
  | x :: _ => Ok x
  | [] => Raise IndexError
  end.

Definition extract_accession_from_header (line : string) : res string :=
  let line := Py.rstrip_nl line in
  if negb (Py.startswith_gt line) then Ok EmptyString
  else
    match Re.search_group accession_pat line with
    | Some g => Ok g
    | None => first_item (Py.split (Py.strip (Py.tail line)))
    end.

(** *** The validator *)

Section Validator.
Variable remote : service.
Variable delay : seconds.
Variable retries : Z.

(** The per-ID loop of the fallback, lines 193-201. *)
Fixpoint per_id_fallback (batch : list string) (st : state) : state :=
  match batch with
  | [] => st
  | acc :: rest =>
      let '(o, st1) := request remote (PerId acc) acc st in
      per_id_fallback rest
        match o with
        | Success _ => sleep delay st1
        | Failure _ => add_invalid acc st1
        end
  end.

(** From [attempt += 1] to the end of the handler, lines 188-207. *)
Definition unclassified (batch : list string) (attempt : nat) (st : state)
    : turn :=
  let attempt := S attempt in
  if bool_decide (Z.of_nat attempt > retries)
  then Break (per_id_fallback batch st)
  else Continue batch attempt (sleep (whole_seconds (3 * attempt)) st).

(** One turn of the [while True] loop, lines 161-207. *)
Definition loop_body (batch : list string) (attempt : nat) (st : state)
    : turn :=
  let '(o, st1) :=
    request remote (WholeBatch batch) (Py.join_comma batch) st in
  match o with
  | Success _ => Break (sleep delay st1)
  | Failure msg =>
      match search_invalid_uid msg with
      | Some bad_uid =>
          if bool_decide (bad_uid ∈ batch) then
            let st2 := add_invalid bad_uid st1 in
            let batch := filter (λ x, x ≠ bad_uid) batch in
            if bool_decide (batch = []) then Break st2
            else Continue batch attempt st2
          else unclassified batch attempt st1
      | None => unclassified batch attempt st1
      end
  end.

Fixpoint while_true (fuel : nat) (batch : list string) (attempt : nat)
    (st : state) : option state :=
  match fuel with
  | O => None
  | S fuel =>
      match loop_body batch attempt st with
      | Break st' => Some st'
      | Continue batch attempt st' => while_true fuel batch attempt st'
      end
  end.

(** Turns that always suffice for one batch. *)
Definition enough (batch : list string) : nat :=
  S (length batch + Z.to_nat retries).

(** The body of the [for] over batches, lines 155-207. *)
Definition process_batch (batch : list string) (st : state)
    : option state :=
  if bool_decide (batch = []) then Some st
  else while_true (enough batch) batch 0%nat st.

Fixpoint for_batches (batches : list (list string)) (st : state)
    : option state :=
  match batches with
  | [] => Some st
  | batch :: rest =>
      match process_batch batch st with
      | Some st' => for_batches rest st'
      | None => None
      end
  end.
End Validator.

Definition start : state := State 0 [] ∅.

(** The run of the validator: [None] only if a loop were cut short. *)
Definition validate_run (remote : service) (ids : list string)
    (api_key : option string) (delay : option seconds)
    (retries batch_size : Z)
    : option (res state) :=
  match chunker ids batch_size with
  | Raise e => Some (Raise e)
  | Ok batches =>
      Ok <$> for_batches remote (polite_delay api_key delay) retries
               batches start
  end.

Definition validate_ids_with_entrez (remote : service) (ids : list string)
    (api_key : option string) (delay : option seconds)
    (retries batch_size : Z)
    : option (res (gset string)) :=
  r ← validate_run remote ids api_key delay retries batch_size;
  Some (res_bind r (λ st, Ok (invalid_ids st))).

(** *** The rewriter *)

Record writer := Writer {
  fout : list string;
  write_current : bool;
  kept : nat;
  skipped : nat
}.

(** The body of [for line in fin], lines 249-260. *)
Definition write_line (bad_ids : gset string) (w : writer) (line : string)
    : res writer :=
  if Py.startswith_gt line then
    res_bind (extract_accession_from_header line) (λ acc,
      if bool_decide (acc ∈ bad_ids) then
        Ok (Writer (fout w) false (kept w) (S (skipped w)))
      else
        Ok (Writer (fout w ++ [line]) true (S (kept w)) (skipped w)))
  else if write_current w then
    Ok (Writer (fout w ++ [line]) (write_current w) (kept w) (skipped w))
  else Ok w.

(** The loop stops at the first exception; what was written stays. *)
Fixpoint write_lines (bad_ids : gset string) (fin : list string)
    (w : writer) : writer * option exn :=
  match fin with
  | [] => (w, None)
  | line :: rest =>
      match write_line bad_ids w line with
      | Ok w' => write_lines bad_ids rest w'
      | Raise e => (w, Some e)
      end
  end.

Definition write_cleaned_fasta (fin : list string) (bad_ids : gset string)
    : writer * option exn :=
  write_lines bad_ids fin (Writer [] true 0 0).

(** *** The two files of the rewriter, lines 239-245

    The content of a text file is the text its bytes decode to, the
    same codec serving both files.  A file opened in mode [rt], by
    [open] or by [gzip.open], is read with universal newlines: [\r\n]
    and [\r] alone reach the program as [\n], and iteration yields the
    text cut after each [\n].  A file opened in mode [wt] receives the
    strings written, end to end, [\n] being written as [os.linesep],
    which is [\n] itself. *)

Definition carriage_return : ascii := ascii_of_nat 13.

(** The text that reading in mode [rt] hands to the program. *)
Fixpoint universal_newlines (content : string) : string :=
  match content with
  | EmptyString => EmptyString
  | String c rest =>
      if bool_decide (c = carriage_return) then
        String Py.newline
          match rest with
          | String c' rest' =>
              if bool_decide (c' = Py.newline) then universal_newlines rest'
              else universal_newlines rest
          | EmptyString => EmptyString
          end
      else String c (universal_newlines rest)
  end.

(** [for line in fh] on the translated text. *)
Fixpoint readlines (text : string) : list string :=
  match text with
  | EmptyString => []
  | String c rest =>
      if bool_decide (c = Py.newline)
      then String c EmptyString :: readlines rest
      else
        match readlines rest with
        | [] => [String c EmptyString]
        | l :: ls => String c l :: ls
        end
  end.

(** The lines that iteration over the file yields. *)
Definition open_rt (content : string) : list string :=
  readlines (universal_newlines content).

(** The content of the output file once [out] was written. *)
Definition written (out : list string) : string :=
  foldr String.append EmptyString out.

(** [write_cleaned_fasta], from the content of the input file to the
    content of the output file. *)
Definition write_cleaned_fasta_files (content : string)
    (bad_ids : gset string) : string * option exn :=
  let r := write_cleaned_fasta (open_rt content) bad_ids in
  (written (fout r.1), r.2).

(** [collect_accessions_from_fasta], before [sorted]: the set [accs]
    and the count [headers]. *)
Fixpoint collect_lines (fh : list string) (accs : gset string)
    (headers : nat) : res (gset string * nat) :=
  match fh with
  | [] => Ok (accs, headers)
  | line :: rest =>
      if Py.startswith_gt line then
        res_bind (extract_accession_from_header line) (λ acc,
          collect_lines rest
            (if bool_decide (acc = EmptyString) then accs else {[acc]} ∪ accs)
            (S headers))
      else collect_lines rest accs headers
  end.

(** Code-point order of [str], for [sorted]. *)
Definition str_le (a b : string) : Prop := String.leb a b = true.
#[global] Instance str_le_dec : RelDecision str_le.
Proof. intros a b. unfold str_le. apply _. Defined.

Definition collect_accessions_from_fasta (fh : list string)
    : res (list string) :=
  res_bind (collect_lines fh ∅ 0) (λ '(accs, _),
    Ok (merge_sort str_le (elements accs))).

(** *** [main], steps 1 to 5

    The input file is read twice, by the scan and by the rewriter, and
    is the same both times; the log file, the test that the input
    exists and the creation of the output directory are left out.  An
    exception of the rewriter is kept in [output], beside what was
    written before it. *)

Record cleaning := Cleaning {
  all_accs : list string;
  bad_pattern_ids : gset string;
  good_for_entrez : list string;
  entrez : state;
  bad_ids : gset string;
  output : writer * option exn
}.

Definition main (remote : service) (input : list string)
    (api_key : option string) (delay : option seconds) (retries : Z)
    : option (res cleaning) :=
  match collect_accessions_from_fasta input with
  | Raise e => Some (Raise e)
  | Ok all_accs =>
      let bad_pattern_ids : gset string :=
        list_to_set
          (filter (λ a, is_valid_protein_id_local a = false) all_accs) in
      let good_for_entrez :=
        filter (λ a, a ∉ bad_pattern_ids) all_accs in
      match validate_run remote good_for_entrez api_key delay retries 400 with
      | None => None
      | Some (Raise e) => Some (Raise e)
      | Some (Ok st) =>
          let bad_ids := bad_pattern_ids ∪ invalid_ids st in
          Some (Ok (Cleaning all_accs bad_pattern_ids good_for_entrez st
                      bad_ids (write_cleaned_fasta input bad_ids)))
      end
  end.

End CleanFasta.

(** ** [entrez_metadata.py]: the sibling loops *)

Module EntrezMetadata.
Import Entrez.

(** [^[A-Z]{1,3}_\d+(?:\.\d+)?$] *)
Definition _valid_refseq : Re.regex :=
  Re.Cat (Re.Repeat 1 (Some 3%nat) (Re.Class Py.isupper))
    (Re.Cat (Re.Chr "_")
       (Re.Cat (Re.Plus (Re.Class Py.isdigit))
          (Re.Cat
             (Re.Opt (Re.Cat (Re.Chr ".") (Re.Plus (Re.Class Py.isdigit))))
             Re.Eos))).

(** The class [[A-NR-Z0-9]]. *)
Definition uniprot_char (c : ascii) : bool :=
  let n := N_of_ascii c in
  ((65 <=? n) && (n <=? 78) || (82 <=? n) && (n <=? 90) || Py.isdigit c)%N.

(** [^[A-NR-Z0-9]{6,10}$] *)
Definition _valid_uniprot : Re.regex :=
  Re.Cat (Re.Repeat 6 (Some 10%nat) (Re.Class uniprot_char)) Re.Eos.

(** [^\d+$] *)
Definition _valid_numeric : Re.regex :=
  Re.Cat (Re.Plus (Re.Class Py.isdigit)) Re.Eos.

Definition is_valid_protein_id (s : string) : bool :=
  let s := Py.strip s in
  if bool_decide (s = EmptyString) then false
  else if Re.matches _valid_numeric s then true
  else if Re.matches _valid_refseq s then true
  else if Re.matches _valid_uniprot s then true
  else false.

(** The lines of one file, lines 74-91. *)
Fixpoint load_lines (fh : list string) (accs : gset string)
    : res (gset string) :=
  match fh with
  | [] => Ok accs
  | line :: rest =>
      if Py.startswith_gt line then
        res_bind
          match Re.search_group CleanFasta.accession_pat line with
          | Some g => Ok g
          | None =>
              CleanFasta.first_item (Py.split (Py.strip (Py.tail line)))
          end
          (λ token,
            load_lines rest
              (if negb (bool_decide (token = EmptyString)) && is_valid_protein_id token
               then {[token]} ∪ accs else accs))
      else load_lines rest accs
  end.

Fixpoint load_files (files : list (list string)) (accs : gset string)
    : res (gset string) :=
  match files with
  | [] => Ok accs
  | fh :: rest => res_bind (load_lines fh accs) (load_files rest)
  end.

Definition load_accessions_from_fasta (files : list (list string))
    : res (list string) :=
  res_bind (load_files files ∅) (λ accs,
    Ok (merge_sort CleanFasta.str_le (elements accs))).

(** The lines of the list, lines 97-104. *)
Fixpoint text_lines (fh : list string) (accs : gset string) : gset string :=
  match fh with
  | [] => accs
  | line :: rest =>
      let s := Py.strip line in
      if bool_decide (s = EmptyString) then text_lines rest accs
      else if is_valid_protein_id s then text_lines rest ({[s]} ∪ accs)
      else text_lines rest accs
  end.

Definition load_accessions_from_text (fh : list string) : list string :=
  merge_sort CleanFasta.str_le (elements (text_lines fh ∅)).

(** *** [esummary_protein] *)

Record fetch := Fetch {
  calls : nat;
  trace : list event;
  out : list string
}.

Inductive turn :=
| Continue (batch : list string) (attempt : nat) (st : fetch)
| Break (st : fetch)
| Reraise (msg : string) (st : fetch).

Section Fetcher.
Variable remote : service.
Variable delay : seconds.
Variable retries : Z.

(** One turn of the [while True] loop, lines 127-155. *)
Definition loop_body (batch : list string) (attempt : nat) (st : fetch)
    : turn :=
  let o := remote (calls st) (Py.join_comma batch) in
  let st1 :=
    Fetch (S (calls st)) (trace st ++ [WholeBatch batch o]) (out st) in
  match o with
  | Success recs =>
      Break (Fetch (calls st1) (trace st1 ++ [Sleep delay])
                   (out st1 ++ recs))
  | Failure msg =>
      let attempt := S attempt in
      let budget :=
        if bool_decide (Z.of_nat attempt > retries) then Reraise msg st1
        else Continue batch attempt
               (Fetch (calls st1)
                      (trace st1 ++ [Sleep (whole_seconds (3 * attempt))])
                      (out st1)) in
      match search_invalid_uid msg with
      | Some bad_uid =>
          if bool_decide (bad_uid ∈ batch) then
            let batch := filter (λ x, x ≠ bad_uid) batch in
            if bool_decide (batch = []) then Break st1
            else Continue batch attempt st1
          else budget
      | None => budget
      end
  end.

Fixpoint while_true (fuel : nat) (batch : list string) (attempt : nat)
    (st : fetch) : option (res fetch) :=
  match fuel with
  | O => None
  | S fuel =>
      match loop_body batch attempt st with
      | Break st' => Some (Ok st')
      | Reraise msg _ => Some (Raise (RemoteError msg))
      | Continue batch attempt st' => while_true fuel batch attempt st'
      end
  end.

Fixpoint for_batches (batches : list (list string)) (st : fetch)
    : option (res fetch) :=
  match batches with
  | [] => Some (Ok st)
  | batch :: rest =>
      if bool_decide (batch = []) then for_batches rest st
      else
        match
          while_true (S (length batch + Z.to_nat retries)) batch 0%nat st
        with
        | Some (Ok st') => for_batches rest st'
        | other => other
        end
  end.

Definition esummary_protein (ids : list string) : option (res fetch) :=
  match chunker ids 400 with
  | Raise e => Some (Raise e)
  | Ok batches => for_batches batches (Fetch 0 [] [])
  end.
End Fetcher.

(** *** [taxonomy_lineage] *)

(** What [Entrez.efetch] on the taxonomy database followed by
    [Entrez.read] and [close] gives: the taxa, or an exception [e] with
    [str(e) = msg]. *)
Inductive taxa_outcome :=
| Taxa (taxa : list (gmap string string))
| NoTaxa (msg : string).

Definition taxonomy := nat → string → taxa_outcome.

Inductive tax_event :=
| Efetch (batch : list string) (o : taxa_outcome)
| Pause (secs : seconds).

(** The state of [taxonomy_lineage]; an entry of [lineage_map] is the
    pair of its [ScientificName] and its [Lineage]. *)
Record lineages := Lineages {
  efetches : nat;
  history : list tax_event;
  lineage_map : gmap string (string * string)
}.

(** [t.get(key, EmptyString)] *)
Definition get (t : gmap string string) (key : string) : string :=
  default EmptyString (t !! key).

(** The body of [for t in taxa], lines 168-172. *)
Definition record_taxon (m : gmap string (string * string))
    (t : gmap string string) : gmap string (string * string) :=
  <[get t "TaxId" := (get t "ScientificName", get t "Lineage")]> m.

Section Lineage.
Variable remote : taxonomy.
Variable delay : seconds.
Variable retries : Z.

(** The [while True] loop, lines 162-181. *)
Fixpoint taxonomy_loop (fuel : nat) (batch : list string) (attempt : nat)
    (st : lineages) : option (res lineages) :=
  match fuel with
  | O => None
  | S fuel =>
      let o := remote (efetches st) (Py.join_comma batch) in
      let st1 :=
        Lineages (S (efetches st)) (history st ++ [Efetch batch o])
                 (lineage_map st) in
      match o with
      | Taxa taxa =>
          Some (Ok (Lineages (efetches st1) (history st1 ++ [Pause delay])
                      (foldl record_taxon (lineage_map st1) taxa)))
      | NoTaxa msg =>
          let attempt := S attempt in
          if bool_decide (Z.of_nat attempt > retries)
          then Some (Raise (RemoteError msg))
          else taxonomy_loop fuel batch attempt
                 (Lineages (efetches st1)
                    (history st1 ++ [Pause (whole_seconds (3 * attempt))])
                    (lineage_map st1))
      end
  end.

Fixpoint taxonomy_batches (batches : list (list string)) (st : lineages)
    : option (res lineages) :=
  match batches with
  | [] => Some (Ok st)
  | batch :: rest =>
      match taxonomy_loop (S (Z.to_nat retries)) batch 0%nat st with
      | Some (Ok st') => taxonomy_batches rest st'
      | other => other
      end
  end.

Definition taxonomy_lineage (taxids : list string) : option (res lineages) :=
  match chunker taxids 400 with
  | Raise e => Some (Raise e)
  | Ok batches => taxonomy_batches batches (Lineages 0 [] ∅)
  end.
End Lineage.

End EntrezMetadata.

(** ** The vocabulary of the design document *)

Module Design.
Import Entrez.

Definition is_whole_batch (e : event) : bool :=
  match e with
  | WholeBatch _ _ => true
  | _ => false
  end.

Definition is_per_id (e : event) : bool :=
  match e with
  | PerId _ _ => true
  | _ => false
  end.

Definition is_call (e : event) : bool := is_whole_batch e || is_per_id e.

Definition is_per_id_of (acc : string) (e : event) : bool :=
  match e with
  | PerId a _ => bool_decide (a = acc)
  | _ => false
  end.

Definition succeeded (e : event) : bool :=
  match e with
  | WholeBatch _ (Success _) | PerId _ (Success _) => true
  | _ => false
  end.

(** How many events of a trace satisfy [p]. *)
Definition count (p : event → bool) (t : list event) : nat :=
  length (filter (λ e, p e = true) t).

Definition whole_batch_calls : list event → nat := count is_whole_batch.
Definition per_id_calls : list event → nat := count is_per_id.

#[global] Instance seconds_eq_dec : EqDecision seconds.
Proof. solve_decision. Defined.

(** Before the next remote call of [t], if any, there is a delay of
    [d]. *)
Fixpoint delay_first (d : seconds) (t : list event) : bool :=
  match t with
  | [] => true
  | Sleep d' :: t' => bool_decide (d' = d) || delay_first d t'
  | _ => false
  end.

(** A delay of [d] separates every remote call from the next one. *)
Fixpoint paced (d : seconds) (t : list event) : bool :=
  match t with
  | [] => true
  | e :: t' => (negb (is_call e) || delay_first d t') && paced d t'
  end.

(** A delay of [d] follows every remote call that succeeded. *)
Definition paced_after_success (d : seconds) (t : list event) : Prop :=
  ∀ i e, t !! i = Some e → succeeded e = true →
         t !! S i = Some (Sleep d).

(** A message that does not name a member of the batch. *)
Definition ambiguous (batch : list string) (msg : string) : Prop :=
  match search_invalid_uid msg with
  | Some x => x ∉ batch
  | None => True
  end.

(** An identifier has an outcome backed by the service: it is rejected,
    or a call that carried it succeeded. *)
Definition resolved (st : state) (x : string) : Prop :=
  x ∈ invalid_ids st
  ∨ (∃ batch recs, WholeBatch batch (Success recs) ∈ trace st ∧ x ∈ batch)
  ∨ (∃ recs, PerId x (Success recs) ∈ trace st).

(** A record of the dataset: a header line and its body lines. *)
Record fasta_record := Rec { header : string; body : list string }.

Definition well_formed (r : fasta_record) : Prop :=
  Py.startswith_gt (header r) = true
  ∧ Forall (λ l, Py.startswith_gt l = false) (body r)
  ∧ ∃ acc, CleanFasta.extract_accession_from_header (header r) = Ok acc.

Definition record_lines (r : fasta_record) : list string :=
  header r :: body r.

Definition stream (rs : list fasta_record) : list string :=
  concat (record_lines <$> rs).

(** The identifier of the record is extracted and is not rejected. *)
Definition retained (bad_ids : gset string) (r : fasta_record) : Prop :=
  ∃ acc, CleanFasta.extract_accession_from_header (header r) = Ok acc
         ∧ acc ∉ bad_ids.

#[global] Instance retained_dec bad_ids r : Decision (retained bad_ids r).
Proof.
  unfold retained.
  destruct (CleanFasta.extract_accession_from_header (header r)) as [a|e].
  - destruct (decide (a ∈ bad_ids)) as [Hin|Hout].
    + right. intros (acc & [= <-] & Hn). done.
    + left. eauto.
  - right. intros (acc & Heq & _). done.
Defined.

(** What the per-ID loop appends to the trace when it starts at call
    number [n], and the identifiers whose individual call fails. *)
Section Fallback.
Variable remote : service.
Variable delay : seconds.

Fixpoint fallback_events (n : nat) (batch : list string) : list event :=
  match batch with
  | [] => []
  | acc :: rest =>
      PerId acc (remote n acc)
        :: (if failed (remote n acc) then [] else [Sleep delay])
        ++ fallback_events (S n) rest
  end.

Fixpoint individually_failed (n : nat) (batch : list string)
    : list string :=
  match batch with
  | [] => []
  | acc :: rest =>
      (if failed (remote n acc) then [acc] else [])
        ++ individually_failed (S n) rest
  end.
End Fallback.

(** The state right after the whole-batch call of a turn. *)
Definition after_call (remote : service) (batch : list string)
    (st : state) : state :=
  snd (request remote (WholeBatch batch) (Py.join_comma batch) st).

(** The turns a batch may still take: removals and budgeted retries. *)
Definition turns_left (retries : Z) (batch : list string) (attempt : nat)
    : nat :=
  (length batch + Z.to_nat (retries - Z.of_nat attempt))%nat.

(** [st'] is [st] after more work: a longer trace, a larger set. *)
Definition extends (st st' : state) : Prop :=
  (calls st ≤ calls st')%nat
  ∧ invalid_ids st ⊆ invalid_ids st'
  ∧ ∃ new, trace st' = (trace st ++ new)%list.

(** What the processing of [batch] from [st] to [st'] guarantees: only
    members of the batch are rejected, each member is resolved, and a
    trace in which a delay of [d] follows every successful call stays
    so. *)
Definition batch_post (d : seconds) (batch : list string) (st st' : state)
    : Prop :=
  extends st st'
  ∧ (∀ x, x ∈ invalid_ids st' → x ∈ invalid_ids st ∨ x ∈ batch)
  ∧ (∀ x, x ∈ batch → resolved st' x)
  ∧ (paced_after_success d (trace st) → paced_after_success d (trace st')).

(** The state a turn ends with. *)
Definition state_of (t : turn) : state :=
  match t with
  | Continue _ _ st | Break st => st
  end.

(** The batch once the identifiers of [removed] have been dropped. *)
Definition reduced (batch : list string) (removed : gset string)
    : list string :=
  filter (λ x, x ∉ removed) batch.

(** The service answers every reduced batch that still holds an
    identifier of [bad] by naming one of these, and no other request
    with a failure. *)
Definition names_bad (remote : service) (bad : gset string)
    (batch : list string) : Prop :=
  ∀ n removed,
    let b := reduced batch removed in
    b ≠ [] →
    match remote n (Py.join_comma b) with
    | Success _ => ∀ x, x ∈ b → x ∉ bad
    | Failure msg => ∃ x, search_invalid_uid msg = Some x ∧ x ∈ b ∧ x ∈ bad
    end.

(** What is kept from turn to turn while [batch0] is processed from
    [st0]: [b] is what is left of the batch, the rest is rejected. *)
Definition turn_inv (d : seconds) (batch0 : list string) (st0 : state)
    (b : list string) (a : nat) (s : state) : Prop :=
  extends st0 s
  ∧ (∀ x, x ∈ invalid_ids s → x ∈ invalid_ids st0 ∨ x ∈ batch0)
  ∧ (∀ x, x ∈ batch0 → x ∈ b ∨ x ∈ invalid_ids s)
  ∧ (∀ x, x ∈ b → x ∈ batch0)
  ∧ (paced_after_success d (trace st0) → paced_after_success d (trace s)).

(** Between the turns of a batch whose failures all name a member of
    [bad]: [removed] was named and dropped, one whole-batch call each. *)
Definition reduction_inv (d : seconds) (bad : gset string)
    (batch : list string) (st : state)
    (b : list string) (a : nat) (s : state) : Prop :=
  ∃ (removed : gset string) new,
    removed ⊆ bad ∩ list_to_set batch
    ∧ b = reduced batch removed
    ∧ b ≠ []
    ∧ invalid_ids s = invalid_ids st ∪ removed
    ∧ trace s = (trace st ++ new)%list
    ∧ whole_batch_calls new = size removed
    ∧ per_id_calls new = 0%nat
    ∧ ∀ secs, Sleep secs ∈ new → secs = d.

(** And once such a batch is done. *)
Definition reduction_post (d : seconds) (bad : gset string)
    (batch : list string) (st s : state) : Prop :=
  ∃ new,
    trace s = (trace st ++ new)%list
    ∧ (whole_batch_calls new ≤ size (bad ∩ list_to_set batch) + 1)%nat
    ∧ per_id_calls new = 0%nat
    ∧ (∀ secs, Sleep secs ∈ new → secs = d)
    ∧ invalid_ids s = invalid_ids st ∪ (bad ∩ list_to_set batch).

(** A remote call asks only about identifiers of [batch], in their order,
    at most [n] at a time, and never about none. *)
Definition asks_within (n : nat) (batch : list string) (e : event) : Prop :=
  match e with
  | WholeBatch b _ => b ≠ [] ∧ b `sublist_of` batch ∧ (length b ≤ n)%nat
  | PerId acc _ => acc ∈ batch
  | Sleep _ => True
  end.

(** The trace holds a failure that speaks against [x]: a whole-batch
    call that carried [x] failed and named it, or its individual call
    failed. *)
Definition evidence (t : list event) (x : string) : Prop :=
  (∃ b msg, WholeBatch b (Failure msg) ∈ t
            ∧ search_invalid_uid msg = Some x ∧ x ∈ b)
  ∨ (∃ msg, PerId x (Failure msg) ∈ t).

(** From [st] to [st'] the service was asked within [batch] only, and
    whatever was rejected has a failure against it. *)
Definition audited (n : nat) (batch : list string) (st st' : state)
    : Prop :=
  ∃ new,
    trace st' = (trace st ++ new)%list
    ∧ Forall (asks_within n batch) new
    ∧ ∀ x, x ∈ invalid_ids st' → x ∈ invalid_ids st ∨ evidence new x.

(** Between the turns of [batch0]: as [audited], no individual call yet,
    and each whole-batch call was paid for by a turn. *)
Definition audit_inv (retries : Z) (batch0 : list string) (st0 : state)
    (b : list string) (a : nat) (s : state) : Prop :=
  b ≠ []
  ∧ b `sublist_of` batch0
  ∧ ∃ new,
      trace s = (trace st0 ++ new)%list
      ∧ Forall (asks_within (length batch0) batch0) new
      ∧ (∀ x, x ∈ invalid_ids s → x ∈ invalid_ids st0 ∨ evidence new x)
      ∧ per_id_calls new = 0%nat
      ∧ (whole_batch_calls new + turns_left retries b a
         ≤ turns_left retries batch0 0)%nat.

(** Once [batch0] is done. *)
Definition audit_post (retries : Z) (batch0 : list string) (st0 s : state)
    : Prop :=
  ∃ new,
    trace s = (trace st0 ++ new)%list
    ∧ Forall (asks_within (length batch0) batch0) new
    ∧ (∀ x, x ∈ invalid_ids s → x ∈ invalid_ids st0 ∨ evidence new x)
    ∧ (whole_batch_calls new ≤ length batch0 + Z.to_nat retries)%nat
    ∧ (per_id_calls new ≤ length batch0)%nat.

(** The header line [line] yields an identifier that is not rejected. *)
Definition accepted_header (bad_ids : gset string) (line : string) : Prop :=
  ∃ acc, CleanFasta.extract_accession_from_header line = Ok acc
         ∧ acc ∉ bad_ids.

(** The header lines of a stream. *)
Definition headers (fin : list string) : list string :=
  filter (λ l, Py.startswith_gt l = true) fin.

(** Every character is white space; none is. *)
Definition all_space (s : string) : bool :=
  forallb Py.isspace (list_ascii_of_string s).

Definition no_space (s : string) : bool :=
  forallb (λ c, negb (Py.isspace c)) (list_ascii_of_string s).

(** A pattern that cannot match without taking a character. *)
Fixpoint consuming (r : Re.regex) : bool :=
  match r with
  | Re.Chr _ | Re.Class _ => true
  | Re.Cat r1 r2 => consuming r1 || consuming r2
  | Re.Repeat lo _ r => negb (lo =? 0)%nat && consuming r
  | Re.Group r => consuming r
  | Re.Eos => false
  end.

(** The shape the local filter refuses: a digit, three letters or
    digits, an underscore, a letter or digit. *)
Definition pdb_like (t : string) : bool :=
  match t with
  | String d (String a (String b (String c (String u (String e
      EmptyString))))) =>
      Py.isdigit d && Py.isalnum a && Py.isalnum b && Py.isalnum c
      && bool_decide (u = "_"%char) && Py.isalnum e
  | _ => false
  end.

(** A call that carried [x] succeeded. *)
Definition confirmed (t : list event) (x : string) : Prop :=
  (∃ batch recs, WholeBatch batch (Success recs) ∈ t ∧ x ∈ batch)
  ∨ (∃ recs, PerId x (Success recs) ∈ t).

(** Some header of the stream yields [x]. *)
Definition header_accession (fin : list string) (x : string) : Prop :=
  ∃ line, line ∈ fin ∧ Py.startswith_gt line = true
          ∧ CleanFasta.extract_accession_from_header line = Ok x.

(** Some header of the stream has no token. *)
Definition tokenless_header (fin : list string) : Prop :=
  ∃ line, line ∈ fin ∧ Py.startswith_gt line = true
          ∧ CleanFasta.extract_accession_from_header line = Raise IndexError.

(** The text holds no carriage return. *)
Definition carriage_free (s : string) : bool :=
  forallb (λ c, negb (bool_decide (c = CleanFasta.carriage_return)))
    (list_ascii_of_string s).

(** *** Patterns and the end of a line *)

(** A pattern that never takes a newline, has no anchor, and whose
    unbounded repetitions take a character at each turn. *)
Fixpoint plain (r : Re.regex) : bool :=
  match r with
  | Re.Chr c => negb (bool_decide (c = Py.newline))
  | Re.Class p => negb (p Py.newline)
  | Re.Cat r1 r2 => plain r1 && plain r2
  | Re.Repeat _ hi r => plain r && (bool_decide (is_Some hi) || consuming r)
  | Re.Group r => plain r
  | Re.Eos => false
  end.

(** Nothing is left of the line, or a newline comes next. *)
Definition at_line_end (t : string) : Prop :=
  match t with
  | EmptyString => True
  | String c _ => c = Py.newline
  end.

(** Newlines only. *)
Definition newlines (t : string) : bool :=
  forallb (λ c, bool_decide (c = Py.newline)) (list_ascii_of_string t).

(** Two continuations agree on what a pattern may hand on when it is
    given [n] characters followed by [t], or the [n] characters alone. *)
Definition agree {A} (t : string) (n : nat) (strict : bool)
    (k k' : @Re.cont A) : Prop :=
  ∀ s' g', (String.length s' ≤ n)%nat →
           (strict = true → (String.length s' < n)%nat) →
           k (s' ++ t)%string g' = k' s' g'.

End Design.

(** ** The vocabulary of [entrez_metadata.py] *)

Module Metadata.
Import Entrez Design EntrezMetadata.

(** The records of the calls that succeeded, in call order. *)
Definition records (t : list event) : list string :=
  concat ((λ e, match e with
                | WholeBatch _ (Success recs) => recs
                | _ => []
                end) <$> t).

(** A call that carried [x] succeeded. *)
Definition carried (t : list event) (x : string) : Prop :=
  ∃ b recs, WholeBatch b (Success recs) ∈ t ∧ x ∈ b.

(** A call that carried [x] failed and named it. *)
Definition named (t : list event) (x : string) : Prop :=
  ∃ b msg, WholeBatch b (Failure msg) ∈ t
           ∧ search_invalid_uid msg = Some x ∧ x ∈ b.

(** [msg] is the message of a failed call that asked about a run of
    identifiers of [batch] and named none of them. *)
Definition gives_up (remote : service) (batch : list string) (msg : string)
    : Prop :=
  ∃ n b, b ≠ [] ∧ b `sublist_of` batch
         ∧ remote n (Py.join_comma b) = Failure msg ∧ ambiguous b msg.

(** Between the turns of [batch0] in [esummary_protein]: no call has
    succeeded yet, and what is no longer in the batch was named. *)
Definition fetch_inv (batch0 : list string) (st0 : fetch)
    (b : list string) (a : nat) (s : fetch) : Prop :=
  b ≠ [] ∧ b `sublist_of` batch0
  ∧ ∃ new,
      trace s = (trace st0 ++ new)%list
      ∧ out s = out st0
      ∧ records new = []
      ∧ Forall (asks_within (length batch0) batch0) new
      ∧ ∀ x, x ∈ batch0 → x ∈ b ∨ named new x.

(** Once [batch0] is done. *)
Definition fetch_post (batch0 : list string) (st0 s : fetch) : Prop :=
  ∃ new,
    trace s = (trace st0 ++ new)%list
    ∧ out s = (out st0 ++ records new)%list
    ∧ Forall (asks_within (length batch0) batch0) new
    ∧ ∀ x, x ∈ batch0 → carried new x ∨ named new x.

(** From [st] to [st'] the identifiers of [covered] were dealt with. *)
Definition fetched (ids : list string) (covered : list string)
    (st st' : fetch) : Prop :=
  ∃ new,
    trace st' = (trace st ++ new)%list
    ∧ out st' = (out st ++ records new)%list
    ∧ Forall (asks_within 400 ids) new
    ∧ ∀ x, x ∈ covered → carried new x ∨ named new x.

(** The taxa of the calls that succeeded, in call order. *)
Definition taxa_of (t : list tax_event) : list (gmap string string) :=
  concat ((λ e, match e with
                | Efetch _ (Taxa taxa) => taxa
                | _ => []
                end) <$> t).

(** The batches of the calls that succeeded, in call order. *)
Definition answered (t : list tax_event) : list (list string) :=
  concat ((λ e, match e with
                | Efetch b (Taxa _) => [b]
                | _ => []
                end) <$> t).

Definition is_efetch (e : tax_event) : bool :=
  match e with
  | Efetch _ _ => true
  | Pause _ => false
  end.

Definition efetch_calls (t : list tax_event) : nat :=
  length (filter (λ e, is_efetch e = true) t).

(** From [st] to [st'] each batch of [batches] was answered, once. *)
Definition taxonomy_done (retries : Z) (batches : list (list string))
    (st st' : lineages) : Prop :=
  ∃ new,
    history st' = (history st ++ new)%list
    ∧ lineage_map st'
      = foldl record_taxon (lineage_map st) (taxa_of new)
    ∧ answered new = batches
    ∧ (efetch_calls new ≤ length batches * S (Z.to_nat retries))%nat.

(** [msg] is the message of a failed call for a batch of [batches]. *)
Definition taxonomy_fails (remote : taxonomy)
    (batches : list (list string)) (msg : string) : Prop :=
  ∃ n b, b ∈ batches ∧ remote n (Py.join_comma b) = NoTaxa msg.

End Metadata.

(** ** The scenario of the design document

    Identifiers [A, B, C, D] in batches of two, one budgeted retry: the
    first batch fails with [Invalid uid B]; the second fails twice without
    naming anyone, then [C] passes and [D] fails on its own. *)

Module Scenario.
Import Entrez.

Definition remote : service :=
  λ _ id,
    if bool_decide (id = "A,B") then Failure "Invalid uid B"
    else if bool_decide (id = "C,D") then Failure "HTTP Error 500"
    else if bool_decide (id = "D") then Failure "HTTP Error 400"
    else Success [].

Definition ids : list string := ["A"; "B"; "C"; "D"].

(** A service that fails on [C,D] without naming anyone, and on [D]
    alone. *)
Definition opaque : service :=
  λ _ id,
    if bool_decide (id = "C,D") then Failure "HTTP Error 500"
    else if bool_decide (id = "D") then Failure "HTTP Error 400"
    else Success [].

(** A service that fails exactly when [B] is asked for, and names it. *)
Definition naming : service :=
  λ _ id,
    if bool_decide (id = "A,B") then Failure "Invalid uid B"
    else if bool_decide (id = "B") then Failure "Invalid uid B"
    else Success [].

(** A service that never fails. *)
Definition quiet : service := λ _ _, Success [].

(** A service whose failures name an identifier nobody asked about. *)
Definition stale : service := λ _ _, Failure "Invalid uid Z".

(** A service that names [A], then times out once, then answers. *)
Definition flaky : service :=
  λ n _,
    match n with
    | O => Failure "Invalid uid A"
    | S O => Failure "timed out"
    | _ => Success ["summary"]
    end.

(** A service that names [A], then times out for ever. *)
Definition lost : service :=
  λ n _,
    match n with
    | O => Failure "Invalid uid A"
    | _ => Failure "timed out"
    end.

(** A taxonomy service that is down. *)
Definition down : EntrezMetadata.taxonomy :=
  λ _ _, EntrezMetadata.NoTaxa "HTTP Error 502".

(** The line [>\n]. *)
Definition bare_header : string := String ">" (String Py.newline EmptyString).

(** A line of text with its end of line. *)
Definition line (text : string) : string :=
  text ++ String Py.newline EmptyString.

(** A record that the local filter refuses. *)
Definition pdb_record : Design.fasta_record :=
  Design.Rec (line ">1Q3Z_A chain A") [line "TTT"].

(** A small dataset: two records, and a line that precedes them. *)
Definition first_record : Design.fasta_record :=
  Design.Rec (line ">NP_000001.1 first protein") [line "MKV"; line "LLA"].

Definition second_record : Design.fasta_record :=
  Design.Rec (line ">sp|P12345 second protein") [line "GGG"].

Definition stray : string := line "ACGT".

(** A line of text with a DOS end of line, and the first record in a
    file with such lines. *)
Definition dos_line (text : string) : string :=
  text ++ String CleanFasta.carriage_return (String Py.newline EmptyString).

Definition dos_file : string :=
  dos_line ">NP_000001.1 first protein" ++ dos_line "MKV" ++ dos_line "LLA".

(** The two records in a file with Unix lines. *)
Definition unix_file : string :=
  line ">NP_000001.1 first protein" ++ line "MKV" ++ line "LLA"
  ++ line ">sp|P12345 second protein" ++ line "GGG".

End Scenario.

(** * Properties *)

Local Open Scope list_scope.

(** ** The batch loop *)

Module Loop.
Import Entrez CleanFasta Design.

Section Facts.
Variable remote : service.
Variable delay : seconds.
Variable retries : Z.

Abbreviation loop_body := (loop_body remote delay retries).
Abbreviation while_true := (while_true remote delay retries).
Abbreviation per_id_fallback := (per_id_fallback remote delay).
Abbreviation unclassified := (unclassified remote delay retries).

Lemma per_id_fallback_calls batch st :
  calls (per_id_fallback batch st) = (calls st + length batch)%nat.
Proof.
  revert st. induction batch as [|acc rest IH]; intros st; simpl.
  - lia.
  - destruct (remote (calls st) acc); rewrite IH; simpl; lia.
Qed.

Lemma per_id_fallback_trace batch st :
  trace (per_id_fallback batch st)
  = trace st ++ fallback_events remote delay (calls st) batch.
Proof.
  revert st. induction batch as [|acc rest IH]; intros st; simpl.
  - by rewrite app_nil_r.
  - destruct (remote (calls st) acc); rewrite IH; simpl;
      by rewrite <- ?app_assoc.
Qed.

Lemma per_id_fallback_invalid batch st x :
  x ∈ invalid_ids (per_id_fallback batch st)
  ↔ x ∈ invalid_ids st
    ∨ x ∈ individually_failed remote (calls st) batch.
Proof.
  revert st. induction batch as [|acc rest IH]; intros st; simpl.
  - set_solver.
  - destruct (remote (calls st) acc); rewrite IH; simpl; set_solver.
Qed.

Lemma individually_failed_lookup n batch x :
  x ∈ individually_failed remote n batch
  ↔ ∃ i, batch !! i = Some x ∧ failed (remote (n + i)%nat x) = true.
Proof.
  revert n. induction batch as [|acc rest IH]; intros n; simpl.
  - split; [intros H; inversion H | intros (i & H & _); done].
  - rewrite elem_of_app, IH. split.
    + intros [H | (i & Hi & Hf)].
      * exists 0%nat. destruct (failed (remote n acc)) eqn:E.
        -- apply list_elem_of_singleton in H as ->.
           by rewrite Nat.add_0_r.
        -- inversion H.
      * exists (S i). by rewrite Nat.add_succ_r.
    + intros ([|i] & Hi & Hf); simpl in Hi.
      * injection Hi as ->. rewrite Nat.add_0_r in Hf. rewrite Hf.
        left. apply list_elem_of_singleton. done.
      * right. exists i. by rewrite Nat.add_succ_r in Hf.
Qed.

Abbreviation after_call := (after_call remote).

(** The ways a turn can go. *)
Lemma loop_body_success (batch : list string) (attempt : nat) st recs :
  remote (calls st) (Py.join_comma batch) = Success recs →
  loop_body batch attempt st = Break (sleep delay (after_call batch st)).
Proof. intros H. unfold loop_body, after_call, request. by rewrite H. Qed.

Lemma loop_body_named (batch : list string) (attempt : nat) st msg x :
  remote (calls st) (Py.join_comma batch) = Failure msg →
  search_invalid_uid msg = Some x →
  x ∈ batch →
  loop_body batch attempt st
  = let st2 := add_invalid x (after_call batch st) in
    let batch' := filter (λ y, y ≠ x) batch in
    if bool_decide (batch' = []) then Break st2
    else Continue batch' attempt st2.
Proof.
  intros H Hs Hin. unfold loop_body, after_call, request.
  rewrite H, Hs. by rewrite bool_decide_eq_true_2.
Qed.

Lemma loop_body_ambiguous (batch : list string) (attempt : nat) st msg :
  remote (calls st) (Py.join_comma batch) = Failure msg →
  ambiguous batch msg →
  loop_body batch attempt st
  = unclassified batch attempt (after_call batch st).
Proof.
  intros H Ha. unfold loop_body, after_call, request, ambiguous in *.
  rewrite H. destruct (search_invalid_uid msg); [|done].
  by rewrite bool_decide_eq_false_2.
Qed.

(** Every turn is one of them. *)
Lemma loop_body_cases (batch : list string) (attempt : nat) (st : state) :
  (∃ recs, remote (calls st) (Py.join_comma batch) = Success recs)
  ∨ (∃ msg x, remote (calls st) (Py.join_comma batch) = Failure msg
              ∧ search_invalid_uid msg = Some x ∧ x ∈ batch)
  ∨ (∃ msg, remote (calls st) (Py.join_comma batch) = Failure msg
            ∧ ambiguous batch msg).
Proof.
  destruct (remote (calls st) (Py.join_comma batch)) as [recs|msg] eqn:E.
  - left. eauto.
  - right. unfold ambiguous.
    destruct (search_invalid_uid msg) as [x|] eqn:Es.
    + destruct (decide (x ∈ batch)).
      * left. by exists msg, x.
      * right. exists msg. by rewrite Es.
    + right. exists msg. by rewrite Es.
Qed.

Lemma loop_body_decreases (b : list string) (a : nat) s b' a' s' :
  loop_body b a s = Continue b' a' s' →
  (turns_left retries b' a' < turns_left retries b a)%nat.
Proof.
  unfold turns_left.
  destruct (loop_body_cases b a s)
    as [(recs & H) | [(msg & x & H & Hs & Hin) | (msg & H & Ha)]].
  - rewrite (loop_body_success _ _ _ _ H). done.
  - rewrite (loop_body_named _ _ _ _ _ H Hs Hin). simpl.
    case_bool_decide; [done|]. intros [= <- <- <-].
    assert (length (filter (λ y, y ≠ x) b) < length b)%nat
      by (apply (length_filter_lt _ _ x); [done | naive_solver]).
    lia.
  - rewrite (loop_body_ambiguous _ _ _ _ H Ha). unfold unclassified.
    case_bool_decide; [done|]. intros [= <- <- <-]. lia.
Qed.

(** *** States along a run *)

Lemma extends_refl st : extends st st.
Proof. split; [lia|]. split; [done|]. exists []. by rewrite app_nil_r. Qed.

Lemma extends_trans st1 st2 st3 :
  extends st1 st2 → extends st2 st3 → extends st1 st3.
Proof.
  intros (Hc1 & Hi1 & n1 & Ht1) (Hc2 & Hi2 & n2 & Ht2).
  split; [lia|]. split; [set_solver|].
  exists (n1 ++ n2). by rewrite Ht2, Ht1, app_assoc.
Qed.

Lemma extends_after_call batch st : extends st (after_call batch st).
Proof. split; [simpl; lia|]. split; [done|]. by eexists. Qed.

Lemma extends_sleep secs st : extends st (sleep secs st).
Proof. split; [simpl; lia|]. split; [done|]. by eexists. Qed.

Lemma extends_add_invalid x st : extends st (add_invalid x st).
Proof.
  split; [simpl; lia|]. split; [simpl; set_solver|].
  exists []. by rewrite app_nil_r.
Qed.

Lemma resolved_mono st st' x :
  extends st st' → resolved st x → resolved st' x.
Proof.
  intros (_ & Hi & new & Ht) [H | [(b & recs & H & Hx) | (recs & H)]].
  - left. set_solver.
  - right. left. exists b, recs. rewrite Ht. set_solver.
  - right. right. exists recs. rewrite Ht. set_solver.
Qed.

(** *** Delays after successful calls *)

Lemma paced_snoc_quiet d t e :
  paced_after_success d t → succeeded e = false →
  paced_after_success d (t ++ [e]).
Proof.
  intros Hp He i e' Hi Hs.
  destruct (decide (i < length t)%nat) as [Hlt|Hge].
  - rewrite lookup_app_l in Hi by done.
    specialize (Hp i e' Hi Hs).
    apply lookup_app_l_Some. done.
  - assert (i = length t) as ->.
    { apply lookup_lt_Some in Hi. rewrite length_app in Hi.
      simpl in Hi. lia. }
    rewrite list_lookup_middle in Hi by done. congruence.
Qed.

Lemma paced_snoc_success d t e :
  paced_after_success d t →
  paced_after_success d (t ++ [e; Sleep d]).
Proof.
  intros Hp i e' Hi Hs.
  destruct (decide (i < length t)%nat) as [Hlt|Hge].
  - rewrite lookup_app_l in Hi by done.
    specialize (Hp i e' Hi Hs).
    apply lookup_app_l_Some. done.
  - rewrite lookup_app_r in Hi by lia.
    rewrite lookup_app_r by lia.
    destruct (i - length t)%nat as [|[|k]] eqn:E; simpl in Hi.
    + replace (S i - length t)%nat with 1%nat by lia. done.
    + injection Hi as <-. done.
    + done.
Qed.

(** *** What a batch guarantees *)

Lemma batch_post_compose b1 b2 st1 st2 st3 :
  batch_post delay b1 st1 st2 → batch_post delay b2 st2 st3 →
  batch_post delay (b1 ++ b2) st1 st3.
Proof.
  intros (He1 & Hi1 & Hr1 & Hp1) (He2 & Hi2 & Hr2 & Hp2).
  split; [by eapply extends_trans|]. split; [|split].
  - intros x Hx. rewrite elem_of_app.
    destruct (Hi2 x Hx) as [H|H]; [|by auto].
    destruct (Hi1 x H); auto.
  - intros x [Hx|Hx]%elem_of_app; [|by auto].
    eapply resolved_mono; [done|]. auto.
  - auto.
Qed.

Lemma per_id_fallback_post batch st :
  batch_post delay batch st (per_id_fallback batch st).
Proof.
  revert st. induction batch as [|acc rest IH]; intros st.
  - simpl. split; [apply extends_refl|].
    split; [auto|]. split; [|done]. intros x Hx. inversion Hx.
  - change (acc :: rest) with ([acc] ++ rest).
    simpl per_id_fallback.
    destruct (remote (calls st) acc) as [recs|msg] eqn:E.
    + eapply batch_post_compose; [|apply IH].
      split; [|split; [|split]].
      * split; [simpl; lia|]. split; [done|]. simpl.
        rewrite <- app_assoc. by eexists.
      * simpl. auto.
      * intros x ->%list_elem_of_singleton. right. right.
        exists recs. simpl. set_solver.
      * intros Hp. simpl. rewrite <- app_assoc.
        by apply paced_snoc_success.
    + eapply batch_post_compose; [|apply IH].
      split; [|split; [|split]].
      * split; [simpl; lia|]. split; [simpl; set_solver|]. simpl.
        by eexists.
      * simpl. set_solver.
      * intros x ->%list_elem_of_singleton. left. simpl. set_solver.
      * intros Hp. simpl. by apply paced_snoc_quiet.
Qed.

(** The loop rule: an invariant of the turns, kept until the loop is
    left, holds of the state it is left with; and the loop is left. *)
Lemma while_true_rule
    (Inv : list string → nat → state → Prop) (Post : state → Prop) :
  (∀ b a s st', Inv b a s → loop_body b a s = Break st' → Post st') →
  (∀ b a s b' a' s',
     Inv b a s → loop_body b a s = Continue b' a' s' → Inv b' a' s') →
  ∀ fuel b a s,
    (turns_left retries b a < fuel)%nat → Inv b a s →
    ∃ st', while_true fuel b a s = Some st' ∧ Post st'.
Proof.
  intros Hbreak Hcont fuel.
  induction fuel as [|fuel IH]; intros b a s Hfuel Hinv; [lia|].
  simpl. destruct (loop_body b a s) as [b' a' s'|st'] eqn:E.
  - apply IH; [|by eapply Hcont].
    pose proof (loop_body_decreases _ _ _ _ _ _ E). lia.
  - exists st'. split; [done|]. by eapply Hbreak.
Qed.

Lemma turn_inv_break batch0 st0 b a s st' :
  turn_inv delay batch0 st0 b a s → loop_body b a s = Break st' →
  batch_post delay batch0 st0 st'.
Proof.
  intros (He & Hi & Hcov & Hsub & Hp).
  destruct (loop_body_cases b a s)
    as [(recs & H) | [(msg & x & H & Hs & Hin) | (msg & H & Ha)]].
  - rewrite (loop_body_success _ _ _ _ H). intros [= <-].
    split; [|split; [|split]].
    + eapply extends_trans; [done|].
      eapply extends_trans; [apply extends_after_call|].
      apply extends_sleep.
    + simpl. done.
    + intros y Hy. destruct (Hcov y Hy) as [Hb|Hinv].
      * right. left. exists b, recs. split; [|done]. simpl.
        rewrite H. set_solver.
      * left. done.
    + intros Hp0. simpl. rewrite H, <- app_assoc.
      apply paced_snoc_success. auto.
  - rewrite (loop_body_named _ _ _ _ _ H Hs Hin). simpl.
    case_bool_decide as Hnil; [|done]. intros [= <-].
    split; [|split; [|split]].
    + eapply extends_trans; [done|].
      eapply extends_trans; [apply extends_after_call|].
      apply extends_add_invalid.
    + simpl. intros y [->%elem_of_singleton|Hy]%elem_of_union; auto.
    + intros y Hy. left. simpl. destruct (Hcov y Hy) as [Hb|Hinv].
      * destruct (decide (y = x)) as [->|Hne]; [set_solver|].
        exfalso. eapply (filter_nil_not_elem_of _ _ y Hnil); done.
      * set_solver.
    + intros Hp0. simpl. rewrite H.
      apply paced_snoc_quiet; auto.
  - rewrite (loop_body_ambiguous _ _ _ _ H Ha). unfold CleanFasta.unclassified.
    case_bool_decide; [|done]. intros [= <-].
    destruct (per_id_fallback_post b (after_call b s))
      as (He' & Hi' & Hr' & Hp').
    split; [|split; [|split]].
    + eapply extends_trans; [done|].
      eapply extends_trans; [apply extends_after_call|done].
    + intros y Hy. destruct (Hi' y Hy); auto.
    + intros y Hy. destruct (Hcov y Hy) as [Hb|Hinv]; [auto|].
      left. destruct He' as (_ & Hsub' & _). simpl in Hsub'. set_solver.
    + intros Hp0. apply Hp'. simpl. rewrite H.
      apply paced_snoc_quiet; auto.
Qed.

Lemma turn_inv_continue batch0 st0 b a s b' a' s' :
  turn_inv delay batch0 st0 b a s → loop_body b a s = Continue b' a' s' →
  turn_inv delay batch0 st0 b' a' s'.
Proof.
  intros (He & Hi & Hcov & Hsub & Hp).
  destruct (loop_body_cases b a s)
    as [(recs & H) | [(msg & x & H & Hs & Hin) | (msg & H & Ha)]].
  - rewrite (loop_body_success _ _ _ _ H). done.
  - rewrite (loop_body_named _ _ _ _ _ H Hs Hin). simpl.
    case_bool_decide as Hnil; [done|]. intros [= <- <- <-].
    split; [|split; [|split; [|split]]].
    + eapply extends_trans; [done|].
      eapply extends_trans; [apply extends_after_call|].
      apply extends_add_invalid.
    + simpl. intros y [->%elem_of_singleton|Hy]%elem_of_union; auto.
    + intros y Hy. simpl. destruct (Hcov y Hy) as [Hb|Hinv].
      * destruct (decide (y = x)) as [->|Hne]; [set_solver|].
        left. apply list_elem_of_filter. done.
      * set_solver.
    + intros y [_ Hy]%list_elem_of_filter. auto.
    + intros Hp0. simpl. rewrite H. apply paced_snoc_quiet; auto.
  - rewrite (loop_body_ambiguous _ _ _ _ H Ha). unfold CleanFasta.unclassified.
    case_bool_decide; [done|]. intros [= <- <- <-].
    split; [|split; [|split; [|split]]].
    + eapply extends_trans; [done|].
      eapply extends_trans; [apply extends_after_call|].
      apply extends_sleep.
    + simpl. done.
    + simpl. done.
    + done.
    + intros Hp0. simpl. rewrite H.
      apply paced_snoc_quiet; [|done].
      apply paced_snoc_quiet; auto.
Qed.

Lemma process_batch_post batch st :
  ∃ st', process_batch remote delay retries batch st = Some st'
         ∧ batch_post delay batch st st'.
Proof.
  unfold process_batch. case_bool_decide as Hnil.
  - exists st. split; [done|]. subst batch.
    split; [apply extends_refl|]. split; [auto|]. split; [|done].
    intros x Hx. inversion Hx.
  - apply (while_true_rule (turn_inv delay batch st)).
    + intros b a s st'. apply turn_inv_break.
    + intros b a s b' a' s'. apply turn_inv_continue.
    + unfold enough, turns_left. lia.
    + split; [apply extends_refl|]. repeat split; auto.
Qed.

Lemma for_batches_post batches st :
  ∃ st', for_batches remote delay retries batches st = Some st'
         ∧ batch_post delay (concat batches) st st'.
Proof.
  revert st. induction batches as [|batch rest IH]; intros st; simpl.
  - exists st. split; [done|].
    split; [apply extends_refl|]. split; [auto|]. split; [|done].
    intros x Hx. inversion Hx.
  - destruct (process_batch_post batch st) as (st1 & -> & H1).
    destruct (IH st1) as (st2 & -> & H2).
    exists st2. split; [done|]. by eapply batch_post_compose.
Qed.

End Facts.

(** *** Batches *)

Lemma elem_of_concat {A} (x : A) (ls : list (list A)) :
  x ∈ concat ls ↔ ∃ l, x ∈ l ∧ l ∈ ls.
Proof.
  induction ls as [|l ls IH]; simpl.
  - split; [intros H; inversion H | intros (l & _ & H); inversion H].
  - rewrite elem_of_app, IH. split.
    + intros [H | (l' & H1 & H2)].
      * exists l. split; [done|]. left.
      * exists l'. split; [done|]. by right.
    + intros (l' & H1 & [->|H2]%elem_of_cons); [by left|].
      right. eauto.
Qed.

Lemma chunker_zero l : chunker l 0 = Raise ValueError.
Proof. done. Qed.

Lemma chunker_ok l n :
  n ≠ 0 → ∃ batches, chunker l n = Ok batches
                     ∧ ∀ x, x ∈ concat batches → x ∈ l.
Proof.
  intros Hn. unfold chunker. rewrite bool_decide_eq_false_2 by done.
  case_bool_decide.
  - exists []. split; [done|]. intros x Hx. inversion Hx.
  - eexists. split; [done|].
    intros x (b & Hx & Hb)%elem_of_concat.
    apply list_elem_of_fmap in Hb as (i & -> & _).
    apply elem_of_take in Hx as (j & Hj & _).
    rewrite lookup_drop in Hj. by eapply list_elem_of_lookup_2.
Qed.

Lemma chunker_covers l n :
  0 < n → ∃ batches, chunker l n = Ok batches
                     ∧ ∀ x, x ∈ l → x ∈ concat batches.
Proof.
  intros Hn. unfold chunker.
  rewrite !bool_decide_eq_false_2 by lia.
  eexists. split; [done|].
  intros x (p & Hp)%list_elem_of_lookup_1.
  apply elem_of_concat.
  set (k := Z.to_nat n). assert (0 < k)%nat as Hk by lia.
  exists (take k (drop (p / k * k) l)). split.
  - apply elem_of_take. exists (p mod k)%nat. split.
    + rewrite lookup_drop. rewrite <- Hp. f_equal.
      pose proof (Nat.div_mod_eq p k). lia.
    + apply Nat.mod_upper_bound. lia.
  - apply list_elem_of_fmap. exists (p / k * k)%nat. split; [done|].
    unfold range_step. apply list_elem_of_fmap.
    exists (p / k)%nat. split; [done|].
    apply elem_of_seq. split; [lia|]. simpl.
    apply lookup_lt_Some in Hp.
    apply Nat.Div0.div_lt_upper_bound.
    pose proof (Nat.div_mod_eq (length l + k - 1) k).
    pose proof (Nat.mod_upper_bound (length l + k - 1) k).
    nia.
Qed.

End Loop.

(** ** The validator as a whole *)

Module Validator.
Import Entrez CleanFasta Design.

Lemma validate_run_post remote ids api_key delay retries batch_size :
  batch_size ≠ 0 →
  ∃ st, validate_run remote ids api_key delay retries batch_size
        = Some (Ok st)
        ∧ (∀ x, x ∈ invalid_ids st → x ∈ ids)
        ∧ paced_after_success (polite_delay api_key delay) (trace st)
        ∧ (0 < batch_size → ∀ x, x ∈ ids → resolved st x).
Proof.
  intros Hn. unfold validate_run.
  destruct (Loop.chunker_ok ids batch_size Hn) as (batches & Hc & Hsub).
  rewrite Hc.
  destruct (Loop.for_batches_post remote (polite_delay api_key delay)
              retries batches start) as (st & -> & He & Hi & Hr & Hp).
  exists st. split; [done|]. split; [|split].
  - intros x Hx. destruct (Hi x Hx) as [H|H]; [|auto].
    simpl in H. set_solver.
  - apply Hp. intros i e Hi'. simpl in Hi'. done.
  - intros Hpos x Hx. apply Hr.
    destruct (Loop.chunker_covers ids batch_size Hpos)
      as (batches' & Hc' & Hcov).
    rewrite Hc in Hc'. injection Hc' as <-. auto.
Qed.

(** The two batch sizes that are of no use: [range] refuses a zero step,
    and a negative step gives no batch, hence no call and no rejection. *)
Lemma zero_batch_size_is_refused remote ids api_key delay retries :
  validate_ids_with_entrez remote ids api_key delay retries 0
  = Some (Raise ValueError).
Proof. done. Qed.

Lemma negative_batch_size_checks_nothing
    remote ids api_key delay retries batch_size :
  batch_size < 0 →
  validate_run remote ids api_key delay retries batch_size = Some (Ok start).
Proof.
  intros Hn. unfold validate_run, chunker.
  rewrite bool_decide_eq_false_2 by lia.
  by rewrite bool_decide_eq_true_2 by lia.
Qed.

(** C1 (partition completeness). For every list of identifiers and
    every remote service, [validate_ids_with_entrez] returns a set
    [rejected] that is included in the input identifiers; with
    [accepted] the input set minus [rejected], the two are disjoint and
    their union is the deduplicated input set. The batch size is any
    integer [range] accepts as a step. *)
Theorem partition_completeness remote ids api_key delay retries batch_size :
  batch_size ≠ 0 →
  ∃ rejected : gset string,
    validate_ids_with_entrez remote ids api_key delay retries batch_size
    = Some (Ok rejected)
    ∧ rejected ⊆ list_to_set ids
    ∧ let accepted : gset string := list_to_set ids ∖ rejected in
      accepted ## rejected ∧ accepted ∪ rejected = list_to_set ids.
Proof.
  intros Hn. unfold validate_ids_with_entrez.
  destruct (validate_run_post remote ids api_key delay retries batch_size Hn)
    as (st & -> & Hsub & _).
  exists (invalid_ids st). split; [done|].
  assert (invalid_ids st ⊆ list_to_set ids) as Hs.
  { intros x Hx. apply elem_of_list_to_set. auto. }
  split; [done|]. simpl. split; [set_solver|].
  apply set_eq. intros x. rewrite elem_of_union, elem_of_difference.
  destruct (decide (x ∈ invalid_ids st)); set_solver.
Qed.

Lemma partition_completeness_witness :
  2 ≠ 0
  ∧ ∃ rejected : gset string,
      validate_ids_with_entrez Scenario.remote Scenario.ids None None 1 2
      = Some (Ok rejected)
      ∧ rejected ⊆ list_to_set Scenario.ids
      ∧ let accepted : gset string := list_to_set Scenario.ids ∖ rejected in
        accepted ## rejected
        ∧ accepted ∪ rejected = list_to_set Scenario.ids.
Proof.
  split; [lia|]. apply partition_completeness. lia.
Defined.

(** C5 (exhausted retries never abort the run). For every input and
    every remote service the run of the validator ends normally and every
    input identifier is resolved: rejected, or carried by a call that
    succeeded; and a turn whose failure is unclassified with the budget
    spent leaves the loop through the per-identifier fallback on the
    batch as it stands. No outcome of a remote call is raised. *)
Theorem exhausted_retries_never_abort
    remote ids api_key delay retries batch_size :
  0 < batch_size →
  (∃ st, validate_run remote ids api_key delay retries batch_size
         = Some (Ok st)
         ∧ ∀ x, x ∈ ids → resolved st x)
  ∧ ∀ (batch : list string) (attempt : nat) (st : state) msg,
      remote (calls st) (Py.join_comma batch) = Failure msg →
      ambiguous batch msg →
      Z.of_nat (S attempt) > retries →
      loop_body remote (polite_delay api_key delay) retries batch attempt st
      = Break (per_id_fallback remote (polite_delay api_key delay) batch
                 (after_call remote batch st)).
Proof.
  intros Hpos. split.
  - destruct (validate_run_post remote ids api_key delay retries batch_size)
      as (st & Hrun & _ & _ & Hres); [lia|].
    exists st. split; [done|]. by apply Hres.
  - intros batch attempt st msg Hf Ha Hgt.
    rewrite (Loop.loop_body_ambiguous _ _ _ _ _ _ _ Hf Ha).
    unfold unclassified. by rewrite bool_decide_eq_true_2.
Qed.

Lemma exhausted_retries_never_abort_witness :
  0 < 2
  ∧ (∃ st, validate_run Scenario.remote Scenario.ids None None 1 2
           = Some (Ok st)
           ∧ ∀ x, x ∈ Scenario.ids → resolved st x)
  ∧ ∀ (batch : list string) (attempt : nat) (st : state) msg,
      Scenario.remote (calls st) (Py.join_comma batch) = Failure msg →
      ambiguous batch msg →
      Z.of_nat (S attempt) > 1 →
      loop_body Scenario.remote (polite_delay None None) 1 batch attempt st
      = Break (per_id_fallback Scenario.remote (polite_delay None None) batch
                 (after_call Scenario.remote batch st)).
Proof.
  split; [lia|]. apply exhausted_retries_never_abort. lia.
Defined.

(** C7, as stated, fails on the scenario of the design document: the
    failed call on [A,B] is followed at once by the call on [A], the last
    failed call on [C,D] by the call on [C], and the retry waits 3
    seconds, not the configured 0.34. *)
Lemma rate_limit_counterexample :
  ∃ st, validate_run Scenario.remote Scenario.ids None None 1 2
        = Some (Ok st)
        ∧ trace st
          = [ WholeBatch ["A"; "B"] (Failure "Invalid uid B");
              WholeBatch ["A"] (Success []);
              Sleep (Seconds 34 100);
              WholeBatch ["C"; "D"] (Failure "HTTP Error 500");
              Sleep (whole_seconds 3);
              WholeBatch ["C"; "D"] (Failure "HTTP Error 500");
              PerId "C" (Success []);
              Sleep (Seconds 34 100);
              PerId "D" (Failure "HTTP Error 400") ]
        ∧ paced (polite_delay None None) (trace st) = false.
Proof.
  eexists. split; [vm_compute; reflexivity|]. split; vm_compute; reflexivity.
Qed.

(** C7, amended (rate limiting after every successful call). In every
    run of the validator the configured delay follows at once every
    remote call that succeeded, whole-batch or per-identifier. *)
Theorem delay_after_successful_calls
    remote ids api_key delay retries batch_size :
  batch_size ≠ 0 →
  ∃ st, validate_run remote ids api_key delay retries batch_size
        = Some (Ok st)
        ∧ paced_after_success (polite_delay api_key delay) (trace st).
Proof.
  intros Hn.
  destruct (validate_run_post remote ids api_key delay retries batch_size Hn)
    as (st & Hrun & _ & Hp & _).
  by exists st.
Qed.

Lemma delay_after_successful_calls_witness :
  2 ≠ 0
  ∧ ∃ st, validate_run Scenario.remote Scenario.ids None None 1 2
          = Some (Ok st)
          ∧ paced_after_success (polite_delay None None) (trace st).
Proof.
  split; [lia|]. apply delay_after_successful_calls. lia.
Defined.

End Validator.

(** ** One batch *)

Module Batch.
Import Entrez CleanFasta Design.

Lemma count_app p t1 t2 : count p (t1 ++ t2) = (count p t1 + count p t2)%nat.
Proof. unfold count. by rewrite filter_app, length_app. Qed.

Lemma count_cons p e t :
  count p (e :: t) = ((if p e then 1 else 0) + count p t)%nat.
Proof.
  unfold count. rewrite filter_cons.
  destruct (p e); case_decide; simpl; congruence.
Qed.

Section Facts.
Variable remote : service.
Variable delay : seconds.
Variable retries : Z.

Lemma fallback_events_whole n batch :
  whole_batch_calls (fallback_events remote delay n batch) = 0%nat.
Proof.
  unfold whole_batch_calls. revert n.
  induction batch as [|acc rest IH]; intros n; simpl; [done|].
  rewrite count_cons, count_app, IH. simpl.
  by destruct (failed (remote n acc)).
Qed.

Lemma fallback_events_per_id n batch :
  per_id_calls (fallback_events remote delay n batch) = length batch.
Proof.
  unfold per_id_calls. revert n.
  induction batch as [|acc rest IH]; intros n; simpl; [done|].
  rewrite count_cons, count_app, IH. simpl.
  by destruct (failed (remote n acc)).
Qed.

Lemma fallback_events_of acc n batch :
  count (is_per_id_of acc) (fallback_events remote delay n batch)
  = length (filter (λ x, x = acc) batch).
Proof.
  revert n. induction batch as [|x rest IH]; intros n; simpl; [done|].
  rewrite count_cons, count_app, IH, filter_cons. simpl.
  assert (count (is_per_id_of acc)
            (if failed (remote n x) then [] else [Sleep delay]) = 0%nat) as ->
    by by destruct (failed (remote n x)).
  case_bool_decide; case_decide; simpl; congruence.
Qed.

Lemma fallback_events_calls n batch :
  filter (λ e, is_call e = true) (fallback_events remote delay n batch)
  = imap (λ i acc, PerId acc (remote (n + i)%nat acc)) batch.
Proof.
  revert n. induction batch as [|x rest IH]; intros n; simpl; [done|].
  rewrite filter_cons_True by done. rewrite Nat.add_0_r. f_equal.
  rewrite filter_app, IH.
  assert (filter (λ e, is_call e = true)
            (if failed (remote n x) then [] else [Sleep delay]) = []) as ->
    by by destruct (failed (remote n x)).
  simpl. apply imap_ext. intros i y _. simpl. f_equal. f_equal. lia.
Qed.

Lemma NoDup_once (batch : list string) acc :
  NoDup batch → acc ∈ batch →
  length (filter (λ x, x = acc) batch) = 1%nat.
Proof.
  induction 1 as [|x l Hx Hnd IH]; intros Hin; [by inversion Hin|].
  rewrite filter_cons. case_decide as Heq.
  - subst x. simpl. f_equal.
    destruct (filter (λ x, x = acc) l) as [|y t] eqn:E; [done|].
    assert (y ∈ filter (λ x, x = acc) l) as [-> Hy]%list_elem_of_filter
      by (rewrite E; left).
    done.
  - apply IH. apply elem_of_cons in Hin as [->|]; done.
Qed.

(** A batch whose whole-batch calls all fail without naming a member:
    one call per unit of budget left, one more, then the fallback. *)
Lemma always_ambiguous_run (batch : list string) k :
  ∀ (attempt : nat) (st : state) fuel,
    Z.to_nat (retries - Z.of_nat attempt) = k →
    (k < fuel)%nat →
    (∀ n, (calls st ≤ n ≤ calls st + k)%nat →
          ∃ msg, remote n (Py.join_comma batch) = Failure msg
                 ∧ ambiguous batch msg) →
    ∃ mid pre,
      while_true remote delay retries fuel batch attempt st
      = Some (per_id_fallback remote delay batch mid)
      ∧ trace mid = trace st ++ pre
      ∧ calls mid = (calls st + k + 1)%nat
      ∧ invalid_ids mid = invalid_ids st
      ∧ whole_batch_calls pre = (k + 1)%nat
      ∧ per_id_calls pre = 0%nat.
Proof.
  induction k as [|k IH]; intros attempt st fuel Hk Hfuel Hamb;
    (destruct fuel as [|fuel]; [lia|]);
    destruct (Hamb (calls st)) as (msg & Hf & Ha); try lia; simpl;
    rewrite (Loop.loop_body_ambiguous _ _ _ _ _ _ _ Hf Ha);
    unfold unclassified.
  - rewrite bool_decide_eq_true_2 by lia.
    exists (after_call remote batch st), [WholeBatch batch (Failure msg)].
    simpl. rewrite Hf. repeat split; try done. lia.
  - rewrite bool_decide_eq_false_2 by lia.
    set (st2 := sleep (whole_seconds (3 * S attempt))
                  (after_call remote batch st)).
    destruct (IH (S attempt) st2 fuel) as (mid & pre & Hrun & Ht & Hc & Hi & Hw & Hp).
    + lia.
    + lia.
    + intros n Hn. apply Hamb. simpl in Hn. lia.
    + exists mid,
        ([WholeBatch batch (Failure msg);
          Sleep (whole_seconds (3 * S attempt))] ++ pre).
      split; [done|]. split.
      { rewrite Ht. simpl. rewrite Hf. by rewrite <- !app_assoc. }
      split; [simpl in Hc; lia|]. split; [by rewrite Hi|].
      unfold whole_batch_calls, per_id_calls in *.
      rewrite !count_app, Hw, Hp. done.
Qed.

End Facts.

(** C3 (bounded retries). For every non-empty batch whose whole-batch
    calls all fail without naming a member of it, under a retry limit
    [retries >= 0], the trace of the batch is [pre ++ post] where [pre]
    holds exactly [retries + 1] whole-batch calls and no individual call,
    and [post] is the per-identifier fallback, with no whole-batch
    call. *)
Theorem bounded_retries remote delay retries
    (batch : list string) (st : state) :
  0 ≤ retries →
  batch ≠ [] →
  (∀ n, (calls st ≤ n ≤ calls st + Z.to_nat retries)%nat →
        ∃ msg, remote n (Py.join_comma batch) = Failure msg
               ∧ ambiguous batch msg) →
  ∃ st' pre post,
    process_batch remote delay retries batch st = Some st'
    ∧ trace st' = trace st ++ pre ++ post
    ∧ Z.of_nat (whole_batch_calls pre) = retries + 1
    ∧ per_id_calls pre = 0%nat
    ∧ post = fallback_events remote delay
               (calls st + Z.to_nat retries + 1) batch
    ∧ whole_batch_calls post = 0%nat
    ∧ per_id_calls post = length batch.
Proof.
  intros Hr Hne Hamb. unfold process_batch.
  rewrite bool_decide_eq_false_2 by done.
  destruct (always_ambiguous_run remote delay retries batch
              (Z.to_nat retries) 0%nat st (enough retries batch))
    as (mid & pre & Hrun & Ht & Hc & Hi & Hw & Hp).
  - f_equal. lia.
  - unfold enough. lia.
  - done.
  - exists (per_id_fallback remote delay batch mid), pre,
      (fallback_events remote delay (calls mid) batch).
    split; [done|]. split.
    { rewrite Loop.per_id_fallback_trace, Ht. by rewrite <- app_assoc. }
    split; [lia|]. split; [done|]. split; [by rewrite Hc|].
    split; [apply fallback_events_whole | apply fallback_events_per_id].
Qed.

Lemma bounded_retries_witness :
  0 ≤ 1
  ∧ ["C"; "D"] ≠ []
  ∧ ∃ st' pre post,
      process_batch Scenario.opaque (Seconds 34 100) 1 ["C"; "D"] start = Some st'
      ∧ trace st' = trace start ++ pre ++ post
      ∧ Z.of_nat (whole_batch_calls pre) = 1 + 1
      ∧ per_id_calls pre = 0%nat
      ∧ post = fallback_events Scenario.opaque (Seconds 34 100)
                 (calls start + Z.to_nat 1 + 1) ["C"; "D"]
      ∧ whole_batch_calls post = 0%nat
      ∧ per_id_calls post = length ["C"; "D"].
Proof.
  split; [lia|]. split; [done|].
  apply bounded_retries; [lia | done |].
  intros n _. exists "HTTP Error 500". split; [reflexivity|].
  vm_compute. exact I.
Defined.

(** C4 (fallback correctness). When a turn enters the per-identifier
    fallback on a duplicate-free batch, the calls that follow are one
    individual call per identifier of the batch, in order, and no other;
    each identifier has exactly one; it belongs to the rejected set
    afterwards iff it did before or its individual call failed; so each
    has an outcome. *)
Theorem fallback_correctness remote delay retries
    (batch : list string) (attempt : nat) (st : state) msg :
  NoDup batch →
  remote (calls st) (Py.join_comma batch) = Failure msg →
  ambiguous batch msg →
  Z.of_nat (S attempt) > retries →
  let post := fallback_events remote delay (S (calls st)) batch in
  ∃ st',
    loop_body remote delay retries batch attempt st = Break st'
    ∧ trace st' = trace st ++ WholeBatch batch (Failure msg) :: post
    ∧ filter (λ e, is_call e = true) post
      = imap (λ i acc, PerId acc (remote (S (calls st) + i)%nat acc)) batch
    ∧ ∀ i acc, batch !! i = Some acc →
        count (is_per_id_of acc) post = 1%nat
        ∧ PerId acc (remote (S (calls st) + i)%nat acc) ∈ post
        ∧ (acc ∈ invalid_ids st'
           ↔ acc ∈ invalid_ids st
             ∨ failed (remote (S (calls st) + i)%nat acc) = true).
Proof.
  intros Hnd Hf Ha Hgt. cbv zeta.
  exists (per_id_fallback remote delay batch (after_call remote batch st)).
  split.
  { rewrite (Loop.loop_body_ambiguous _ _ _ _ _ _ _ Hf Ha).
    unfold unclassified. by rewrite bool_decide_eq_true_2. }
  split.
  { rewrite Loop.per_id_fallback_trace. simpl. rewrite Hf.
    by rewrite <- app_assoc. }
  pose proof (fallback_events_calls remote delay (S (calls st)) batch)
    as Hcalls.
  split; [done|].
  intros i acc Hi. split; [|split].
  - rewrite fallback_events_of.
    apply NoDup_once; [done|]. by eapply list_elem_of_lookup_2.
  - assert (PerId acc (remote (S (calls st) + i)%nat acc)
            ∈ filter (λ e, is_call e = true)
                (fallback_events remote delay (S (calls st)) batch)) as Hin.
    { rewrite Hcalls. apply elem_of_lookup_imap. by exists i, acc. }
    by apply list_elem_of_filter in Hin as [_ Hin].
  - rewrite Loop.per_id_fallback_invalid, Loop.individually_failed_lookup.
    simpl. split.
    + intros [H | (j & Hj & Hfail)]; [by left|]. right.
      by rewrite (NoDup_lookup _ _ _ _ Hnd Hi Hj).
    + intros [H | Hfail]; [by left|]. right. by exists i.
Qed.

Lemma fallback_correctness_witness :
  NoDup ["C"; "D"]
  ∧ let post := fallback_events Scenario.remote (Seconds 34 100) 1 ["C"; "D"] in
    ∃ st',
      loop_body Scenario.remote (Seconds 34 100) 1 ["C"; "D"] 1 start = Break st'
      ∧ trace st'
        = trace start
          ++ WholeBatch ["C"; "D"] (Failure "HTTP Error 500") :: post
      ∧ filter (λ e, is_call e = true) post
        = imap (λ i acc, PerId acc (Scenario.remote (1 + i)%nat acc))
            ["C"; "D"]
      ∧ ∀ i acc, ["C"; "D"] !! i = Some acc →
          count (is_per_id_of acc) post = 1%nat
          ∧ PerId acc (Scenario.remote (1 + i)%nat acc) ∈ post
          ∧ (acc ∈ invalid_ids st'
             ↔ acc ∈ invalid_ids start
               ∨ failed (Scenario.remote (1 + i)%nat acc) = true).
Proof.
  assert (NoDup ["C"; "D"]) as Hnd.
  { apply NoDup_cons. split; [|apply NoDup_singleton].
    intros H. apply list_elem_of_singleton in H. discriminate H. }
  split; [exact Hnd|].
  apply (fallback_correctness Scenario.remote (Seconds 34 100) 1 ["C"; "D"] 1
           start "HTTP Error 500" Hnd).
  - reflexivity.
  - vm_compute. exact I.
  - lia.
Defined.

(** C6 (stale single-identifier reports are treated as ambiguous). When
    a whole-batch call fails with a message that names an identifier [x]
    that is not in the batch, the turn is the one of an unclassified
    failure: the attempt counter is incremented, and either the same
    batch is retried after 3 x attempt seconds or, the budget spent, the
    fallback runs on the same batch; [x] is in the rejected set
    afterwards only if it was before. *)
Theorem stale_report_is_ambiguous remote delay retries
    (batch : list string) (attempt : nat) (st : state) msg x :
  remote (calls st) (Py.join_comma batch) = Failure msg →
  search_invalid_uid msg = Some x →
  x ∉ batch →
  let st1 := after_call remote batch st in
  let t := loop_body remote delay retries batch attempt st in
  t = unclassified remote delay retries batch attempt st1
  ∧ invalid_ids st1 = invalid_ids st
  ∧ (Z.of_nat (S attempt) ≤ retries →
     t = Continue batch (S attempt)
           (sleep (whole_seconds (3 * S attempt)) st1))
  ∧ (Z.of_nat (S attempt) > retries →
     t = Break (per_id_fallback remote delay batch st1))
  ∧ (x ∈ invalid_ids (state_of t) ↔ x ∈ invalid_ids st).
Proof.
  intros Hf Hs Hx st1 t.
  assert (ambiguous batch msg) as Ha by (unfold ambiguous; by rewrite Hs).
  assert (t = unclassified remote delay retries batch attempt st1) as Ht
    by apply (Loop.loop_body_ambiguous _ _ _ _ _ _ _ Hf Ha).
  split; [done|]. split; [done|]. rewrite Ht. unfold unclassified.
  split; [|split].
  - intros H. by rewrite bool_decide_eq_false_2 by lia.
  - intros H. by rewrite bool_decide_eq_true_2 by lia.
  - case_bool_decide; simpl; [|done].
    rewrite Loop.per_id_fallback_invalid, Loop.individually_failed_lookup.
    simpl. split; [|by left].
    intros [Hin | (i & Hi & _)]; [done|].
    exfalso. apply Hx. by eapply list_elem_of_lookup_2.
Qed.

Lemma stale_report_is_ambiguous_witness :
  Scenario.stale (calls start) (Py.join_comma ["C"; "D"])
  = Failure "Invalid uid Z"
  ∧ search_invalid_uid "Invalid uid Z" = Some "Z"
  ∧ ("Z" ∉ ["C"; "D"])
  ∧ let st1 := after_call Scenario.stale ["C"; "D"] start in
    let t := loop_body Scenario.stale (Seconds 34 100) 1 ["C"; "D"] 0 start in
    t = unclassified Scenario.stale (Seconds 34 100) 1 ["C"; "D"] 0 st1
    ∧ invalid_ids st1 = invalid_ids start
    ∧ (Z.of_nat 1 ≤ 1 →
       t = Continue ["C"; "D"] 1
             (sleep (whole_seconds (3 * 1)) st1))
    ∧ (Z.of_nat 1 > 1 →
       t = Break (per_id_fallback Scenario.stale (Seconds 34 100) ["C"; "D"] st1))
    ∧ ("Z" ∈ invalid_ids (state_of t) ↔ "Z" ∈ invalid_ids start).
Proof.
  assert ("Z" ∉ ["C"; "D"]) as Hz.
  { intros H. apply elem_of_cons in H as [H|H]; [discriminate H|].
    apply list_elem_of_singleton in H. discriminate H. }
  split; [reflexivity|]. split; [vm_compute; reflexivity|].
  split; [exact Hz|].
  apply (stale_report_is_ambiguous Scenario.stale (Seconds 34 100) 1 ["C"; "D"] 0
           start "Invalid uid Z" "Z");
    [reflexivity | vm_compute; reflexivity | exact Hz].
Defined.

(** *** Free reductions *)

Lemma reduced_empty (batch : list string) : reduced batch ∅ = batch.
Proof.
  unfold reduced. induction batch as [|x l IH]; [done|].
  rewrite filter_cons_True by set_solver. by rewrite IH.
Qed.

Lemma reduced_drop (batch : list string) removed x :
  filter (λ y, y ≠ x) (reduced batch removed)
  = reduced batch (removed ∪ {[x]}).
Proof.
  unfold reduced. rewrite list_filter_filter.
  apply list_filter_iff. intros y. set_solver.
Qed.

Lemma reduced_elem (batch : list string) removed x :
  x ∈ reduced batch removed ↔ (x ∉ removed) ∧ x ∈ batch.
Proof. unfold reduced. by rewrite list_elem_of_filter. Qed.

Section Reduction.
Variable remote : service.
Variable delay : seconds.
Variable retries : Z.
Variable bad : gset string.
Variable batch : list string.
Variable st : state.
Hypothesis Hnames : names_bad remote bad batch.

Lemma reduction_named b a s removed :
  b = reduced batch removed → b ≠ [] →
  removed ⊆ bad ∩ list_to_set batch →
  (∃ recs, remote (calls s) (Py.join_comma b) = Success recs
           ∧ removed = bad ∩ list_to_set batch
           ∧ loop_body remote delay retries b a s
             = Break (sleep delay (after_call remote b s)))
  ∨ (∃ msg x, remote (calls s) (Py.join_comma b) = Failure msg
              ∧ x ∈ b ∧ x ∈ bad ∧ (x ∉ removed)
              ∧ loop_body remote delay retries b a s
                = let st2 := add_invalid x (after_call remote b s) in
                  let b' := reduced batch (removed ∪ {[x]}) in
                  if bool_decide (b' = []) then Break st2
                  else Continue b' a st2).
Proof.
  intros Hb Hne Hsub. pose proof (Hnames (calls s) removed) as Hn.
  simpl in Hn. rewrite <- Hb in Hn. specialize (Hn Hne).
  destruct (remote (calls s) (Py.join_comma b)) as [recs|msg] eqn:E.
  - left. exists recs. split; [done|]. split.
    + apply set_eq. intros y. split; [by apply Hsub|].
      intros [Hy1 Hy2]%elem_of_intersection.
      apply elem_of_list_to_set in Hy2.
      destruct (decide (y ∈ removed)) as [|Hout]; [done|].
      exfalso. apply (Hn y); [|done]. rewrite Hb. by apply reduced_elem.
    + by apply (Loop.loop_body_success _ _ _ _ _ _ recs).
  - right. destruct Hn as (x & Hs & Hx & Hbad). exists msg, x.
    split; [done|]. split; [done|]. split; [done|]. split.
    + rewrite Hb in Hx. by apply reduced_elem in Hx as [? _].
    + rewrite (Loop.loop_body_named _ _ _ _ _ _ _ _ E Hs Hx). simpl.
      by rewrite Hb, reduced_drop.
Qed.

Lemma reduction_break b a s st' :
  reduction_inv delay bad batch st b a s →
  loop_body remote delay retries b a s = Break st' →
  reduction_post delay bad batch st st'.
Proof.
  intros (removed & new & Hsub & Hb & Hne & Hinv & Ht & Hw & Hp & Hsl).
  destruct (reduction_named b a s removed Hb Hne Hsub)
    as [(recs & Hr & Heq & ->) | (msg & x & Hr & Hx & Hbad & Hout & ->)].
  - intros [= <-].
    exists (new ++ [WholeBatch b (Success recs); Sleep delay]).
    split; [simpl; by rewrite Ht, Hr, <- !app_assoc|].
    unfold whole_batch_calls, per_id_calls in *.
    rewrite !count_app, Hw, Hp, <- Heq. simpl.
    split; [unfold count; simpl; lia|]. split; [done|]. split.
    + intros secs [Hin|Hin]%elem_of_app; [auto|].
      apply elem_of_cons in Hin as [Hin|Hin]; [done|].
      apply list_elem_of_singleton in Hin. congruence.
    + done.
  - simpl. case_bool_decide as Hnil; [|done]. intros [= <-].
    assert (removed ∪ {[x]} = bad ∩ list_to_set batch) as Heq.
    { apply set_eq. intros y. split.
      - intros [Hy|Hy%elem_of_singleton]%elem_of_union; [by apply Hsub|].
        subst y. apply elem_of_intersection. split; [done|].
        apply elem_of_list_to_set. rewrite Hb in Hx.
        by apply reduced_elem in Hx as [_ ?].
      - intros [Hy1 Hy2%elem_of_list_to_set]%elem_of_intersection.
        destruct (decide (y ∈ removed ∪ {[x]})) as [|Hn]; [done|].
        exfalso. assert (y ∈ reduced batch (removed ∪ {[x]})) as Hy
          by by apply reduced_elem.
        rewrite Hnil in Hy. inversion Hy. }
    exists (new ++ [WholeBatch b (Failure msg)]).
    split; [simpl; by rewrite Ht, Hr, <- !app_assoc|].
    unfold whole_batch_calls, per_id_calls in *.
    rewrite !count_app, Hw, Hp, <- Heq.
    rewrite size_union by set_solver. rewrite size_singleton.
    split; [unfold count; simpl; lia|]. split; [done|]. split.
    + intros secs [Hin|Hin]%elem_of_app; [auto|].
      apply list_elem_of_singleton in Hin. done.
    + simpl. rewrite Hinv. set_solver.
Qed.

Lemma reduction_continue b a s b' a' s' :
  reduction_inv delay bad batch st b a s →
  loop_body remote delay retries b a s = Continue b' a' s' →
  reduction_inv delay bad batch st b' a' s'.
Proof.
  intros (removed & new & Hsub & Hb & Hne & Hinv & Ht & Hw & Hp & Hsl).
  destruct (reduction_named b a s removed Hb Hne Hsub)
    as [(recs & Hr & Heq & ->) | (msg & x & Hr & Hx & Hbad & Hout & ->)];
    [done|].
  simpl. case_bool_decide as Hnil; [done|]. intros [= <- <- <-].
  exists (removed ∪ {[x]}), (new ++ [WholeBatch b (Failure msg)]).
  split.
  { intros y [Hy|Hy%elem_of_singleton]%elem_of_union; [by apply Hsub|].
    subst y. apply elem_of_intersection. split; [done|].
    apply elem_of_list_to_set. rewrite Hb in Hx.
    by apply reduced_elem in Hx as [_ ?]. }
  split; [done|]. split; [done|]. split; [simpl; rewrite Hinv; set_solver|].
  split; [simpl; by rewrite Ht, Hr, <- !app_assoc|].
  unfold whole_batch_calls, per_id_calls in *.
  rewrite !count_app, Hw, Hp.
  rewrite size_union by set_solver. rewrite size_singleton.
  split; [unfold count; simpl; lia|]. split; [done|].
  intros secs [Hin|Hin]%elem_of_app; [auto|].
  apply list_elem_of_singleton in Hin. done.
Qed.

Lemma reduction_run :
  batch ≠ [] →
  ∃ st' new,
    process_batch remote delay retries batch st = Some st'
    ∧ trace st' = trace st ++ new
    ∧ (whole_batch_calls new ≤ size (bad ∩ list_to_set batch) + 1)%nat
    ∧ per_id_calls new = 0%nat
    ∧ (∀ secs, Sleep secs ∈ new → secs = delay)
    ∧ invalid_ids st' = invalid_ids st ∪ (bad ∩ list_to_set batch).
Proof.
  intros Hne. unfold process_batch. rewrite bool_decide_eq_false_2 by done.
  destruct (Loop.while_true_rule remote delay retries
              (reduction_inv delay bad batch st)
              (reduction_post delay bad batch st)
              reduction_break reduction_continue
              (enough retries batch) batch 0 st)
    as (st' & Hrun & new & H).
  - unfold enough, turns_left. lia.
  - exists ∅, []. rewrite reduced_empty, app_nil_r.
    repeat split; try done; try set_solver.
  - by exists st', new.
Qed.

End Reduction.

(** C2 (free-reduction retries consume no retry budget). Take a
    non-empty batch and a set [bad] of identifiers such that the service
    fails on a reduced batch exactly by naming, with [Invalid uid X], one
    member [X] of [bad] still in it; let [k] be the number of identifiers
    of [bad] in the batch. Then, whatever the retry limit, the batch is
    resolved with at most [k + 1] whole-batch calls and no individual
    call, without any back-off wait, and exactly the [k] identifiers are
    rejected; and a turn that drops a named identifier hands the attempt
    counter on unchanged. *)
Theorem free_reduction remote delay retries (bad : gset string)
    (batch : list string) (st : state) :
  batch ≠ [] →
  names_bad remote bad batch →
  (∃ st' new,
     process_batch remote delay retries batch st = Some st'
     ∧ trace st' = trace st ++ new
     ∧ (whole_batch_calls new ≤ size (bad ∩ list_to_set batch) + 1)%nat
     ∧ per_id_calls new = 0%nat
     ∧ (∀ secs, Sleep secs ∈ new → secs = delay)
     ∧ invalid_ids st' = invalid_ids st ∪ (bad ∩ list_to_set batch))
  ∧ ∀ (b : list string) (a : nat) (s : state) msg x b' a' s',
      remote (calls s) (Py.join_comma b) = Failure msg →
      search_invalid_uid msg = Some x →
      x ∈ b →
      loop_body remote delay retries b a s = Continue b' a' s' →
      a' = a ∧ b' = filter (λ y, y ≠ x) b.
Proof.
  intros Hne Hnames. split; [by apply reduction_run|].
  intros b a s msg x b' a' s' Hf Hs Hx.
  rewrite (Loop.loop_body_named _ _ _ _ _ _ _ _ Hf Hs Hx). simpl.
  case_bool_decide; [done|]. by intros [= <- <- <-].
Qed.

Lemma naming_names_bad : names_bad Scenario.naming {["B"]} ["A"; "B"].
Proof.
  intros n removed. unfold reduced. cbv zeta.
  rewrite !filter_cons, filter_nil.
  destruct (decide ("A" ∉ removed)), (decide ("B" ∉ removed)); intros Hne.
  - exists "B". split; [vm_compute; reflexivity|]. set_solver.
  - intros x ->%list_elem_of_singleton. set_solver.
  - exists "B". split; [vm_compute; reflexivity|]. set_solver.
  - done.
Qed.

Lemma free_reduction_witness :
  ["A"; "B"] ≠ []
  ∧ names_bad Scenario.naming {["B"]} ["A"; "B"]
  ∧ (∃ st' new,
       process_batch Scenario.naming (Seconds 34 100) 0 ["A"; "B"] start = Some st'
       ∧ trace st' = trace start ++ new
       ∧ (whole_batch_calls new
          ≤ size ({["B"]} ∩ list_to_set ["A"; "B"] : gset string) + 1)%nat
       ∧ per_id_calls new = 0%nat
       ∧ (∀ secs, Sleep secs ∈ new → secs = Seconds 34 100)
       ∧ invalid_ids st'
         = invalid_ids start ∪ ({["B"]} ∩ list_to_set ["A"; "B"]))
    ∧ ∀ (b : list string) (a : nat) (s : state) msg x b' a' s',
        Scenario.naming (calls s) (Py.join_comma b) = Failure msg →
        search_invalid_uid msg = Some x →
        x ∈ b →
        loop_body Scenario.naming (Seconds 34 100) 0 b a s = Continue b' a' s' →
        a' = a ∧ b' = filter (λ y, y ≠ x) b.
Proof.
  split; [discriminate|]. split; [exact naming_names_bad|].
  apply free_reduction; [discriminate | exact naming_names_bad].
Defined.

End Batch.

(** ** Headers and the rewriter *)

Module Rewriter.
Import CleanFasta Design.

Lemma write_lines_app bad l1 l2 w :
  write_lines bad (l1 ++ l2) w
  = match write_lines bad l1 w with
    | (w', None) => write_lines bad l2 w'
    | stopped => stopped
    end.
Proof.
  revert w. induction l1 as [|line l1 IH]; intros w; simpl; [done|].
  destruct (write_line bad w line); [apply IH | done].
Qed.

(** Lines that are not headers follow the current decision. *)
Lemma write_lines_body bad body w :
  Forall (λ l, Py.startswith_gt l = false) body →
  write_lines bad body w
  = (Writer (fout w ++ if write_current w then body else [])
       (write_current w) (kept w) (skipped w), None).
Proof.
  intros Hb. revert w. induction Hb as [|line body Hl Hb IH]; intros w.
  - simpl. destruct w as [f c k sk]. simpl.
    destruct c; by rewrite app_nil_r.
  - simpl. unfold write_line. rewrite Hl.
    destruct (write_current w) eqn:Hc; rewrite IH; simpl; rewrite ?Hc.
    + by rewrite <- app_assoc.
    + done.
Qed.

(** One well-formed record: copied whole, or dropped whole. *)
Lemma write_lines_record bad r w :
  well_formed r →
  write_lines bad (record_lines r) w
  = if decide (retained bad r)
    then (Writer (fout w ++ record_lines r) true (S (kept w)) (skipped w),
          None)
    else (Writer (fout w) false (kept w) (S (skipped w)), None).
Proof.
  intros (Hh & Hb & acc & Hacc). unfold record_lines. simpl.
  unfold write_line. rewrite Hh, Hacc. simpl.
  case_bool_decide as Hin.
  - rewrite (write_lines_body _ _ _ Hb). simpl.
    rewrite decide_False; [by rewrite app_nil_r|].
    intros (acc' & Heq & Hn). congruence.
  - rewrite (write_lines_body _ _ _ Hb). simpl.
    rewrite decide_True by (by exists acc).
    by rewrite <- app_assoc.
Qed.

Lemma stream_cons r rs : stream (r :: rs) = record_lines r ++ stream rs.
Proof. done. Qed.

Lemma write_lines_stream bad rs w :
  Forall well_formed rs →
  ∃ c,
    write_lines bad (stream rs) w
    = (Writer (fout w ++ stream (filter (retained bad) rs)) c
         (kept w + length (filter (retained bad) rs))
         (skipped w + length (filter (λ r, ¬ retained bad r) rs)), None).
Proof.
  intros Hwf. revert w. induction Hwf as [|r rs Hr Hrs IH]; intros w.
  - exists (write_current w). destruct w. simpl.
    by rewrite app_nil_r, !Nat.add_0_r.
  - rewrite stream_cons, write_lines_app.
    rewrite (write_lines_record _ _ _ Hr). rewrite !filter_cons.
    destruct (decide (retained bad r)) as [Hk|Hk].
    + rewrite decide_False by tauto.
      destruct (IH (Writer (fout w ++ record_lines r) true
                      (S (kept w)) (skipped w))) as (c & ->).
      exists c. simpl. rewrite stream_cons, <- app_assoc.
      do 2 f_equal. lia.
    + rewrite decide_True by done.
      destruct (IH (Writer (fout w) false (kept w) (S (skipped w))))
        as (c & ->).
      exists c. simpl. do 2 f_equal. lia.
Qed.

(** What is already written does not matter to what follows. *)
Lemma write_lines_prefix bad fin pre f c k sk :
  write_lines bad fin (Writer (pre ++ f) c k sk)
  = let '(w, e) := write_lines bad fin (Writer f c k sk) in
    (Writer (pre ++ fout w) (write_current w) (kept w) (skipped w), e).
Proof.
  revert f c k sk. induction fin as [|line fin IH]; intros f c k sk.
  - done.
  - simpl. unfold write_line. simpl.
    destruct (Py.startswith_gt line).
    + destruct (extract_accession_from_header line) as [acc|e]; simpl;
        [|done].
      case_bool_decide; [apply IH|].
      rewrite <- app_assoc. apply IH.
    + destruct c; [|apply IH]. rewrite <- app_assoc. apply IH.
Qed.

(** C8, as stated, fails on a file with DOS line endings.  Both files
    are opened in text mode: the one record of the file is kept,
    nothing being rejected, but its header and its body lines are
    written with [\n] where the input has [\r\n], so that the output
    is not the input byte for byte. *)
Lemma byte_for_byte_counterexample :
  open_rt Scenario.dos_file = stream [Scenario.first_record]
  ∧ retained ∅ Scenario.first_record
  ∧ write_cleaned_fasta_files Scenario.dos_file ∅
    = (written (stream [Scenario.first_record]), None)
  ∧ written (stream [Scenario.first_record]) ≠ Scenario.dos_file.
Proof.
  split; [vm_compute; reflexivity|]. split.
  { exists "NP_000001.1". split; [vm_compute; reflexivity|].
    apply not_elem_of_empty. }
  split; [vm_compute; reflexivity|].
  intros H. apply (f_equal String.length) in H. vm_compute in H.
  discriminate H.
Qed.

(** C8, amended (rewriter fidelity over the lines read). For every
    stream of lines, as the iteration of the input in text mode yields
    them, that is made of records (a header line whose identifier is
    extracted, then lines that are not headers) and every rejected set,
    [write_cleaned_fasta] ends normally and has written exactly the
    lines of the records whose identifier is not rejected, each record
    whole, each line as the very string that was read, in the original
    order: a body line follows the decision made at the last header.
    It counts the records kept and removed. *)
Theorem rewriter_fidelity (rs : list fasta_record) (bad_ids : gset string) :
  Forall well_formed rs →
  ∃ w,
    write_cleaned_fasta (stream rs) bad_ids = (w, None)
    ∧ fout w = stream (filter (retained bad_ids) rs)
    ∧ kept w = length (filter (retained bad_ids) rs)
    ∧ skipped w = length (filter (λ r, ¬ retained bad_ids r) rs).
Proof.
  intros Hwf. unfold write_cleaned_fasta.
  destruct (write_lines_stream bad_ids rs (Writer [] true 0 0) Hwf)
    as (c & ->).
  eexists. split; [done|]. done.
Qed.

(** C10 (leading body lines are always kept). Lines that are not
    headers and come before the first header are all written, ahead of
    whatever the rest of the stream gives, for every rejected set; the
    rest is treated as if it were the whole stream. *)
Theorem leading_body_lines_kept (pre rest : list string)
    (bad_ids : gset string) :
  Forall (λ l, Py.startswith_gt l = false) pre →
  fout (write_cleaned_fasta (pre ++ rest) bad_ids).1
  = pre ++ fout (write_cleaned_fasta rest bad_ids).1
  ∧ (write_cleaned_fasta (pre ++ rest) bad_ids).2
    = (write_cleaned_fasta rest bad_ids).2.
Proof.
  intros Hpre. unfold write_cleaned_fasta.
  rewrite write_lines_app, (write_lines_body _ _ _ Hpre). simpl.
  pose proof (write_lines_prefix bad_ids rest pre [] true 0%nat 0%nat) as H.
  rewrite app_nil_r in H. rewrite H.
  by destruct (write_lines bad_ids rest (Writer [] true 0 0)).
Qed.

Lemma rewriter_fidelity_witness :
  Forall well_formed [Scenario.first_record; Scenario.second_record]
  ∧ ∃ w,
      write_cleaned_fasta
        (stream [Scenario.first_record; Scenario.second_record])
        {["NP_000001.1"]}
      = (w, None)
      ∧ fout w
        = stream (filter (retained {["NP_000001.1"]})
                    [Scenario.first_record; Scenario.second_record])
      ∧ kept w
        = length (filter (retained {["NP_000001.1"]})
                    [Scenario.first_record; Scenario.second_record])
      ∧ skipped w
        = length (filter (λ r, ¬ retained {["NP_000001.1"]} r)
                    [Scenario.first_record; Scenario.second_record]).
Proof.
  assert (Forall well_formed [Scenario.first_record; Scenario.second_record])
    as Hwf.
  { repeat apply Forall_cons_2; try apply Forall_nil_2;
      (split; [reflexivity|]; split;
       [repeat apply Forall_cons_2; try apply Forall_nil_2; reflexivity|]).
    - exists "NP_000001.1". vm_compute. reflexivity.
    - exists "sp|P12345". vm_compute. reflexivity. }
  split; [exact Hwf|]. apply rewriter_fidelity. exact Hwf.
Defined.

Lemma leading_body_lines_kept_witness :
  Forall (λ l, Py.startswith_gt l = false) [Scenario.stray]
  ∧ fout (write_cleaned_fasta
            ([Scenario.stray] ++ stream [Scenario.first_record])
            {["NP_000001.1"]}).1
    = [Scenario.stray]
      ++ fout (write_cleaned_fasta (stream [Scenario.first_record])
                 {["NP_000001.1"]}).1
  ∧ (write_cleaned_fasta
       ([Scenario.stray] ++ stream [Scenario.first_record])
       {["NP_000001.1"]}).2
    = (write_cleaned_fasta (stream [Scenario.first_record])
         {["NP_000001.1"]}).2.
Proof.
  assert (Forall (λ l, Py.startswith_gt l = false) [Scenario.stray]) as Hpre
    by (apply Forall_cons_2; [reflexivity | apply Forall_nil_2]).
  split; [exact Hpre|]. apply leading_body_lines_kept. exact Hpre.
Defined.

(** *** Headers without a token *)

(** Extraction only ever raises [IndexError], and so on a header. *)
Lemma extract_raises line e :
  extract_accession_from_header line = Raise e →
  e = IndexError ∧ Py.startswith_gt (Py.rstrip_nl line) = true.
Proof.
  unfold extract_accession_from_header.
  destruct (Py.startswith_gt (Py.rstrip_nl line)); simpl; [|done].
  destruct (Re.search_group _ _); [done|].
  destruct (Py.split _); simpl; [|done]. by intros [= <-].
Qed.

(** A header on which extraction raises stops the rewriter, wherever it
    stands in the stream. *)
Lemma write_lines_crash bad fin w line :
  line ∈ fin →
  Py.startswith_gt line = true →
  extract_accession_from_header line = Raise IndexError →
  (write_lines bad fin w).2 = Some IndexError.
Proof.
  intros Hin Hh He. revert w.
  induction fin as [|l fin IH]; intros w; [by inversion Hin|].
  simpl. destruct (write_line bad w l) as [w'|e] eqn:E.
  - apply IH. apply elem_of_cons in Hin as [->|]; [|done].
    unfold write_line in E. rewrite Hh, He in E. done.
  - simpl. f_equal. unfold write_line in E.
    destruct (Py.startswith_gt l).
    + destruct (extract_accession_from_header l) eqn:E'; simpl in E.
      * by case_bool_decide.
      * injection E as <-. by apply extract_raises in E' as [-> _].
    + by destruct (write_current w).
Qed.

(** The same header stops the scan of the headers. *)
Lemma collect_lines_crash fh accs headers line :
  line ∈ fh →
  Py.startswith_gt line = true →
  extract_accession_from_header line = Raise IndexError →
  collect_lines fh accs headers = Raise IndexError.
Proof.
  intros Hin Hh He. revert accs headers.
  induction fh as [|l fh IH]; intros accs headers; [by inversion Hin|].
  simpl. apply elem_of_cons in Hin as [<-|Hin].
  - by rewrite Hh, He.
  - destruct (Py.startswith_gt l); [|by apply IH].
    destruct (extract_accession_from_header l) eqn:E'; simpl.
    + by apply IH.
    + by apply extract_raises in E' as [-> _].
Qed.

(** C9 (header extraction is partial). The line [>\n] starts with the
    marker; its remainder holds no match of the identifier pattern and
    no token; [extract_accession_from_header] raises [IndexError] on it,
    and so do the header scan of [collect_accessions_from_fasta], the
    rewriter, whatever the rejected set, and the header scan of
    [load_accessions_from_fasta]. *)
Theorem header_extraction_partial :
  let line := Scenario.bare_header in
  Py.startswith_gt line = true
  ∧ Re.search_group accession_pat (Py.rstrip_nl line) = None
  ∧ Py.split (Py.strip (Py.tail (Py.rstrip_nl line))) = []
  ∧ extract_accession_from_header line = Raise IndexError
  ∧ collect_accessions_from_fasta [line] = Raise IndexError
  ∧ (∀ bad_ids,
       write_cleaned_fasta [line] bad_ids
       = (Writer [] true 0 0, Some IndexError))
  ∧ EntrezMetadata.load_accessions_from_fasta [[line]] = Raise IndexError.
Proof.
  cbv zeta. repeat split; try (vm_compute; reflexivity).
Qed.

End Rewriter.

(** ** The sibling loop of [entrez_metadata.py]

    [esummary_protein] is not the validator: it has no fallback and lets
    the last error out once the budget is spent.  It also increments the
    attempt counter before it classifies the failure, so that, unlike in
    the validator, dropping a named identifier uses up budget. *)

Module Sibling.
Import Entrez Design.

Lemma esummary_protein_reraises remote delay retries
    (batch : list string) (attempt : nat) st msg :
  remote (EntrezMetadata.calls st) (Py.join_comma batch) = Failure msg →
  ambiguous batch msg →
  Z.of_nat (S attempt) > retries →
  ∃ st', EntrezMetadata.loop_body remote delay retries batch attempt st
         = EntrezMetadata.Reraise msg st'.
Proof.
  intros Hf Ha Hgt. unfold EntrezMetadata.loop_body, ambiguous in *.
  rewrite Hf. rewrite bool_decide_eq_true_2 by done.
  destruct (search_invalid_uid msg); [|by eexists].
  rewrite bool_decide_eq_false_2 by done. by eexists.
Qed.

Lemma esummary_protein_counts_reduction remote delay retries
    (batch : list string) (attempt : nat) st msg x b' a' s' :
  remote (EntrezMetadata.calls st) (Py.join_comma batch) = Failure msg →
  search_invalid_uid msg = Some x →
  x ∈ batch →
  EntrezMetadata.loop_body remote delay retries batch attempt st
  = EntrezMetadata.Continue b' a' s' →
  a' = S attempt.
Proof.
  intros Hf Hs Hx. unfold EntrezMetadata.loop_body.
  rewrite Hf, Hs. rewrite bool_decide_eq_true_2 by done.
  case_bool_decide; [done|]. by intros [= <- <- <-].
Qed.

(** One named identifier and one time-out under a budget of one retry:
    the validator retries and finishes, [esummary_protein] raises. *)
Lemma reduction_spends_budget :
  EntrezMetadata.esummary_protein Scenario.flaky (Seconds 10 100) 1 ["A"; "B"; "C"]
  = Some (Raise (RemoteError "timed out"))
  ∧ ∃ st,
      CleanFasta.validate_run Scenario.flaky ["A"; "B"; "C"] None
        (Some (Seconds 10 100)) 1 400
      = Some (Ok st)
      ∧ trace st
        = [ WholeBatch ["A"; "B"; "C"] (Failure "Invalid uid A");
            WholeBatch ["B"; "C"] (Failure "timed out");
            Sleep (whole_seconds 3);
            WholeBatch ["B"; "C"] (Success ["summary"]);
            Sleep (Seconds 10 100) ]
      ∧ invalid_ids st = {["A"]}.
Proof.
  split; [vm_compute; reflexivity|].
  eexists. split; [vm_compute; reflexivity|].
  split; vm_compute; reflexivity.
Qed.

End Sibling.

(** ** Batches of identifiers *)

Module Chunking.
Import Entrez.

Lemma slices_concat (k : nat) (l : list string) :
  ∀ m, (length l ≤ m * k)%nat →
       concat ((λ j, take k (drop (j * k) l)) <$> seq 0 m) = l.
Proof.
  intros m. revert l. induction m as [|m IH]; intros l Hl.
  - simpl in *. destruct l; [done | simpl in Hl; lia].
  - simpl. rewrite <- fmap_S_seq, <- list_fmap_compose.
    transitivity (take k l ++ drop k l); [|apply take_drop]. f_equal.
    etrans; [|apply (IH (drop k l)); rewrite length_drop; lia].
    f_equal. apply list_fmap_ext. intros i j _. simpl.
    rewrite drop_drop. do 2 f_equal; lia.
Qed.

Lemma ceil_covers (len k : nat) :
  (0 < k)%nat → (len ≤ (len + k - 1) / k * k)%nat.
Proof.
  intros Hk. pose proof (Nat.div_mod_eq (len + k - 1) k).
  pose proof (Nat.mod_upper_bound (len + k - 1) k). nia.
Qed.

Lemma ceil_tight (len k j : nat) :
  (0 < k)%nat → (j < (len + k - 1) / k)%nat → (j * k < len)%nat.
Proof.
  intros Hk Hj. pose proof (Nat.div_mod_eq (len + k - 1) k).
  pose proof (Nat.mod_upper_bound (len + k - 1) k). nia.
Qed.

(** [chunker] cuts the list into consecutive slices: put end to end
    they give the list back. *)
Theorem chunker_concat (l : list string) (n : Z) :
  0 < n →
  ∃ batches, chunker l n = Ok batches ∧ concat batches = l.
Proof.
  intros Hn. unfold chunker. rewrite !bool_decide_eq_false_2 by lia.
  eexists. split; [done|]. unfold range_step.
  rewrite <- list_fmap_compose.
  apply (slices_concat (Z.to_nat n) l). apply ceil_covers. lia.
Qed.

Lemma chunker_concat_witness :
  0 < 2
  ∧ ∃ batches, chunker ["A"; "B"; "C"; "D"; "E"] 2 = Ok batches
               ∧ concat batches = ["A"; "B"; "C"; "D"; "E"].
Proof. split; [lia|]. apply chunker_concat. lia. Defined.

Lemma chunker_shape (l : list string) (n : Z) :
  0 < n →
  ∃ batches,
    chunker l n = Ok batches
    ∧ length batches = ((length l + Z.to_nat n - 1) / Z.to_nat n)%nat
    ∧ (∀ j b, batches !! j = Some b →
         b ≠ [] ∧ (length b ≤ Z.to_nat n)%nat ∧ b `sublist_of` l
         ∧ ((S j < length batches)%nat → length b = Z.to_nat n)).
Proof.
  intros Hn. unfold chunker. rewrite !bool_decide_eq_false_2 by lia.
  set (k := Z.to_nat n). assert (0 < k)%nat as Hk by lia.
  eexists. split; [done|]. unfold range_step.
  rewrite !length_fmap, length_seq. split; [done|].
  intros j b Hb.
  rewrite !list_lookup_fmap in Hb.
  destruct (seq 0 ((length l + k - 1) / k) !! j) as [i|] eqn:Hi;
    [|done].
  simpl in Hb. injection Hb as <-.
  apply lookup_seq in Hi as [-> Hj]. simpl.
  pose proof (ceil_tight (length l) k j Hk Hj) as Hlt.
  assert (length (take k (drop (j * k) l))
          = min k (length l - j * k)) as Hlen
    by (by rewrite length_take, length_drop).
  split; [|split; [|split]].
  - intros Hnil. rewrite Hnil in Hlen. simpl in Hlen. lia.
  - lia.
  - etrans; [apply sublist_take | apply sublist_drop].
  - intros Hlast. rewrite Hlen.
    pose proof (ceil_tight (length l) k (S j) Hk Hlast). lia.
Qed.

(** No slice is empty or longer than [n]; all but the last have exactly
    [n] elements; there are [ceil (length l / n)] of them. *)
Theorem chunker_sizes (l : list string) (n : Z) :
  0 < n →
  ∃ batches,
    chunker l n = Ok batches
    ∧ length batches = ((length l + Z.to_nat n - 1) / Z.to_nat n)%nat
    ∧ (∀ j b, batches !! j = Some b →
         b ≠ [] ∧ (length b ≤ Z.to_nat n)%nat ∧ b `sublist_of` l
         ∧ ((S j < length batches)%nat → length b = Z.to_nat n)).
Proof.
  intros Hn. destruct (chunker_shape l n Hn) as (batches & Hc & Hlen & Hb).
  exists batches. split; [done|]. split; [done|]. exact Hb.
Qed.

Lemma chunker_sizes_witness :
  0 < 2
  ∧ ∃ batches,
      chunker ["A"; "B"; "C"; "D"; "E"] 2 = Ok batches
      ∧ length batches
        = ((length ["A"; "B"; "C"; "D"; "E"] + Z.to_nat 2 - 1)
           / Z.to_nat 2)%nat
      ∧ (∀ j b, batches !! j = Some b →
           b ≠ [] ∧ (length b ≤ Z.to_nat 2)%nat
           ∧ b `sublist_of` ["A"; "B"; "C"; "D"; "E"]
           ∧ ((S j < length batches)%nat → length b = Z.to_nat 2)).
Proof. split; [lia|]. apply chunker_sizes. lia. Defined.

End Chunking.

(** ** What the validator asks and why it rejects *)

Module Audit.
Import Entrez CleanFasta Design.

Lemma count_nil p : count p [] = 0%nat.
Proof. done. Qed.

Lemma evidence_app_l t t' x : evidence t x → evidence (t ++ t') x.
Proof.
  intros [(b & msg & H & Hs & Hx) | (msg & H)].
  - left. exists b, msg. rewrite elem_of_app. auto.
  - right. exists msg. rewrite elem_of_app. auto.
Qed.

Lemma evidence_app_r t t' x : evidence t' x → evidence (t ++ t') x.
Proof.
  intros [(b & msg & H & Hs & Hx) | (msg & H)].
  - left. exists b, msg. rewrite elem_of_app. auto.
  - right. exists msg. rewrite elem_of_app. auto.
Qed.

Lemma asks_within_mono n n' batch batch' e :
  (n ≤ n')%nat →
  batch `sublist_of` batch' →
  asks_within n batch e → asks_within n' batch' e.
Proof.
  intros Hn Hsub. destruct e as [b o|acc o|secs]; simpl; [| |done].
  - intros (Hne & Hb & Hlen). repeat split; [done|by etrans|lia].
  - intros Hin. by eapply elem_of_sublist.
Qed.

Section Facts.
Variable remote : service.
Variable delay : seconds.
Variable retries : Z.

Lemma fallback_events_within n batch0 k b :
  (∀ x, x ∈ b → x ∈ batch0) →
  Forall (asks_within n batch0) (fallback_events remote delay k b).
Proof.
  revert k. induction b as [|acc rest IH]; intros k Hsub; simpl; [done|].
  apply Forall_cons_2; [simpl; apply Hsub; left|].
  apply Forall_app_2.
  - destruct (failed (remote k acc)); [done|]. by apply Forall_singleton.
  - apply IH. intros x Hx. apply Hsub. by right.
Qed.

Lemma individually_failed_evidence k b x :
  x ∈ individually_failed remote k b →
  ∃ msg, PerId x (Failure msg) ∈ fallback_events remote delay k b.
Proof.
  revert k. induction b as [|acc rest IH]; intros k; simpl;
    [by intros H; inversion H|].
  intros [H|H]%elem_of_app.
  - destruct (remote k acc) as [recs|msg] eqn:E; simpl in H;
      [by inversion H|].
    apply list_elem_of_singleton in H as ->. exists msg. left.
  - destruct (IH _ H) as (msg & Hin). exists msg. right.
    rewrite elem_of_app. by right.
Qed.

Lemma turns_left_pos (b : list string) (a : nat) :
  b ≠ [] → (1 ≤ turns_left retries b a)%nat.
Proof. unfold turns_left. destruct b; [done|simpl; lia]. Qed.

Lemma audit_break batch0 st0 b a s st' :
  audit_inv retries batch0 st0 b a s →
  loop_body remote delay retries b a s = Break st' →
  audit_post retries batch0 st0 st'.
Proof.
  intros (Hne & Hsub & new & Ht & Hask & Hev & Hp & Hw).
  pose proof (turns_left_pos b a Hne) as Hpos.
  pose proof (sublist_length _ _ Hsub) as Hlen.
  assert (asks_within (length batch0) batch0
            (WholeBatch b (remote (calls s) (Py.join_comma b)))) as Hcall
    by done.
  unfold whole_batch_calls, per_id_calls in *.
  destruct (Loop.loop_body_cases remote b a s)
    as [(recs & H) | [(msg & x & H & Hs & Hin) | (msg & H & Ha)]].
  - rewrite (Loop.loop_body_success _ _ _ _ _ _ _ H). intros [= <-].
    exists (new ++ [WholeBatch b (remote (calls s) (Py.join_comma b));
                    Sleep delay]).
    split; [simpl; by rewrite Ht, <- !app_assoc|]. split; [|split; [|split]].
    + apply Forall_app_2; [done|]. by repeat apply Forall_cons_2.
    + simpl. intros y Hy. destruct (Hev y Hy); [auto|].
      right. by apply evidence_app_l.
    + unfold whole_batch_calls, per_id_calls.
      rewrite Batch.count_app, !Batch.count_cons. simpl.
      rewrite count_nil. unfold turns_left in *. lia.
    + unfold whole_batch_calls, per_id_calls.
      rewrite Batch.count_app, !Batch.count_cons, Hp, count_nil.
      simpl. lia.
  - rewrite (Loop.loop_body_named _ _ _ _ _ _ _ _ H Hs Hin). simpl.
    case_bool_decide as Hnil; [|done]. intros [= <-].
    exists (new ++ [WholeBatch b (Failure msg)]).
    split; [simpl; by rewrite Ht, H, <- !app_assoc|].
    split; [|split; [|split]].
    + apply Forall_app_2; [done|]. apply Forall_singleton. by rewrite <- H.
    + simpl. intros y [->%elem_of_singleton|Hy]%elem_of_union.
      * right. apply evidence_app_r. left. exists b, msg.
        split; [left|done].
      * destruct (Hev y Hy); [auto|]. right. by apply evidence_app_l.
    + unfold whole_batch_calls, per_id_calls.
      rewrite Batch.count_app, !Batch.count_cons. simpl.
      rewrite count_nil. unfold turns_left in *. lia.
    + unfold whole_batch_calls, per_id_calls.
      rewrite Batch.count_app, !Batch.count_cons, Hp, count_nil.
      simpl. lia.
  - rewrite (Loop.loop_body_ambiguous _ _ _ _ _ _ _ H Ha).
    unfold unclassified. case_bool_decide; [|done]. intros [= <-].
    exists (new ++ WholeBatch b (Failure msg)
                :: fallback_events remote delay (S (calls s)) b).
    split.
    { rewrite Loop.per_id_fallback_trace. simpl.
      by rewrite Ht, H, <- !app_assoc. }
    split; [|split; [|split]].
    + apply Forall_app_2; [done|]. apply Forall_cons_2; [by rewrite <- H|].
      apply fallback_events_within. intros y Hy.
      by eapply elem_of_sublist.
    + intros y Hy. apply Loop.per_id_fallback_invalid in Hy as [Hy|Hy].
      * simpl in Hy. destruct (Hev y Hy); [auto|].
        right. by apply evidence_app_l.
      * right. apply evidence_app_r.
        destruct (individually_failed_evidence _ _ _ Hy) as (m & Hm).
        right. exists m. by right.
    + unfold whole_batch_calls, per_id_calls.
      rewrite Batch.count_app, Batch.count_cons. simpl.
      pose proof (Batch.fallback_events_whole remote delay (S (calls s)) b)
        as Hfw. unfold whole_batch_calls in Hfw. rewrite Hfw.
      unfold turns_left in *. lia.
    + unfold whole_batch_calls, per_id_calls.
      rewrite Batch.count_app, Batch.count_cons, Hp. simpl.
      pose proof (Batch.fallback_events_per_id remote delay (S (calls s)) b)
        as Hfp. unfold per_id_calls in Hfp. rewrite Hfp. lia.
Qed.

Lemma audit_continue batch0 st0 b a s b' a' s' :
  audit_inv retries batch0 st0 b a s →
  loop_body remote delay retries b a s = Continue b' a' s' →
  audit_inv retries batch0 st0 b' a' s'.
Proof.
  intros (Hne & Hsub & new & Ht & Hask & Hev & Hp & Hw).
  pose proof (sublist_length _ _ Hsub) as Hlen.
  assert (asks_within (length batch0) batch0
            (WholeBatch b (remote (calls s) (Py.join_comma b)))) as Hcall
    by done.
  intros Hbody. pose proof (Loop.loop_body_decreases _ _ _ _ _ _ _ _ _ Hbody)
    as Hdec. revert Hbody.
  unfold whole_batch_calls, per_id_calls in *.
  destruct (Loop.loop_body_cases remote b a s)
    as [(recs & H) | [(msg & x & H & Hs & Hin) | (msg & H & Ha)]].
  - by rewrite (Loop.loop_body_success _ _ _ _ _ _ _ H).
  - rewrite (Loop.loop_body_named _ _ _ _ _ _ _ _ H Hs Hin). simpl.
    case_bool_decide as Hnil; [done|]. intros [= <- <- <-].
    split; [done|]. split; [by etrans; [apply sublist_filter|]|].
    exists (new ++ [WholeBatch b (Failure msg)]).
    split; [simpl; by rewrite Ht, H, <- !app_assoc|].
    split; [|split; [|split]].
    + apply Forall_app_2; [done|]. apply Forall_singleton. by rewrite <- H.
    + simpl. intros y [->%elem_of_singleton|Hy]%elem_of_union.
      * right. apply evidence_app_r. left. exists b, msg.
        split; [left|done].
      * destruct (Hev y Hy); [auto|]. right. by apply evidence_app_l.
    + unfold whole_batch_calls, per_id_calls.
      rewrite Batch.count_app, Batch.count_cons, Hp. done.
    + unfold whole_batch_calls, per_id_calls.
      rewrite Batch.count_app, Batch.count_cons. simpl.
      rewrite count_nil. unfold turns_left in *. lia.
  - rewrite (Loop.loop_body_ambiguous _ _ _ _ _ _ _ H Ha).
    unfold unclassified. case_bool_decide; [done|]. intros [= <- <- <-].
    split; [done|]. split; [done|].
    exists (new ++ [WholeBatch b (Failure msg);
                    Sleep (whole_seconds (3 * S a))]).
    split; [simpl; by rewrite Ht, H, <- !app_assoc|].
    split; [|split; [|split]].
    + apply Forall_app_2; [done|].
      apply Forall_cons_2; [by rewrite <- H|]. by apply Forall_singleton.
    + simpl. intros y Hy. destruct (Hev y Hy); [auto|].
      right. by apply evidence_app_l.
    + unfold whole_batch_calls, per_id_calls.
      rewrite Batch.count_app, !Batch.count_cons, Hp. done.
    + unfold whole_batch_calls, per_id_calls.
      rewrite Batch.count_app, !Batch.count_cons. simpl.
      rewrite count_nil. unfold turns_left in *. lia.
Qed.

Lemma process_batch_audit (batch : list string) (st : state) :
  batch ≠ [] →
  ∃ st', process_batch remote delay retries batch st = Some st'
         ∧ audit_post retries batch st st'.
Proof.
  intros Hne. unfold process_batch. rewrite bool_decide_eq_false_2 by done.
  apply (Loop.while_true_rule remote delay retries
           (audit_inv retries batch st) (audit_post retries batch st)).
  - intros b a s st'. apply audit_break.
  - intros b a s b' a' s'. apply audit_continue.
  - unfold enough, turns_left. lia.
  - split; [done|]. split; [done|]. exists [].
    rewrite app_nil_r. repeat split; try done. intros x Hx. by left.
Qed.

Lemma audited_refl n batch st : audited n batch st st.
Proof.
  exists []. rewrite app_nil_r. split; [done|]. split; [done|]. auto.
Qed.

Lemma audited_trans n batch st1 st2 st3 :
  audited n batch st1 st2 → audited n batch st2 st3 →
  audited n batch st1 st3.
Proof.
  intros (n1 & Ht1 & Ha1 & He1) (n2 & Ht2 & Ha2 & He2).
  exists (n1 ++ n2). split; [by rewrite Ht2, Ht1, app_assoc|].
  split; [by apply Forall_app_2|].
  intros x Hx. destruct (He2 x Hx) as [H|H].
  - destruct (He1 x H); [auto|]. right. by apply evidence_app_l.
  - right. by apply evidence_app_r.
Qed.

Lemma for_batches_audit n ids batches st :
  Forall (λ b, b ≠ [] ∧ (length b ≤ n)%nat ∧ b `sublist_of` ids) batches →
  ∃ st', for_batches remote delay retries batches st = Some st'
         ∧ audited n ids st st'.
Proof.
  intros Hall. revert st.
  induction Hall as [|b rest (Hne & Hlen & Hsub) Hrest IH]; intros st.
  - exists st. split; [done|]. apply audited_refl.
  - simpl. destruct (process_batch_audit b st Hne)
      as (st1 & -> & new & Ht & Hask & Hev & _).
    destruct (IH st1) as (st2 & -> & Haud). exists st2. split; [done|].
    eapply audited_trans; [|done]. exists new. split; [done|].
    split; [|done]. eapply Forall_impl; [done|].
    intros e. by apply asks_within_mono.
Qed.

End Facts.

Lemma validate_run_audit remote ids api_key delay retries batch_size :
  0 < batch_size →
  ∃ st, validate_run remote ids api_key delay retries batch_size
        = Some (Ok st)
        ∧ audited (Z.to_nat batch_size) ids start st.
Proof.
  intros Hn. unfold validate_run.
  destruct (Chunking.chunker_shape ids batch_size Hn)
    as (batches & -> & _ & Hb).
  destruct (for_batches_audit remote (polite_delay api_key delay) retries
              (Z.to_nat batch_size) ids batches start)
    as (st & -> & Haud).
  - apply Forall_lookup_2. intros j b Hj.
    destruct (Hb j b Hj) as (? & ? & ? & _). done.
  - by exists st.
Qed.

(** Whatever the service answers, a batch of [N] identifiers costs at
    most [N + max 0 retries] whole-batch calls and at most [N] individual
    calls. *)
Theorem batch_call_bound remote delay retries
    (batch : list string) (st : state) :
  batch ≠ [] →
  ∃ st' new,
    process_batch remote delay retries batch st = Some st'
    ∧ trace st' = trace st ++ new
    ∧ (whole_batch_calls new ≤ length batch + Z.to_nat retries)%nat
    ∧ (per_id_calls new ≤ length batch)%nat.
Proof.
  intros Hne.
  destruct (process_batch_audit remote delay retries batch st Hne)
    as (st' & Hrun & new & Ht & _ & _ & Hw & Hp).
  by exists st', new.
Qed.

Lemma batch_call_bound_witness :
  ["C"; "D"] ≠ []
  ∧ ∃ st' new,
      process_batch Scenario.remote (Seconds 34 100) 1 ["C"; "D"] start
      = Some st'
      ∧ trace st' = trace start ++ new
      ∧ (whole_batch_calls new ≤ length ["C"; "D"] + Z.to_nat 1)%nat
      ∧ (per_id_calls new ≤ length ["C"; "D"])%nat.
Proof. split; [done|]. by apply batch_call_bound. Defined.

(** The validator never asks the service about anything but input
    identifiers: every whole-batch call carries a non-empty run of at
    most [batch_size] of them, in input order, and every individual call
    carries one of them. *)
Theorem requests_within_input remote ids api_key delay retries batch_size :
  0 < batch_size →
  ∃ st, validate_run remote ids api_key delay retries batch_size
        = Some (Ok st)
        ∧ Forall (asks_within (Z.to_nat batch_size) ids) (trace st).
Proof.
  intros Hn.
  destruct (validate_run_audit remote ids api_key delay retries batch_size Hn)
    as (st & Hrun & new & Ht & Hask & _).
  exists st. split; [done|]. by rewrite Ht.
Qed.

Lemma requests_within_input_witness :
  0 < 2
  ∧ ∃ st, validate_run Scenario.remote Scenario.ids None None 1 2
          = Some (Ok st)
          ∧ Forall (asks_within (Z.to_nat 2) Scenario.ids) (trace st).
Proof. split; [lia|]. apply requests_within_input. lia. Defined.

(** No identifier is rejected without a failure against it: a failed
    whole-batch call that carried it and named it, or its own failed
    individual call.  So one bad identifier never takes its batch with
    it. *)
Theorem rejection_has_evidence
    remote ids api_key delay retries batch_size :
  0 < batch_size →
  ∃ st, validate_run remote ids api_key delay retries batch_size
        = Some (Ok st)
        ∧ ∀ x, x ∈ invalid_ids st → evidence (trace st) x.
Proof.
  intros Hn.
  destruct (validate_run_audit remote ids api_key delay retries batch_size Hn)
    as (st & Hrun & new & Ht & _ & Hev).
  exists st. split; [done|]. intros x Hx.
  destruct (Hev x Hx) as [H|H]; [by apply not_elem_of_empty in H|].
  rewrite Ht. by apply evidence_app_r.
Qed.

Lemma rejection_has_evidence_witness :
  0 < 2
  ∧ ∃ st, validate_run Scenario.remote Scenario.ids None None 1 2
          = Some (Ok st)
          ∧ ∀ x, x ∈ invalid_ids st → evidence (trace st) x.
Proof. split; [lia|]. apply rejection_has_evidence. lia. Defined.

Section Quiet.
Variable remote : service.
Variable delay : seconds.
Variable retries : Z.
Hypothesis Hquiet : ∀ n id, failed (remote n id) = false.

Lemma quiet_batch (batch : list string) (st : state) :
  batch ≠ [] →
  process_batch remote delay retries batch st
  = Some (State (S (calls st))
            (trace st
             ++ [WholeBatch batch (remote (calls st) (Py.join_comma batch));
                 Sleep delay])
            (invalid_ids st)).
Proof.
  intros Hne. unfold process_batch. rewrite bool_decide_eq_false_2 by done.
  unfold enough. cbn [while_true].
  destruct (remote (calls st) (Py.join_comma batch)) as [recs|msg] eqn:E.
  - rewrite (Loop.loop_body_success _ _ _ _ _ _ _ E).
    unfold after_call, request, sleep. simpl.
    by rewrite E, <- app_assoc.
  - pose proof (Hquiet (calls st) (Py.join_comma batch)) as H.
    by rewrite E in H.
Qed.

Lemma quiet_batches (batches : list (list string)) (st : state) :
  Forall (λ b, b ≠ []) batches →
  for_batches remote delay retries batches st
  = Some (State (calls st + length batches)
            (trace st
             ++ concat (imap (λ i b,
                  [WholeBatch b (remote (calls st + i)%nat (Py.join_comma b));
                   Sleep delay]) batches))
            (invalid_ids st)).
Proof.
  intros Hall. revert st. induction Hall as [|b rest Hne Hrest IH]; intros st.
  - simpl. destruct st. simpl. by rewrite Nat.add_0_r, app_nil_r.
  - simpl. rewrite (quiet_batch b st Hne), IH. simpl.
    rewrite Nat.add_0_r, <- !app_assoc. do 2 f_equal; [lia|].
    simpl. do 4 f_equal. apply imap_ext. intros i x _. simpl.
    do 3 f_equal. lia.
Qed.

End Quiet.

(** When the service never fails, the validator makes exactly one call
    per batch, each followed by the delay, makes no retry and no
    individual call, and rejects nothing. *)
Theorem quiet_service_one_call_per_batch
    remote ids api_key delay retries batch_size :
  0 < batch_size →
  (∀ n id, failed (remote n id) = false) →
  ∃ st batches,
    chunker ids batch_size = Ok batches
    ∧ validate_run remote ids api_key delay retries batch_size
      = Some (Ok st)
    ∧ invalid_ids st = ∅
    ∧ calls st = length batches
    ∧ trace st
      = concat (imap (λ i b,
          [WholeBatch b (remote i (Py.join_comma b));
           Sleep (polite_delay api_key delay)]) batches).
Proof.
  intros Hn Hquiet. unfold validate_run.
  destruct (Chunking.chunker_shape ids batch_size Hn)
    as (batches & Hc & _ & Hb).
  rewrite Hc. rewrite (quiet_batches remote _ retries Hquiet batches start).
  - eexists _, batches. split; [done|]. split; [done|]. done.
  - apply Forall_lookup_2. intros j b Hj.
    destruct (Hb j b Hj) as (? & _). done.
Qed.

Lemma quiet_service_one_call_per_batch_witness :
  0 < 2
  ∧ (∀ n id, failed (Scenario.quiet n id) = false)
  ∧ ∃ st batches,
      chunker Scenario.ids 2 = Ok batches
      ∧ validate_run Scenario.quiet Scenario.ids None None 1 2
        = Some (Ok st)
      ∧ invalid_ids st = ∅
      ∧ calls st = length batches
      ∧ trace st
        = concat (imap (λ i b,
            [WholeBatch b (Scenario.quiet i (Py.join_comma b));
             Sleep (polite_delay None None)]) batches).
Proof.
  split; [lia|]. split; [done|].
  apply quiet_service_one_call_per_batch; [lia | done].
Defined.

End Audit.

(** ** More on the rewriter *)

Module Rewriting.
Import CleanFasta Design.

Lemma headers_cons line fin :
  headers (line :: fin)
  = if Py.startswith_gt line then line :: headers fin else headers fin.
Proof.
  unfold headers. rewrite filter_cons.
  destruct (Py.startswith_gt line); by case_decide.
Qed.

(** What a pass over [fin] adds to what is written, from any state. *)
Lemma write_lines_shape bad fin w :
  ∃ out,
    fout (write_lines bad fin w).1 = fout w ++ out
    ∧ out `sublist_of` fin
    ∧ Forall (λ l, Py.startswith_gt l = true → accepted_header bad l) out
    ∧ kept (write_lines bad fin w).1 = (kept w + length (headers out))%nat
    ∧ ((write_lines bad fin w).2 = None →
       (kept (write_lines bad fin w).1 + skipped (write_lines bad fin w).1
        = kept w + skipped w + length (headers fin))%nat).
Proof.
  revert w. induction fin as [|line fin IH]; intros w.
  - exists []. simpl. rewrite app_nil_r. repeat split; try done; lia.
  - simpl. unfold write_line. rewrite headers_cons.
    destruct (Py.startswith_gt line) eqn:Hh.
    + destruct (extract_accession_from_header line) as [acc|e] eqn:He; simpl.
      * case_bool_decide as Hbad.
        -- destruct (IH (Writer (fout w) false (kept w) (S (skipped w))))
             as (out & Hf & Hs & Ha & Hk & Hn).
           exists out. simpl in *. split; [done|].
           split; [by apply sublist_cons|]. split; [done|].
           split; [done|]. intros Hnone. specialize (Hn Hnone). lia.
        -- destruct (IH (Writer (fout w ++ [line]) true (S (kept w))
                           (skipped w)))
             as (out & Hf & Hs & Ha & Hk & Hn).
           exists (line :: out). simpl in *.
           split; [by rewrite Hf, <- app_assoc|].
           split; [by apply sublist_skip|]. split.
           { apply Forall_cons_2; [|done]. intros _. by exists acc. }
           rewrite headers_cons, Hh. simpl.
           split; [lia|]. intros Hnone. specialize (Hn Hnone). lia.
      * exists []. simpl. rewrite app_nil_r.
        repeat split; try done; try apply sublist_nil_l; lia.
    + destruct (write_current w) eqn:Hc.
      * destruct (IH (Writer (fout w ++ [line]) true (kept w) (skipped w)))
          as (out & Hf & Hs & Ha & Hk & Hn).
        exists (line :: out). simpl in *.
        split; [by rewrite Hf, <- app_assoc|].
        split; [by apply sublist_skip|]. split.
        { apply Forall_cons_2; [|done]. congruence. }
        rewrite headers_cons, Hh. done.
      * destruct (IH w) as (out & Hf & Hs & Ha & Hk & Hn).
        exists out. split; [done|]. split; [by apply sublist_cons|]. done.
Qed.

(** The rewriter only ever drops lines: what it writes is the input
    with lines left out, none added, changed or moved; this holds even
    when it stops on an exception. *)
Theorem output_is_sublist (fin : list string) (bad_ids : gset string) :
  fout (write_cleaned_fasta fin bad_ids).1 `sublist_of` fin.
Proof.
  unfold write_cleaned_fasta.
  destruct (write_lines_shape bad_ids fin (Writer [] true 0 0))
    as (out & Hf & Hs & _).
  by rewrite Hf.
Qed.

(** No header of a rejected record is written: every header line of the
    output yields an identifier, and it is not in the rejected set. *)
Theorem output_headers_accepted (fin : list string) (bad_ids : gset string) :
  Forall (accepted_header bad_ids)
    (headers (fout (write_cleaned_fasta fin bad_ids).1)).
Proof.
  unfold write_cleaned_fasta.
  destruct (write_lines_shape bad_ids fin (Writer [] true 0 0))
    as (out & Hf & _ & Ha & _).
  rewrite Hf. simpl. unfold headers.
  apply Forall_forall. intros l [Hl Hin]%list_elem_of_filter.
  rewrite Forall_forall in Ha. auto.
Qed.

(** The counters of the rewriter: [kept] is the number of header lines
    written, and when the pass ends normally [kept + skipped] is the
    number of header lines read. *)
Theorem rewriter_counts (fin : list string) (bad_ids : gset string) :
  let r := write_cleaned_fasta fin bad_ids in
  kept r.1 = length (headers (fout r.1))
  ∧ (r.2 = None → (kept r.1 + skipped r.1)%nat = length (headers fin)).
Proof.
  unfold write_cleaned_fasta. cbv zeta.
  destruct (write_lines_shape bad_ids fin (Writer [] true 0 0))
    as (out & Hf & _ & _ & Hk & Hn).
  rewrite Hf. simpl in *. split; [done|]. intros H. by apply Hn.
Qed.

(** A stream in which every header is accepted passes unchanged. *)
Lemma write_lines_identity bad fin w :
  write_current w = true →
  Forall (accepted_header bad) (headers fin) →
  write_lines bad fin w
  = (Writer (fout w ++ fin) true (kept w + length (headers fin))
       (skipped w), None).
Proof.
  revert w. induction fin as [|line fin IH]; intros w Hc Hall.
  - simpl. destruct w; simpl in *. subst.
    by rewrite app_nil_r, Nat.add_0_r.
  - simpl. unfold write_line. rewrite headers_cons in Hall |- *.
    destruct (Py.startswith_gt line) eqn:Hh.
    + apply Forall_cons in Hall as [(acc & He & Hacc) Hall].
      rewrite He. simpl. rewrite bool_decide_eq_false_2 by done.
      rewrite IH by done. simpl. rewrite <- app_assoc. do 2 f_equal. lia.
    + rewrite Hc, IH by done. simpl. by rewrite <- app_assoc.
Qed.

(** When no header is rejected and each yields an identifier (so with
    an empty rejected set and tokens in all headers), the output is the
    input, line for line. *)
Theorem nothing_rejected_identity (fin : list string) (bad_ids : gset string) :
  Forall (accepted_header bad_ids) (headers fin) →
  write_cleaned_fasta fin bad_ids
  = (Writer fin true (length (headers fin)) 0, None).
Proof.
  intros Hall. unfold write_cleaned_fasta.
  by rewrite write_lines_identity.
Qed.

Lemma nothing_rejected_identity_witness :
  Forall (accepted_header ∅)
    (headers (Scenario.stray :: stream [Scenario.first_record]))
  ∧ write_cleaned_fasta (Scenario.stray :: stream [Scenario.first_record]) ∅
    = (Writer (Scenario.stray :: stream [Scenario.first_record]) true
         (length (headers (Scenario.stray :: stream [Scenario.first_record])))
         0, None).
Proof.
  assert (Forall (accepted_header ∅)
            (headers (Scenario.stray :: stream [Scenario.first_record])))
    as Hall.
  { apply Forall_cons_2; [|apply Forall_nil_2].
    exists "NP_000001.1". split; [vm_compute; reflexivity|].
    apply not_elem_of_empty. }
  split; [exact Hall|]. apply nothing_rejected_identity. exact Hall.
Defined.

(** Cleaning is idempotent: a second pass over the output, with the same
    rejected set, never raises, removes nothing and writes the same
    lines. *)
Theorem rewriting_is_idempotent (fin : list string) (bad_ids : gset string) :
  let out := fout (write_cleaned_fasta fin bad_ids).1 in
  write_cleaned_fasta out bad_ids
  = (Writer out true (kept (write_cleaned_fasta fin bad_ids).1) 0, None).
Proof.
  cbv zeta. unfold write_cleaned_fasta.
  destruct (write_lines_shape bad_ids fin (Writer [] true 0 0))
    as (out & Hf & _ & Ha & Hk & _).
  rewrite Hf, Hk. simpl. apply write_lines_identity; [done|].
  unfold headers. apply Forall_forall.
  intros l [Hl Hin]%list_elem_of_filter.
  rewrite Forall_forall in Ha. auto.
Qed.

End Rewriting.

(** ** Text and patterns *)

Module Text.
Import Design.

Lemma space_not_upper c : Py.isspace c = true → Py.isupper c = false.
Proof.
  destruct c as [[] [] [] [] [] [] [] []]; vm_compute; congruence.
Qed.

Lemma all_space_cons c s :
  all_space (String c s) = Py.isspace c && all_space s.
Proof. done. Qed.

Lemma no_space_cons c s :
  no_space (String c s) = negb (Py.isspace c) && no_space s.
Proof. done. Qed.

Lemma all_space_lstrip s : all_space (Py.lstrip s) = all_space s.
Proof.
  induction s as [|c s IH]; [done|]. simpl.
  destruct (Py.isspace c) eqn:E.
  - by rewrite IH, all_space_cons, E.
  - done.
Qed.

Lemma all_space_rstrip s :
  all_space (Py.rstrip_with Py.isspace s) = all_space s.
Proof.
  induction s as [|c s IH]; [done|]. simpl.
  rewrite all_space_cons, <- IH.
  destruct (Py.rstrip_with Py.isspace s) as [|x t].
  - destruct (Py.isspace c) eqn:E; [done|]. by rewrite all_space_cons, E.
  - by rewrite all_space_cons.
Qed.

Lemma all_space_strip s : all_space (Py.strip s) = all_space s.
Proof. unfold Py.strip. by rewrite all_space_lstrip, all_space_rstrip. Qed.

Lemma lstrip_empty s : Py.lstrip s = EmptyString ↔ all_space s = true.
Proof.
  induction s as [|c s IH]; [done|]. simpl. rewrite all_space_cons.
  destruct (Py.isspace c); [done|]. split; done.
Qed.

Lemma strip_empty s : Py.strip s = EmptyString ↔ all_space s = true.
Proof.
  unfold Py.strip. by rewrite lstrip_empty, all_space_rstrip.
Qed.

(** [split] gives no token exactly on white space. *)
Lemma split_go_nil cur s :
  Py.split_go cur s = [] ↔ cur = [] ∧ all_space s = true.
Proof.
  revert cur. induction s as [|c s IH]; intros cur; simpl.
  - destruct cur; split; try done. by intros [? _].
  - rewrite all_space_cons. destruct (Py.isspace c) eqn:E.
    + destruct cur as [|x cur]; simpl.
      * rewrite IH. tauto.
      * split; [done|]. by intros [? _].
    + rewrite IH. split; [by intros [? _] | by intros [_ ?]].
Qed.

Lemma split_nil s : Py.split s = [] ↔ all_space s = true.
Proof. unfold Py.split. rewrite split_go_nil. tauto. Qed.

Lemma no_space_of_list l :
  Forall (λ c, Py.isspace c = false) l →
  no_space (string_of_list_ascii l) = true.
Proof.
  unfold no_space. rewrite list_ascii_of_string_of_list_ascii.
  induction 1 as [|c l Hc Hl IH]; [done|]. simpl. by rewrite Hc.
Qed.

(** The tokens of [split] are not empty and hold no white space. *)
Lemma split_go_tokens cur s :
  Forall (λ c, Py.isspace c = false) cur →
  Forall (λ t, t ≠ EmptyString ∧ no_space t = true) (Py.split_go cur s).
Proof.
  revert cur. induction s as [|c s IH]; intros cur Hcur; simpl.
  - destruct cur as [|x cur]; [done|]. apply Forall_singleton. split.
    + intros H. apply (f_equal list_ascii_of_string) in H.
      rewrite list_ascii_of_string_of_list_ascii in H. simpl in H.
      symmetry in H. by apply app_cons_not_nil in H.
    + apply no_space_of_list. by apply Forall_rev.
  - destruct (Py.isspace c) eqn:E.
    + apply Forall_app_2; [|by apply IH].
      destruct cur as [|x cur]; [done|]. apply Forall_singleton. split.
      * intros H. apply (f_equal list_ascii_of_string) in H.
        rewrite list_ascii_of_string_of_list_ascii in H. simpl in H.
        symmetry in H. by apply app_cons_not_nil in H.
      * apply no_space_of_list. by apply Forall_rev.
    + apply IH. by apply Forall_cons_2.
Qed.

Lemma split_tokens s :
  Forall (λ t, t ≠ EmptyString ∧ no_space t = true) (Py.split s).
Proof. by apply split_go_tokens. Qed.

(** [rstrip("\n")] does not touch the marker. *)
Lemma startswith_rstrip_nl line :
  Py.startswith_gt (Py.rstrip_nl line) = Py.startswith_gt line.
Proof.
  destruct line as [|c s]; [done|]. unfold Py.rstrip_nl. simpl.
  destruct (Py.rstrip_with _ s); [|done].
  case_bool_decide as Hnl; [|done]. by subst c.
Qed.

End Text.

Module Patterns.
Import Design.

(** Whenever a pattern succeeds, it has handed on a suffix no longer than
    what it was given, and a shorter one if it is [consuming]. *)
Lemma iterate_calls {A} (step : @Re.matcher A) (progress : bool) :
  (∀ s g k a, step s g k = Some a →
     ∃ s' g', k s' g' = Some a
              ∧ (String.length s' ≤ String.length s)%nat
              ∧ (progress = true →
                 (String.length s' < String.length s)%nat)) →
  ∀ n lo s g (k : Re.cont) a,
    Re.iterate step lo n s g k = Some a →
    ∃ s' g', k s' g' = Some a
             ∧ (String.length s' ≤ String.length s)%nat
             ∧ (negb (lo =? 0)%nat && progress = true →
                (String.length s' < String.length s)%nat).
Proof.
  intros Hstep n. induction n as [|n IH]; intros lo s g k a; simpl.
  - destruct (lo =? 0)%nat eqn:E; [|done]. intros Hk.
    exists s, g. split; [done|]. split; [lia|]. done.
  - destruct (step s g _) as [a'|] eqn:Es.
    + intros [= ->]. apply Hstep in Es as (s1 & g1 & Hit & Hle & Hlt).
      apply IH in Hit as (s' & g' & Hk & Hle' & _).
      exists s', g'. split; [done|]. split; [lia|].
      intros [_ Hp]%andb_true_iff. specialize (Hlt Hp). lia.
    + destruct (lo =? 0)%nat eqn:E; [|done]. intros Hk.
      exists s, g. split; [done|]. split; [lia|]. done.
Qed.

Lemma run_calls {A} (r : Re.regex) :
  ∀ s g (k : @Re.cont A) a,
    Re.run r s g k = Some a →
    ∃ s' g', k s' g' = Some a
             ∧ (String.length s' ≤ String.length s)%nat
             ∧ (consuming r = true →
                (String.length s' < String.length s)%nat).
Proof.
  induction r as [c|p|r1 IH1 r2 IH2|lo hi r IH|r IH|]; intros s g k a; simpl.
  - destruct s as [|c' s']; [done|]. case_bool_decide; [|done].
    intros Hk. exists s', g. simpl. split; [done|]. split; lia.
  - destruct s as [|c' s']; [done|]. destruct (p c'); [|done].
    intros Hk. exists s', g. simpl. split; [done|]. split; lia.
  - intros H. apply IH1 in H as (s1 & g1 & H & Hle1 & Hlt1).
    apply IH2 in H as (s' & g' & Hk & Hle2 & Hlt2).
    exists s', g'. split; [done|]. split; [lia|].
    intros [Hc|Hc]%orb_true_iff; [specialize (Hlt1 Hc) | specialize (Hlt2 Hc)];
      lia.
  - intros H. by apply (iterate_calls (Re.run r) (consuming r) IH) in H.
  - intros H. apply IH in H as (s' & g' & Hk & Hle & Hlt). eauto.
  - destruct s as [|c [|c' s']]; try done.
    + intros Hk. exists EmptyString, g. split; [done|]. split; [lia|done].
    + case_bool_decide; [|done]. intros Hk.
      exists (String c EmptyString), g. split; [done|]. split; [lia|done].
Qed.

Lemma length_substring n s :
  (n ≤ String.length s)%nat → String.length (String.substring 0 n s) = n.
Proof.
  revert s. induction n as [|n IH]; intros s Hn.
  - by destruct s.
  - destruct s as [|c s]; simpl in *; [lia|]. rewrite IH; [done|lia].
Qed.

(** The text of a group that is [consuming] is never empty. *)
Lemma group_not_empty r s g0 :
  consuming r = true →
  Re.match_group (Re.Group r) s = Some g0 → g0 ≠ EmptyString.
Proof.
  intros Hc. unfold Re.match_group. simpl. intros H.
  apply run_calls in H as (s' & g' & Hk & Hle & Hlt).
  specialize (Hlt Hc). injection Hk as <-. simpl. unfold Re.consumed.
  intros Hnil. apply (f_equal String.length) in Hnil.
  rewrite length_substring in Hnil by lia. simpl in Hnil. lia.
Qed.

Lemma search_group_found r s g0 :
  Re.search_group r s = Some g0 →
  ∃ pre t, s = (pre ++ t)%string ∧ Re.match_group r t = Some g0.
Proof.
  induction s as [|c s IH]; simpl.
  - destruct (Re.match_group r EmptyString) eqn:E; [|done].
    intros [= ->]. by exists EmptyString, EmptyString.
  - destruct (Re.match_group r (String c s)) eqn:E.
    + intros [= ->]. by exists EmptyString, (String c s).
    + intros H. destruct (IH H) as (pre & t & -> & Hm).
      by exists (String c pre), t.
Qed.

Lemma search_group_cons r c s :
  Re.search_group r (String c s)
  = match Re.match_group r (String c s) with
    | Some g => Some g
    | None => Re.search_group r s
    end.
Proof. done. Qed.

(** The accession pattern starts with a capital letter. *)
Lemma accession_needs_capital s :
  match s with
  | EmptyString => True
  | String c _ => Py.isupper c = false
  end →
  Re.match_group CleanFasta.accession_pat s = None.
Proof.
  destruct s as [|c s]; [done|]. intros Hc.
  unfold Re.match_group, CleanFasta.accession_pat. simpl. by rewrite Hc.
Qed.

Lemma accession_not_in_space s :
  all_space s = true →
  Re.search_group CleanFasta.accession_pat s = None.
Proof.
  induction s as [|c s IH]; [done|].
  rewrite Text.all_space_cons. intros [Hc Hs]%andb_true_iff.
  simpl. rewrite accession_needs_capital; [by apply IH|].
  by apply Text.space_not_upper.
Qed.

End Patterns.

(** ** Header extraction and the scan of the headers *)

Module Headers.
Import CleanFasta Design.

(** [extract_accession_from_header] raises exactly on a header that has
    nothing but white space after the marker (the line ends stripped of
    newlines), and then it raises [IndexError]; it raises nothing
    else. *)
Theorem extraction_raises_iff (line : string) :
  (extract_accession_from_header line = Raise IndexError
   ↔ ∃ rest, Py.rstrip_nl line = String ">" rest ∧ all_space rest = true)
  ∧ ∀ e, extract_accession_from_header line = Raise e → e = IndexError.
Proof.
  split; [|intros e He; by apply Rewriter.extract_raises in He as [-> _]].
  unfold extract_accession_from_header. split.
  - destruct (Py.rstrip_nl line) as [|c rest] eqn:E; simpl; [done|].
    case_bool_decide as Hc; simpl; [|done]. subst c.
    destruct (Re.search_group _ _); [done|].
    destruct (Py.split (Py.strip rest)) eqn:Es; [|done]. intros _.
    exists rest. split; [done|].
    apply Text.split_nil in Es. by rewrite Text.all_space_strip in Es.
  - intros (rest & -> & Hs).
    change (Py.startswith_gt (String ">" rest)) with true.
    change (Py.tail (String ">" rest)) with rest. cbn [negb].
    rewrite Patterns.search_group_cons.
    rewrite Patterns.accession_needs_capital by done.
    rewrite Patterns.accession_not_in_space by done.
    assert (Py.split (Py.strip rest) = []) as ->; [|done].
    apply Text.split_nil. by rewrite Text.all_space_strip.
Qed.

Lemma header_accession_not_empty line acc :
  Py.startswith_gt line = true →
  extract_accession_from_header line = Ok acc → acc ≠ EmptyString.
Proof.
  unfold extract_accession_from_header.
  rewrite Text.startswith_rstrip_nl. intros ->. simpl.
  destruct (Re.search_group accession_pat (Py.rstrip_nl line)) as [g|] eqn:E.
  - intros [= ->].
    apply Patterns.search_group_found in E as (pre & t & _ & Hm).
    by apply Patterns.group_not_empty in Hm.
  - pose proof (Text.split_tokens (Py.strip (Py.tail (Py.rstrip_nl line))))
      as Htok.
    destruct (Py.split _) as [|tok toks]; [done|]. simpl. intros [= ->].
    apply Forall_cons in Htok as [[Hne _] _]. done.
Qed.

(** The empty answer is the answer for lines that are not headers, and
    for them only: a header never yields an empty identifier. *)
Theorem empty_accession_iff (line : string) :
  extract_accession_from_header line = Ok EmptyString
  ↔ Py.startswith_gt line = false.
Proof.
  split.
  - intros He. destruct (Py.startswith_gt line) eqn:Hh; [|done].
    by destruct (header_accession_not_empty line EmptyString Hh He).
  - intros Hh. unfold extract_accession_from_header.
    by rewrite Text.startswith_rstrip_nl, Hh.
Qed.

#[global] Instance str_le_total : Total str_le.
Proof. intros a b. apply String.leb_total. Qed.

(** The scan keeps exactly the identifiers of the headers. *)
Lemma collect_lines_spec fh accs n :
  match collect_lines fh accs n with
  | Ok (accs', n') =>
      n' = (n + length (headers fh))%nat
      ∧ ∀ x, x ∈ accs'
             ↔ x ∈ accs
               ∨ ∃ line, line ∈ fh ∧ Py.startswith_gt line = true
                         ∧ extract_accession_from_header line = Ok x
  | Raise e =>
      e = IndexError
      ∧ ∃ line, line ∈ fh ∧ Py.startswith_gt line = true
                ∧ extract_accession_from_header line = Raise IndexError
  end.
Proof.
  revert accs n. induction fh as [|line fh IH]; intros accs n; simpl.
  - split; [unfold headers; simpl; lia|]. intros x. split; [auto|].
    intros [H|(l & Hl & _)]; [done|]. inversion Hl.
  - rewrite Rewriting.headers_cons.
    destruct (Py.startswith_gt line) eqn:Hh.
    + destruct (extract_accession_from_header line) as [acc|e] eqn:He; simpl.
      * assert (acc ≠ EmptyString) as Hacc.
        { by apply (header_accession_not_empty line). }
        rewrite bool_decide_eq_false_2 by done.
        specialize (IH ({[acc]} ∪ accs) (S n)).
        destruct (collect_lines fh _ _) as [[accs' n']|e].
        -- destruct IH as [-> IH]. split; [simpl; lia|].
           intros x. rewrite IH, elem_of_union, elem_of_singleton. split.
           ++ intros [[->|H]|(l & Hl & Hs & Hx)]; [right|by left|right].
              ** exists line. split; [left|done].
              ** exists l. split; [by right|done].
           ++ intros [H|(l & [->|Hl]%elem_of_cons & Hs & Hx)].
              ** left. by right.
              ** left. left. congruence.
              ** right. by exists l.
        -- destruct IH as [-> (l & Hl & Hs & Hx)]. split; [done|].
           exists l. split; [by right|done].
      * apply Rewriter.extract_raises in He as Hr. destruct Hr as [-> _].
        split; [done|]. exists line. split; [left|done].
    + specialize (IH accs n).
      destruct (collect_lines fh accs n) as [[accs' n']|e].
      * destruct IH as [-> IH]. split; [done|]. intros x. rewrite IH.
        split.
        -- intros [H|(l & Hl & Hs & Hx)]; [by left|right].
           exists l. split; [by right|done].
        -- intros [H|(l & [->|Hl]%elem_of_cons & Hs & Hx)];
             [by left|congruence|right]. by exists l.
      * destruct IH as [-> (l & Hl & Hs & Hx)]. split; [done|].
        exists l. split; [by right|done].
Qed.

Lemma collect_facts (fh : list string) :
  match collect_accessions_from_fasta fh with
  | Ok accs =>
      Sorted str_le accs ∧ NoDup accs
      ∧ ∀ x, x ∈ accs
             ↔ ∃ line, line ∈ fh ∧ Py.startswith_gt line = true
                       ∧ extract_accession_from_header line = Ok x
  | Raise e =>
      e = IndexError
      ∧ ∃ line, line ∈ fh ∧ Py.startswith_gt line = true
                ∧ extract_accession_from_header line = Raise IndexError
  end.
Proof.
  unfold collect_accessions_from_fasta.
  pose proof (collect_lines_spec fh ∅ 0) as H.
  destruct (collect_lines fh ∅ 0) as [[accs n]|e]; simpl; [|done].
  destruct H as [_ H]. split; [apply Sorted_merge_sort, _|]. split.
  - rewrite merge_sort_Permutation. apply NoDup_elements.
  - intros x. rewrite merge_sort_Permutation, elem_of_elements, H.
    split; [|auto]. intros [Hx|Hx]; [|done]. by apply not_elem_of_empty in Hx.
Qed.

(** [collect_accessions_from_fasta] raises exactly when some header has
    no token, and then [IndexError]; otherwise it returns the
    identifiers of the headers, each once, in increasing order. *)
Theorem collect_accessions_spec (fh : list string) :
  (tokenless_header fh
   ∧ collect_accessions_from_fasta fh = Raise IndexError)
  ∨ (¬ tokenless_header fh
     ∧ ∃ accs,
         collect_accessions_from_fasta fh = Ok accs
         ∧ Sorted str_le accs ∧ NoDup accs
         ∧ ∀ x, x ∈ accs ↔ header_accession fh x).
Proof.
  pose proof (collect_facts fh) as Hc.
  destruct (collect_accessions_from_fasta fh) as [accs|e] eqn:Ec.
  - right. split; [|by exists accs].
    intros (l & Hl & Hh & He).
    pose proof (Rewriter.collect_lines_crash fh ∅ 0 l Hl Hh He) as Hr.
    unfold collect_accessions_from_fasta in Ec. by rewrite Hr in Ec.
  - left. by destruct Hc as [-> Ht].
Qed.

End Headers.

(** ** The two filters of identifiers *)

Module Filters.
Import CleanFasta Design.

Lemma rstrip_last p s u c :
  Py.rstrip_with p s = (u ++ String c EmptyString)%string → p c = false.
Proof.
  revert u. induction s as [|c0 s IH]; intros u; simpl.
  - by destruct u.
  - destruct (Py.rstrip_with p s) as [|x t] eqn:E.
    + destruct (p c0) eqn:Hp; [by destruct u|].
      destruct u as [|y u]; simpl; [by intros [= <-]|].
      intros [= _ H]. by destruct u.
    + destruct u as [|y u]; simpl; [done|]. intros [= _ H]. by eapply IH.
Qed.

Lemma lstrip_suffix s : ∃ pre, s = (pre ++ Py.lstrip s)%string.
Proof.
  induction s as [|c s [pre IH]]; [by exists EmptyString|]. simpl.
  destruct (Py.isspace c).
  - exists (String c pre).
    change (String c s = String c (pre ++ Py.lstrip s)%string). by f_equal.
  - by exists EmptyString.
Qed.

Lemma append_assoc (a b c : string) :
  ((a ++ b) ++ c = a ++ (b ++ c))%string.
Proof.
  induction a as [|x a IH]; [done|].
  change (String x ((a ++ b) ++ c) = String x (a ++ (b ++ c)))%string.
  by rewrite IH.
Qed.

(** A stripped string does not end with white space. *)
Lemma strip_last s u c :
  Py.strip s = (u ++ String c EmptyString)%string → Py.isspace c = false.
Proof.
  unfold Py.strip. intros H.
  destruct (lstrip_suffix (Py.rstrip_with Py.isspace s)) as [pre Hpre].
  rewrite H, <- append_assoc in Hpre. by apply rstrip_last in Hpre.
Qed.

(** On a string that does not end with a newline, the pattern of the
    local filter is the shape [pdb_like]. *)
Lemma pdb_pattern_shape t :
  (∀ u, t ≠ (u ++ String Py.newline EmptyString)%string) →
  Re.matches pdb_chain_pat t = pdb_like t.
Proof.
  intros Hnl. unfold Re.matches, Re.match_group, pdb_chain_pat.
  destruct t as [|d [|a [|b [|c [|u [|e [|n [|m t]]]]]]]]; simpl;
    repeat (match goal with
            | |- context [if Py.isdigit ?x then _ else _] =>
                destruct (Py.isdigit x)
            | |- context [if Py.isalnum ?x then _ else _] =>
                destruct (Py.isalnum x)
            end; simpl);
    repeat (case_bool_decide; simplify_eq; simpl); try done.
  all: try by (exfalso;
               eapply (Hnl (String _ (String _ (String _ (String _
                              (String _ (String _ EmptyString)))))));
               reflexivity).
  all: try by (exfalso;
               match goal with
               | H : ¬ is_Some (Some _) |- _ => apply H; eauto
               end).
Qed.

Lemma local_filter_eq (s : string) :
  is_valid_protein_id_local s
  = negb (all_space s) && negb (pdb_like (Py.strip s)).
Proof.
  unfold is_valid_protein_id_local.
  destruct (all_space s) eqn:Hs.
  - apply Text.strip_empty in Hs. by rewrite Hs.
  - rewrite bool_decide_eq_false_2.
    + rewrite pdb_pattern_shape; [by destruct (pdb_like _)|].
      intros u Hu. apply strip_last in Hu. done.
    + intros H. apply Text.strip_empty in H. congruence.
Qed.

(** The local filter refuses white space and the PDB-chain shape (a
    digit, three letters or digits, an underscore, a letter or digit,
    with white space around it or not), and nothing else. *)
Theorem local_filter_shape (s : string) :
  is_valid_protein_id_local s = false
  ↔ all_space s = true ∨ pdb_like (Py.strip s) = true.
Proof.
  rewrite local_filter_eq.
  destruct (all_space s), (pdb_like (Py.strip s)); simpl; split;
    try done; try (by left); try (by right).
  by intros [?|?].
Qed.

Lemma digit_not_upper c : Py.isdigit c = true → Py.isupper c = false.
Proof. destruct c as [[] [] [] [] [] [] [] []]; vm_compute; congruence. Qed.

(** The filter of [entrez_metadata.py] is the stricter one: whatever it
    accepts, the local filter of [clean_fasta.py] accepts. *)
Theorem strict_filter_implies_local (s : string) :
  EntrezMetadata.is_valid_protein_id s = true →
  is_valid_protein_id_local s = true.
Proof.
  rewrite local_filter_eq. unfold EntrezMetadata.is_valid_protein_id.
  destruct (all_space s) eqn:Hs.
  { apply Text.strip_empty in Hs. by rewrite Hs. }
  intros Hstrict. simpl.
  destruct (pdb_like (Py.strip s)) eqn:Hp; [|done]. exfalso.
  destruct (Py.strip s) as [|d [|a [|b [|c [|u [|e [|]]]]]]]; try done.
  simpl in Hp.
  apply andb_true_iff in Hp as [Hp He].
  apply andb_true_iff in Hp as [Hp Hu].
  apply andb_true_iff in Hp as [Hp Hc].
  apply andb_true_iff in Hp as [Hp Hb].
  apply andb_true_iff in Hp as [Hd Ha].
  apply bool_decide_eq_true in Hu. subst u.
  revert Hstrict. unfold Re.matches, Re.match_group,
    EntrezMetadata._valid_numeric, EntrezMetadata._valid_refseq,
    EntrezMetadata._valid_uniprot. simpl.
  rewrite Hd, (digit_not_upper d Hd).
  destruct (Py.isdigit a), (Py.isdigit b), (Py.isdigit c),
    (EntrezMetadata.uniprot_char d), (EntrezMetadata.uniprot_char a),
    (EntrezMetadata.uniprot_char b), (EntrezMetadata.uniprot_char c);
    simpl; done.
Qed.

Lemma strict_filter_implies_local_witness :
  EntrezMetadata.is_valid_protein_id "NP_000001.1" = true
  ∧ is_valid_protein_id_local "NP_000001.1" = true.
Proof.
  split; [vm_compute; reflexivity|].
  apply strict_filter_implies_local. vm_compute. reflexivity.
Defined.

End Filters.

(** ** [main]: from the file to the cleaned file *)

Module Pipeline.
Import Entrez CleanFasta Design.

(** A stream whose headers all yield an identifier never stops the
    rewriter. *)
Lemma write_lines_no_crash bad fin w :
  ¬ tokenless_header fin → (write_lines bad fin w).2 = None.
Proof.
  revert w. induction fin as [|line fin IH]; intros w Hno; [done|].
  simpl. unfold write_line.
  assert (¬ tokenless_header fin) as Hrest.
  { intros (l & Hl & Hh & He). apply Hno. exists l. split; [by right|done]. }
  destruct (Py.startswith_gt line) eqn:Hh.
  - destruct (extract_accession_from_header line) as [acc|e] eqn:He; simpl.
    + case_bool_decide; by apply IH.
    + exfalso. apply Hno. exists line. split; [left|]. split; [done|].
      by apply Rewriter.extract_raises in He as Hr; destruct Hr as [-> _].
  - destruct (write_current w); by apply IH.
Qed.

(** The two ways [main] can go. *)
Lemma main_cases remote input api_key delay retries :
  (tokenless_header input
   ∧ main remote input api_key delay retries = Some (Raise IndexError))
  ∨ (¬ tokenless_header input
     ∧ ∃ c,
         main remote input api_key delay retries = Some (Ok c)
         ∧ NoDup (all_accs c)
         ∧ (∀ x, x ∈ all_accs c ↔ header_accession input x)
         ∧ (∀ x, x ∈ bad_pattern_ids c
                 ↔ x ∈ all_accs c ∧ is_valid_protein_id_local x = false)
         ∧ good_for_entrez c
           = filter (λ a, a ∉ bad_pattern_ids c) (all_accs c)
         ∧ validate_run remote (good_for_entrez c) api_key delay retries 400
           = Some (Ok (entrez c))
         ∧ bad_ids c = bad_pattern_ids c ∪ invalid_ids (entrez c)
         ∧ output c = write_cleaned_fasta input (bad_ids c)).
Proof.
  unfold main. pose proof (Headers.collect_facts input) as Hc.
  destruct (collect_accessions_from_fasta input) as [accs|e] eqn:Ec.
  - right. destruct Hc as (_ & Hnd & Hmem).
    set (badp := list_to_set
                   (filter (λ a, is_valid_protein_id_local a = false) accs)
                 : gset string).
    set (good := filter (λ a, a ∉ badp) accs).
    destruct (Validator.validate_run_post remote good api_key delay retries
                400) as (st & Hrun & _); [done|].
    rewrite Hrun. split.
    + intros (l & Hl & Hh & He).
      pose proof (Rewriter.collect_lines_crash input ∅ 0 l Hl Hh He) as Hr.
      unfold collect_accessions_from_fasta in Ec. by rewrite Hr in Ec.
    + eexists. split; [done|]. simpl. split; [done|]. split; [done|].
      split; [|done]. intros x. unfold badp.
      rewrite elem_of_list_to_set, list_elem_of_filter. tauto.
  - left. destruct Hc as [-> Ht]. done.
Qed.

(** In a stream of well-formed records the headers are the headers of
    the records. *)
Lemma stream_headers rs line :
  Forall well_formed rs →
  line ∈ stream rs → Py.startswith_gt line = true →
  ∃ r, r ∈ rs ∧ line = header r.
Proof.
  induction 1 as [|r rs (Hh & Hb & Ha) Hrs IH]; [by intros H; inversion H|].
  rewrite Rewriter.stream_cons. unfold record_lines.
  intros [Hin|Hin]%elem_of_app Hs.
  - apply elem_of_cons in Hin as [->|Hin].
    + exists r. split; [left|done].
    + rewrite Forall_forall in Hb. specialize (Hb line Hin). congruence.
  - destruct (IH Hin Hs) as (r' & Hr' & ->). exists r'. split; [by right|done].
Qed.

Lemma stream_no_tokenless rs :
  Forall well_formed rs → ¬ tokenless_header (stream rs).
Proof.
  intros Hwf (l & Hl & Hh & He).
  destruct (stream_headers rs l Hwf Hl Hh) as (r & Hr & ->).
  rewrite Forall_forall in Hwf. destruct (Hwf r Hr) as (_ & _ & acc & Ha).
  congruence.
Qed.

Lemma stream_header_in rs r : r ∈ rs → header r ∈ stream rs.
Proof.
  induction rs as [|r' rs IH]; [by intros H; inversion H|].
  rewrite Rewriter.stream_cons. intros [->|Hin]%elem_of_cons.
  - apply elem_of_app. left. left.
  - apply elem_of_app. right. by apply IH.
Qed.

(** [main] always ends.  It raises exactly when some header of the file
    has no token, whatever the service, and then [IndexError]; otherwise
    the scan, the validation and the rewriting all end normally. *)
Theorem main_outcome remote input api_key delay retries :
  ∃ r,
    main remote input api_key delay retries = Some r
    ∧ match r with
      | Raise e => e = IndexError ∧ tokenless_header input
      | Ok c => ¬ tokenless_header input ∧ (output c).2 = None
      end.
Proof.
  destruct (main_cases remote input api_key delay retries)
    as [[Ht ->] | (Hno & c & -> & _ & _ & _ & _ & _ & _ & Hout)].
  - by eexists.
  - eexists. split; [done|]. simpl. split; [done|]. rewrite Hout.
    by apply write_lines_no_crash.
Qed.

(** What [main] hands to the validator: the identifiers of the headers
    that pass the local filter, each once; and the service is asked about
    these only, so never about an identifier the local filter refuses. *)
Theorem entrez_sees_filtered_accessions
    remote input api_key delay retries :
  ¬ tokenless_header input →
  ∃ c,
    main remote input api_key delay retries = Some (Ok c)
    ∧ NoDup (good_for_entrez c)
    ∧ (∀ x, x ∈ good_for_entrez c
            ↔ header_accession input x
              ∧ is_valid_protein_id_local x = true)
    ∧ Forall (asks_within 400 (good_for_entrez c)) (trace (entrez c)).
Proof.
  intros Hno.
  destruct (main_cases remote input api_key delay retries)
    as [[Ht _] | (_ & c & Hm & Hnd & Hacc & Hbp & Hgood & Hrun & _)];
    [done|].
  exists c. split; [done|]. split; [|split].
  - rewrite Hgood. by apply NoDup_filter.
  - intros x. rewrite Hgood, list_elem_of_filter, Hbp, <- Hacc.
    destruct (is_valid_protein_id_local x); intuition congruence.
  - destruct (Audit.validate_run_audit remote (good_for_entrez c) api_key
                delay retries 400) as (st & Hrun' & new & Ht & Hask & _);
      [done|].
    rewrite Hrun in Hrun'. injection Hrun' as <-. by rewrite Ht.
Qed.

(** The identifiers [main] removes are identifiers of the file: those the
    local filter refuses and those the validator rejected. *)
Theorem bad_ids_spec remote input api_key delay retries :
  ¬ tokenless_header input →
  ∃ c,
    main remote input api_key delay retries = Some (Ok c)
    ∧ ∀ x, x ∈ bad_ids c
           ↔ header_accession input x
             ∧ (is_valid_protein_id_local x = false
                ∨ x ∈ invalid_ids (entrez c)).
Proof.
  intros Hno.
  destruct (main_cases remote input api_key delay retries)
    as [[Ht _] | (_ & c & Hm & Hnd & Hacc & Hbp & Hgood & Hrun & Hbad & _)];
    [done|].
  exists c. split; [done|]. intros x.
  destruct (Validator.validate_run_post remote (good_for_entrez c) api_key
              delay retries 400) as (st & Hrun' & Hsub & _); [done|].
  rewrite Hrun in Hrun'. injection Hrun' as <-.
  rewrite Hbad, elem_of_union, Hbp, <- Hacc. split.
  - intros [[Hx Hl]|Hx]; [tauto|]. split; [|by right].
    apply Hsub in Hx. rewrite Hgood in Hx.
    by apply list_elem_of_filter in Hx as [_ Hx].
  - tauto.
Qed.

(** End to end, on a file made of well-formed records: [main] ends
    normally and writes exactly the records whose identifier passes the
    local filter and was not rejected by the validator, whole and in
    order; and each of them was carried by a call that succeeded. *)
Theorem clean_file_spec remote (rs : list fasta_record)
    api_key delay retries :
  Forall well_formed rs →
  ∃ c w,
    main remote (stream rs) api_key delay retries = Some (Ok c)
    ∧ output c = (w, None)
    ∧ fout w = stream (filter (retained (bad_ids c)) rs)
    ∧ ∀ r acc,
        r ∈ rs → extract_accession_from_header (header r) = Ok acc →
        (retained (bad_ids c) r
         ↔ is_valid_protein_id_local acc = true
           ∧ acc ∉ invalid_ids (entrez c))
        ∧ (retained (bad_ids c) r → confirmed (trace (entrez c)) acc).
Proof.
  intros Hwf. pose proof (stream_no_tokenless rs Hwf) as Hno.
  destruct (main_cases remote (stream rs) api_key delay retries)
    as [[Ht _] | (_ & c & Hm & Hnd & Hacc & Hbp & Hgood & Hrun & Hbad & Hout)];
    [done|].
  unfold write_cleaned_fasta in Hout.
  destruct (Rewriter.write_lines_stream (bad_ids c) rs (Writer [] true 0 0)
              Hwf) as (wc & Hw).
  rewrite Hw in Hout. eexists c, _. split; [done|]. split; [done|].
  split; [done|]. intros r acc Hr Ha.
  assert (acc ∈ all_accs c) as Hin.
  { apply Hacc. exists (header r). split; [by apply stream_header_in|].
    split; [|done]. rewrite Forall_forall in Hwf. by destruct (Hwf r Hr). }
  assert (retained (bad_ids c) r
          ↔ is_valid_protein_id_local acc = true
            ∧ acc ∉ invalid_ids (entrez c)) as Hiff.
  { unfold retained. rewrite Ha, Hbad. split.
    - intros (acc' & [= <-] & Hn). rewrite elem_of_union, Hbp in Hn.
      destruct (is_valid_protein_id_local acc); tauto.
    - intros [Hl Hn]. exists acc. split; [done|].
      rewrite elem_of_union, Hbp. intros [[_ Hf]|Hx]; [congruence|done]. }
  split; [done|]. intros [Hl Hn]%Hiff.
  destruct (Validator.validate_run_post remote (good_for_entrez c) api_key
              delay retries 400) as (st & Hrun' & _ & _ & Hres); [done|].
  rewrite Hrun in Hrun'. injection Hrun' as <-.
  destruct (Hres ltac:(lia) acc) as [Hx|Hx]; [|done|exact Hx].
  rewrite Hgood. apply list_elem_of_filter. split; [|done].
  rewrite Hbp. intros [_ Hf]. congruence.
Qed.

Lemma small_file_well_formed :
  Forall well_formed
    [Scenario.first_record; Scenario.pdb_record; Scenario.second_record].
Proof.
  repeat apply Forall_cons_2; try apply Forall_nil_2;
    (split; [reflexivity|]; split;
     [repeat apply Forall_cons_2; try apply Forall_nil_2; reflexivity|]).
  - exists "NP_000001.1". vm_compute. reflexivity.
  - exists "1Q3Z_A". vm_compute. reflexivity.
  - exists "sp|P12345". vm_compute. reflexivity.
Qed.

Lemma clean_file_spec_witness :
  Forall well_formed
    [Scenario.first_record; Scenario.pdb_record; Scenario.second_record]
  ∧ ∃ c w,
      main Scenario.quiet
        (stream [Scenario.first_record; Scenario.pdb_record;
                 Scenario.second_record]) None None 3
      = Some (Ok c)
      ∧ output c = (w, None)
      ∧ fout w
        = stream (filter (retained (bad_ids c))
                    [Scenario.first_record; Scenario.pdb_record;
                     Scenario.second_record])
      ∧ ∀ r acc,
          r ∈ [Scenario.first_record; Scenario.pdb_record;
               Scenario.second_record] →
          extract_accession_from_header (header r) = Ok acc →
          (retained (bad_ids c) r
           ↔ is_valid_protein_id_local acc = true
             ∧ acc ∉ invalid_ids (entrez c))
          ∧ (retained (bad_ids c) r → confirmed (trace (entrez c)) acc).
Proof.
  split; [exact small_file_well_formed|].
  apply clean_file_spec. exact small_file_well_formed.
Defined.

Lemma entrez_sees_filtered_accessions_witness :
  ¬ tokenless_header
      (stream [Scenario.first_record; Scenario.pdb_record])
  ∧ ∃ c,
      main Scenario.quiet
        (stream [Scenario.first_record; Scenario.pdb_record]) None None 3
      = Some (Ok c)
      ∧ NoDup (good_for_entrez c)
      ∧ (∀ x, x ∈ good_for_entrez c
              ↔ header_accession
                  (stream [Scenario.first_record; Scenario.pdb_record]) x
                ∧ is_valid_protein_id_local x = true)
      ∧ Forall (asks_within 400 (good_for_entrez c)) (trace (entrez c)).
Proof.
  assert (Forall well_formed [Scenario.first_record; Scenario.pdb_record])
    as Hwf.
  { pose proof small_file_well_formed as H.
    apply Forall_cons in H as [H1 H]. apply Forall_cons in H as [H2 _].
    by repeat apply Forall_cons_2. }
  split; [by apply stream_no_tokenless|].
  apply entrez_sees_filtered_accessions. by apply stream_no_tokenless.
Defined.

Lemma bad_ids_spec_witness :
  ¬ tokenless_header
      (stream [Scenario.first_record; Scenario.pdb_record])
  ∧ ∃ c,
      main Scenario.quiet
        (stream [Scenario.first_record; Scenario.pdb_record]) None None 3
      = Some (Ok c)
      ∧ ∀ x, x ∈ bad_ids c
             ↔ header_accession
                 (stream [Scenario.first_record; Scenario.pdb_record]) x
               ∧ (is_valid_protein_id_local x = false
                  ∨ x ∈ invalid_ids (entrez c)).
Proof.
  assert (Forall well_formed [Scenario.first_record; Scenario.pdb_record])
    as Hwf.
  { pose proof small_file_well_formed as H.
    apply Forall_cons in H as [H1 H]. apply Forall_cons in H as [H2 _].
    by repeat apply Forall_cons_2. }
  split; [by apply stream_no_tokenless|].
  apply bad_ids_spec. by apply stream_no_tokenless.
Defined.

(** A header without a token stops [write_cleaned_fasta] with
    [IndexError], and leaves the output of the lines before it: the
    cleaned file is cut short there. *)
Theorem rewriter_stops_at_tokenless_header
    (pre rest : list string) (line : string) (bad_ids : gset string) :
  ¬ tokenless_header pre →
  Py.startswith_gt line = true →
  extract_accession_from_header line = Raise IndexError →
  ∃ w,
    write_cleaned_fasta pre bad_ids = (w, None)
    ∧ write_cleaned_fasta (pre ++ line :: rest) bad_ids
      = (w, Some IndexError).
Proof.
  intros Hno Hh He. unfold write_cleaned_fasta.
  rewrite Rewriter.write_lines_app.
  pose proof (write_lines_no_crash bad_ids pre (Writer [] true 0 0)
                Hno) as Hpre.
  destruct (write_lines bad_ids pre (Writer [] true 0 0)) as [w o].
  simpl in Hpre. subst o. exists w. split; [done|].
  simpl. unfold write_line. by rewrite Hh, He.
Qed.

Lemma rewriter_stops_at_tokenless_header_witness :
  ¬ tokenless_header (stream [Scenario.first_record])
  ∧ Py.startswith_gt Scenario.bare_header = true
  ∧ extract_accession_from_header Scenario.bare_header = Raise IndexError
  ∧ ∃ w,
      write_cleaned_fasta (stream [Scenario.first_record]) ∅ = (w, None)
      ∧ write_cleaned_fasta
          (stream [Scenario.first_record]
           ++ Scenario.bare_header :: stream [Scenario.second_record]) ∅
        = (w, Some IndexError).
Proof.
  assert (¬ tokenless_header (stream [Scenario.first_record])) as Hno.
  { apply stream_no_tokenless. apply Forall_singleton.
    split; [reflexivity|]. split.
    - repeat apply Forall_cons_2; try apply Forall_nil_2; reflexivity.
    - exists "NP_000001.1". vm_compute. reflexivity. }
  split; [exact Hno|]. split; [reflexivity|].
  split; [vm_compute; reflexivity|].
  apply rewriter_stops_at_tokenless_header;
    [exact Hno | reflexivity | vm_compute; reflexivity].
Defined.

End Pipeline.

(** ** Patterns at the end of a line *)

Module Anchors.
Import CleanFasta Design.

Lemma length_append (s t : string) :
  String.length (s ++ t)%string = (String.length s + String.length t)%nat.
Proof.
  induction s as [|c s IH]; [done|].
  change (S (String.length (s ++ t)%string)
          = S (String.length s + String.length t)).
  by rewrite IH.
Qed.

Lemma substring_append n (s t : string) :
  (n ≤ String.length s)%nat →
  String.substring 0 n (s ++ t)%string = String.substring 0 n s.
Proof.
  revert s. induction n as [|n IH]; intros s Hn.
  - by destruct s, t.
  - destruct s as [|c s]; simpl in *; [lia|].
    change (String c (String.substring 0 n (s ++ t)%string)
            = String c (String.substring 0 n s)).
    rewrite IH; [done|lia].
Qed.

Lemma consumed_append (s s' t : string) :
  Re.consumed (s ++ t)%string (s' ++ t)%string = Re.consumed s s'.
Proof.
  unfold Re.consumed. rewrite !length_append.
  replace (String.length s + String.length t
           - (String.length s' + String.length t))%nat
    with (String.length s - String.length s')%nat by lia.
  apply substring_append. lia.
Qed.

(** A [plain] pattern does the same on a text and on the text followed
    by the end of the line. *)
Section Sim.
Context {A : Type}.
Variable t : string.
Hypothesis Ht : at_line_end t.

Lemma line_end_cases :
  t = EmptyString ∨ ∃ t', t = String Py.newline t'.
Proof.
  destruct t as [|c t']; [by left|]. simpl in Ht. subst c. right.
  by eexists.
Qed.

Lemma run_empty_consuming (r : Re.regex) g (k : @Re.cont A) :
  consuming r = true → Re.run r EmptyString g k = None.
Proof.
  intros Hc. destruct (Re.run r EmptyString g k) as [a|] eqn:E; [|done].
  apply Patterns.run_calls in E as (s' & g' & _ & _ & Hlt).
  specialize (Hlt Hc). simpl in Hlt. lia.
Qed.

Lemma agree_weaken n n' c c' (k k' : @Re.cont A) :
  agree t n c k k' → (n' ≤ n)%nat → (c = true → c' = true ∨ (n' < n)%nat) →
  agree t n' c' k k'.
Proof.
  intros Hk Hn Hc s' g' Hle Hlt. apply Hk; [lia|]. intros Ht'.
  destruct (Hc Ht') as [Hc'|Hlt']; [specialize (Hlt Hc')|]; lia.
Qed.

Lemma iterate_sim_bounded (step : @Re.matcher A) (c : bool) :
  (∀ s g k k', agree t (String.length s) c k k' →
               step (s ++ t)%string g k = step s g k') →
  ∀ n lo s g k k',
    agree t (String.length s) (negb (lo =? 0)%nat && c) k k' →
    Re.iterate step lo n (s ++ t)%string g k = Re.iterate step lo n s g k'.
Proof.
  intros Hstep n. induction n as [|n IH]; intros lo s g k k' Hk; simpl.
  - destruct (lo =? 0)%nat; [|done]. by apply Hk.
  - rewrite (Hstep s g _ (λ s' g', Re.iterate step (pred lo) n s' g' k')).
    + destruct (step s g _); [done|]. destruct (lo =? 0)%nat; [|done].
      by apply Hk.
    + intros s' g' Hle Hlt. apply IH.
      eapply agree_weaken; [exact Hk|lia|].
      intros [_ ->]%andb_true_iff. right. by apply Hlt.
Qed.

Lemma iterate_sim_free (step : @Re.matcher A) :
  (∀ s g k k', agree t (String.length s) true k k' →
               step (s ++ t)%string g k = step s g k') →
  (∀ g k, step EmptyString g k = None) →
  ∀ n n' lo s g k k',
    (String.length s ≤ n)%nat → (String.length s ≤ n')%nat →
    agree t (String.length s) (negb (lo =? 0)%nat) k k' →
    Re.iterate step lo n (s ++ t)%string g k = Re.iterate step lo n' s g k'.
Proof.
  intros Hstep Hnil n. induction n as [|n IH]; intros n' lo s g k k' Hn Hn' Hk.
  - destruct s; [|simpl in Hn; lia]. simpl.
    destruct n' as [|n']; simpl.
    + destruct (lo =? 0)%nat; [|done]. by apply (Hk EmptyString).
    + rewrite Hnil. destruct (lo =? 0)%nat; [|done]. by apply (Hk EmptyString).
  - destruct n' as [|n'].
    + destruct s; [|simpl in Hn'; lia]. simpl.
      rewrite (Hstep EmptyString g _ (λ _ _, None)).
      * rewrite Hnil. destruct (lo =? 0)%nat; [|done]. by apply (Hk EmptyString).
      * intros s' g' Hle Hlt. specialize (Hlt eq_refl). simpl in Hlt. lia.
    + simpl.
      rewrite (Hstep s g _ (λ s' g', Re.iterate step (pred lo) n' s' g' k')).
      * destruct (step s g _); [done|]. destruct (lo =? 0)%nat; [|done].
        by apply Hk.
      * intros s' g' Hle Hlt. specialize (Hlt eq_refl). apply IH; [lia|lia|].
        eapply agree_weaken; [exact Hk|lia|]. intros _. right. lia.
Qed.

Lemma run_sim (r : Re.regex) :
  plain r = true →
  ∀ s g (k k' : @Re.cont A),
    agree t (String.length s) (consuming r) k k' →
    Re.run r (s ++ t)%string g k = Re.run r s g k'.
Proof.
  induction r as [c|p|r1 IH1 r2 IH2|lo hi r IH|r IH|]; simpl; intros Hp s g k k' Hk.
  - destruct s as [|c' s]; simpl.
    + apply negb_true_iff, bool_decide_eq_false in Hp.
      destruct line_end_cases as [->|[t' ->]]; [done|].
      change (EmptyString ++ String Py.newline t')%string
        with (String Py.newline t').
      cbn. by case_bool_decide.
    + change (String c' s ++ t)%string with (String c' (s ++ t)%string).
      cbn. destruct (bool_decide (c = c')); [|done]. apply Hk; simpl; lia.
  - destruct s as [|c' s]; simpl.
    + apply negb_true_iff in Hp.
      destruct line_end_cases as [->|[t' ->]]; [done|].
      change (EmptyString ++ String Py.newline t')%string
        with (String Py.newline t').
      cbn. by rewrite Hp.
    + change (String c' s ++ t)%string with (String c' (s ++ t)%string).
      cbn. destruct (p c'); [|done]. apply Hk; simpl; lia.
  - apply andb_true_iff in Hp as [Hp1 Hp2].
    apply IH1; [done|]. intros s1 g1 Hle1 Hlt1.
    apply IH2; [done|]. intros s2 g2 Hle2 Hlt2.
    apply Hk; [lia|]. intros [Hc|Hc]%orb_true_iff.
    + specialize (Hlt1 Hc). lia.
    + specialize (Hlt2 Hc). lia.
  - apply andb_true_iff in Hp as [Hp Hhi].
    destruct hi as [n|]; simpl.
    + by apply (iterate_sim_bounded (Re.run r) (consuming r) (IH Hp)).
    + simpl in Hhi. rewrite Hhi in *.
      apply (iterate_sim_free (Re.run r) (IH Hp)).
      * intros g0 k0. by apply run_empty_consuming.
      * rewrite length_append. lia.
      * lia.
      * by rewrite andb_true_r in Hk.
  - apply IH; [done|]. intros s' g' Hle Hlt.
    rewrite consumed_append. by apply Hk.
  - done.
Qed.

End Sim.

Lemma match_group_line_end r s t :
  plain r = true → at_line_end t →
  Re.match_group r (s ++ t)%string = Re.match_group r s.
Proof.
  intros Hp Ht. unfold Re.match_group. by apply (run_sim t Ht).
Qed.

Lemma newlines_line_end t : newlines t = true → at_line_end t.
Proof.
  destruct t as [|c t]; [done|]. unfold newlines. simpl.
  intros [Hc _]%andb_true_iff. by apply bool_decide_eq_true in Hc.
Qed.

Lemma search_group_newlines r t :
  plain r = true → consuming r = true → newlines t = true →
  Re.search_group r t = None.
Proof.
  intros Hp Hc. induction t as [|c t IH]; intros Ht.
  - simpl. unfold Re.match_group. by rewrite run_empty_consuming.
  - rewrite Patterns.search_group_cons.
    change (String c t) with (EmptyString ++ String c t)%string.
    rewrite match_group_line_end by (done || by apply newlines_line_end).
    unfold Re.match_group at 1. rewrite run_empty_consuming by done.
    apply IH. unfold newlines in *. simpl in Ht.
    by apply andb_true_iff in Ht as [_ Ht].
Qed.

Lemma search_group_line_end r s t :
  plain r = true → consuming r = true → newlines t = true →
  Re.search_group r (s ++ t)%string = Re.search_group r s.
Proof.
  intros Hp Hc Ht. induction s as [|c s IH].
  - change (EmptyString ++ t)%string with t.
    rewrite search_group_newlines by done.
    simpl. unfold Re.match_group. by rewrite run_empty_consuming.
  - change (String c s ++ t)%string with (String c (s ++ t)%string).
    rewrite !Patterns.search_group_cons, IH.
    change (String c (s ++ t)%string) with (String c s ++ t)%string.
    rewrite match_group_line_end; [done|done|by apply newlines_line_end].
Qed.

Lemma rstrip_nl_split s :
  ∃ t, s = (Py.rstrip_nl s ++ t)%string ∧ newlines t = true.
Proof.
  unfold Py.rstrip_nl.
  induction s as [|c s (t & Hs & Ht)]; [by exists EmptyString|].
  simpl. destruct (Py.rstrip_with _ s) as [|x u] eqn:E.
  - change (s = t) in Hs. subst t. case_bool_decide as Hc.
    + exists (String c s). split; [done|].
      unfold newlines in *. simpl. rewrite Ht.
      by rewrite bool_decide_eq_true_2.
    + by exists s.
  - exists t. split; [|done].
    change (String c s = String c (String x u ++ t)%string). by rewrite <- Hs.
Qed.

Lemma accession_search_rstrip line :
  Re.search_group accession_pat (Py.rstrip_nl line)
  = Re.search_group accession_pat line.
Proof.
  destruct (rstrip_nl_split line) as (t & Hs & Ht).
  rewrite Hs at 2. symmetry. by apply search_group_line_end.
Qed.

Lemma rstrip_with_twice (p q : ascii → bool) s :
  (∀ c, q c = true → p c = true) →
  Py.rstrip_with p (Py.rstrip_with q s) = Py.rstrip_with p s.
Proof.
  intros Hpq. induction s as [|c s IH]; [done|]. simpl.
  destruct (Py.rstrip_with q s) as [|x u] eqn:Eq.
  - simpl in IH. rewrite <- IH.
    destruct (q c) eqn:Hq; simpl; [by rewrite (Hpq c Hq)|done].
  - simpl. simpl in IH. by rewrite IH.
Qed.

Lemma strip_rstrip_nl s : Py.strip (Py.rstrip_nl s) = Py.strip s.
Proof.
  unfold Py.strip, Py.rstrip_nl. rewrite rstrip_with_twice; [done|].
  intros c Hc. apply bool_decide_eq_true in Hc. by subst c.
Qed.

Lemma tail_rstrip_nl line :
  Py.startswith_gt line = true →
  Py.tail (Py.rstrip_nl line) = Py.rstrip_nl (Py.tail line).
Proof.
  destruct line as [|c s]; [done|]. simpl. intros Hc.
  apply bool_decide_eq_true in Hc. subst c. unfold Py.rstrip_nl. simpl.
  by destruct (Py.rstrip_with _ s).
Qed.

(** On a header the token of [load_accessions_from_fasta] is the one of
    [extract_accession_from_header]. *)
Lemma header_token line :
  Py.startswith_gt line = true →
  match Re.search_group accession_pat line with
  | Some g => Ok g
  | None => first_item (Py.split (Py.strip (Py.tail line)))
  end = extract_accession_from_header line.
Proof.
  intros Hh. unfold extract_accession_from_header.
  rewrite Text.startswith_rstrip_nl, Hh. simpl.
  rewrite accession_search_rstrip, tail_rstrip_nl, strip_rstrip_nl; done.
Qed.

End Anchors.

(** ** The loaders of [entrez_metadata.py] *)

Module Loaders.
Import CleanFasta Design EntrezMetadata.

Lemma leb_trans (a b c : string) :
  String.leb a b = true → String.leb b c = true → String.leb a c = true.
Proof.
  unfold String.leb. revert b c.
  induction a as [|x a IH]; intros [|y b] [|z c]; simpl; try done.
  unfold Ascii.compare.
  destruct (N.compare_spec (N_of_ascii x) (N_of_ascii y)) as [Exy|Lxy|Gxy];
    destruct (N.compare_spec (N_of_ascii y) (N_of_ascii z)) as [Eyz|Lyz|Gyz];
    destruct (N.compare_spec (N_of_ascii x) (N_of_ascii z)) as [Exz|Lxz|Gxz];
    try done; try lia.
  apply IH.
Qed.

#[global] Instance str_le_trans : Transitive str_le.
Proof. intros a b c. apply leb_trans. Qed.

#[global] Instance str_le_antisym : AntiSymm (=) str_le.
Proof. intros a b. apply String.leb_antisym. Qed.

Lemma StronglySorted_filter {A} (R : relation A) (P : A → Prop)
    `{∀ x, Decision (P x)} l :
  StronglySorted R l → StronglySorted R (filter P l).
Proof.
  induction 1 as [|x l Hl IH Hx]; [constructor|].
  rewrite filter_cons. destruct (decide (P x)); [|done].
  constructor; [done|]. rewrite Forall_forall in *.
  intros y [_ Hy]%list_elem_of_filter. by apply Hx.
Qed.

(** The two scans go the same way, line after line. *)
Lemma load_collect_lines fh (A B : gset string) n :
  (∀ x, x ∈ A ↔ x ∈ B ∧ is_valid_protein_id x = true) →
  match collect_lines fh B n, load_lines fh A with
  | Ok (B', _), Ok A' => ∀ x, x ∈ A' ↔ x ∈ B' ∧ is_valid_protein_id x = true
  | Raise e, Raise e' => e = e'
  | _, _ => False
  end.
Proof.
  revert A B n. induction fh as [|line fh IH]; intros A B n HR; simpl; [done|].
  destruct (Py.startswith_gt line) eqn:Hh; [|by apply IH].
  rewrite Anchors.header_token by done.
  destruct (extract_accession_from_header line) as [acc|e] eqn:He; simpl;
    [|done].
  assert (acc ≠ EmptyString) as Hne
    by by apply (Headers.header_accession_not_empty line).
  rewrite !bool_decide_eq_false_2 by done. simpl.
  apply IH. intros x. destruct (is_valid_protein_id acc) eqn:Hv.
  - rewrite !elem_of_union, !elem_of_singleton, HR. split.
    + intros [->|[? ?]]; auto.
    + intros [[->|?] ?]; auto.
  - rewrite !elem_of_union, !elem_of_singleton, HR. split.
    + intros [? ?]; auto.
    + intros [[->|?] ?]; [congruence|auto].
Qed.

Lemma load_files_concat files A :
  load_files files A = load_lines (concat files) A.
Proof.
  revert A. induction files as [|fh files IH]; intros A; simpl; [done|].
  assert (∀ l1 l2 A0, load_lines (l1 ++ l2) A0
                      = res_bind (load_lines l1 A0) (load_lines l2)) as Happ.
  { clear. induction l1 as [|l l1 IHl]; intros l2 A0; simpl; [done|].
    destruct (Py.startswith_gt l); [|done].
    destruct (match Re.search_group _ _ with Some g => _ | None => _ end);
      simpl; [|done]. apply IHl. }
  rewrite Happ.
  destruct (load_lines fh A); simpl; [apply IH|done].
Qed.

(** [load_accessions_from_fasta] and [collect_accessions_from_fasta]
    read the same headers the same way: on the files put end to end
    they raise together, and otherwise the loader returns the
    identifiers of the scan that pass [is_valid_protein_id], in the
    same order. *)
Theorem loaders_agree (files : list (list string)) :
  load_accessions_from_fasta files
  = res_bind (collect_accessions_from_fasta (concat files))
      (λ accs, Ok (filter (λ x, is_valid_protein_id x = true) accs)).
Proof.
  unfold load_accessions_from_fasta, collect_accessions_from_fasta.
  rewrite load_files_concat.
  pose proof (load_collect_lines (concat files) ∅ ∅ 0) as H.
  destruct (collect_lines (concat files) ∅ 0) as [[B n]|e],
    (load_lines (concat files) ∅) as [A|e']; simpl.
  - f_equal. apply (Sorted_unique str_le).
    + apply Sorted_merge_sort, _.
    + apply StronglySorted_Sorted, StronglySorted_filter.
      apply StronglySorted_merge_sort; apply _.
    + apply NoDup_Permutation.
      * rewrite merge_sort_Permutation. apply NoDup_elements.
      * apply NoDup_filter. rewrite merge_sort_Permutation.
        apply NoDup_elements.
      * intros x. rewrite list_elem_of_filter, !merge_sort_Permutation,
          !elem_of_elements. rewrite H; [tauto|]. set_solver.
  - destruct H. set_solver.
  - destruct H. set_solver.
  - f_equal. symmetry. apply H. set_solver.
Qed.

Lemma text_lines_spec fh accs x :
  x ∈ text_lines fh accs
  ↔ x ∈ accs ∨ ∃ line, line ∈ fh ∧ x = Py.strip line
                        ∧ is_valid_protein_id x = true.
Proof.
  revert accs. induction fh as [|line fh IH]; intros accs; simpl.
  - split; [auto|]. intros [?|(l & Hl & _)]; [done|]. inversion Hl.
  - case_bool_decide as He.
    + rewrite IH. split.
      * intros [?|(l & Hl & ? & ?)]; [by left|right]. exists l.
        split; [by right|done].
      * intros [?|(l & [->|Hl]%elem_of_cons & -> & Hv)]; [by left| |right].
        -- rewrite He in Hv. done.
        -- by exists l.
    + destruct (is_valid_protein_id (Py.strip line)) eqn:Hv; rewrite IH.
      * rewrite elem_of_union, elem_of_singleton. split.
        -- intros [[->|?]|(l & Hl & ? & ?)]; [right|by left|right].
           ++ exists line. split; [left|done].
           ++ exists l. split; [by right|done].
        -- intros [?|(l & [->|Hl]%elem_of_cons & -> & Hv')];
             [left; by right|left; by left|right].
           by exists l.
      * split.
        -- intros [?|(l & Hl & ? & ?)]; [by left|right]. exists l.
           split; [by right|done].
        -- intros [?|(l & [->|Hl]%elem_of_cons & -> & Hv')];
             [by left|congruence|right].
           by exists l.
Qed.

(** [load_accessions_from_text] returns, in increasing order and each
    once, the stripped lines that pass [is_valid_protein_id]; blank
    lines and the others are left out. *)
Theorem text_list_spec (fh : list string) :
  Sorted str_le (load_accessions_from_text fh)
  ∧ NoDup (load_accessions_from_text fh)
  ∧ ∀ x, x ∈ load_accessions_from_text fh
         ↔ ∃ line, line ∈ fh ∧ x = Py.strip line
                   ∧ is_valid_protein_id x = true.
Proof.
  unfold load_accessions_from_text. split; [apply Sorted_merge_sort, _|].
  split.
  - rewrite merge_sort_Permutation. apply NoDup_elements.
  - intros x.
    rewrite merge_sort_Permutation, elem_of_elements, text_lines_spec.
    split; [|auto]. intros [Hx|Hx]; [|done]. by apply not_elem_of_empty in Hx.
Qed.

End Loaders.

(** ** [esummary_protein] *)

Module Summaries.
Import Entrez CleanFasta Design EntrezMetadata Metadata.

Lemma records_app t1 t2 : records (t1 ++ t2) = records t1 ++ records t2.
Proof. unfold records. by rewrite fmap_app, concat_app. Qed.

Lemma carried_app_l t t' x : carried t x → carried (t ++ t') x.
Proof.
  intros (b & r & H & Hx). exists b, r. rewrite elem_of_app. auto.
Qed.

Lemma carried_app_r t t' x : carried t' x → carried (t ++ t') x.
Proof.
  intros (b & r & H & Hx). exists b, r. rewrite elem_of_app. auto.
Qed.

Lemma named_app_l t t' x : named t x → named (t ++ t') x.
Proof.
  intros (b & r & H & Hx). exists b, r. rewrite elem_of_app. auto.
Qed.

Lemma named_app_r t t' x : named t' x → named (t ++ t') x.
Proof.
  intros (b & r & H & Hx). exists b, r. rewrite elem_of_app. auto.
Qed.

Section Turns.
Variable remote : service.
Variable delay : seconds.
Variable retries : Z.

Lemma fetch_turn batch0 st0 b a s :
  fetch_inv batch0 st0 b a s →
  match EntrezMetadata.loop_body remote delay retries b a s with
  | EntrezMetadata.Break s' => fetch_post batch0 st0 s'
  | Reraise msg _ => gives_up remote batch0 msg
  | EntrezMetadata.Continue b' a' s' =>
      fetch_inv batch0 st0 b' a' s'
      ∧ (turns_left retries b' a' < turns_left retries b a)%nat
  end.
Proof.
  intros (Hne & Hsub & new & Ht & Ho & Hr & Hask & Hcov).
  pose proof (sublist_length _ _ Hsub) as Hlen.
  assert (asks_within (length batch0) batch0
            (WholeBatch b (remote (EntrezMetadata.calls s) (Py.join_comma b))))
    as Hcall by done.
  unfold EntrezMetadata.loop_body.
  destruct (remote (EntrezMetadata.calls s) (Py.join_comma b))
    as [recs|msg] eqn:E.
  - exists (new ++ [WholeBatch b (Success recs); Sleep delay]). simpl.
    split; [by rewrite Ht, <- !app_assoc|]. split; [|split].
    + rewrite records_app, Hr, Ho. unfold records. simpl.
      by rewrite app_nil_r.
    + apply Forall_app_2; [done|]. by repeat apply Forall_cons_2.
    + intros x Hx. destruct (Hcov x Hx) as [Hb|Hn].
      * left. apply carried_app_r. exists b, recs. split; [left|done].
      * right. by apply named_app_l.
  - assert (∀ x (t : list event), x ∈ batch0 →
              x ∈ b ∨ named (new ++ WholeBatch b (Failure msg) :: t) x)
      as Hcov'.
    { intros x t Hx. destruct (Hcov x Hx); [by left|].
      right. by apply named_app_l. }
    assert (match
              (if bool_decide (Z.of_nat (S a) > retries)
               then Reraise msg
                      (Fetch (S (EntrezMetadata.calls s))
                         (EntrezMetadata.trace s
                          ++ [WholeBatch b (Failure msg)]) (out s))
               else EntrezMetadata.Continue b (S a)
                      (Fetch (S (EntrezMetadata.calls s))
                         ((EntrezMetadata.trace s
                           ++ [WholeBatch b (Failure msg)])
                          ++ [Sleep (whole_seconds (3 * S a))]) (out s)))
            with
            | EntrezMetadata.Break s' => fetch_post batch0 st0 s'
            | Reraise msg _ => ambiguous b msg → gives_up remote batch0 msg
            | EntrezMetadata.Continue b' a' s' =>
                fetch_inv batch0 st0 b' a' s'
                ∧ (turns_left retries b' a' < turns_left retries b a)%nat
            end) as Hbudget.
    { case_bool_decide as Hgt.
      - intros Ha. by exists (EntrezMetadata.calls s), b.
      - split; [|unfold turns_left; lia].
        split; [done|]. split; [done|].
        exists (new ++ [WholeBatch b (Failure msg);
                        Sleep (whole_seconds (3 * S a))]). simpl.
        split; [by rewrite Ht, <- !app_assoc|]. split; [done|].
        split; [by rewrite records_app, Hr; unfold records|]. split.
        + apply Forall_app_2; [done|]. by repeat apply Forall_cons_2.
        + intros x Hx. apply Hcov'. done. }
    simpl. destruct (search_invalid_uid msg) as [bad|] eqn:Es.
    + destruct (decide (bad ∈ b)) as [Hin|Hin];
        [rewrite (bool_decide_eq_true_2 (bad ∈ b)) by done
        |rewrite (bool_decide_eq_false_2 (bad ∈ b)) by done].
      * assert (named (new ++ [WholeBatch b (Failure msg)]) bad) as Hnamed.
        { apply named_app_r. exists b, msg. split; [left|done]. }
        destruct (bool_decide (filter (λ x, x ≠ bad) b = [])) eqn:Hnil;
          [apply bool_decide_eq_true in Hnil
          |apply bool_decide_eq_false in Hnil].
        -- exists (new ++ [WholeBatch b (Failure msg)]). simpl.
           split; [by rewrite Ht, <- !app_assoc|]. split; [|split].
           ++ rewrite records_app, Hr, Ho. unfold records. simpl.
              by rewrite app_nil_r.
           ++ apply Forall_app_2; [done|]. by apply Forall_singleton.
           ++ intros x Hx. right. destruct (decide (x = bad)) as [->|Hxb];
                [done|].
              destruct (Hcov' x [] Hx) as [Hb|Hn]; [|done].
              assert (x ∈ filter (λ y, y ≠ bad) b) as Hf
                by by apply list_elem_of_filter.
              rewrite Hnil in Hf. inversion Hf.
        -- split.
           ++ split; [done|]. split; [by etrans; [apply sublist_filter|]|].
              exists (new ++ [WholeBatch b (Failure msg)]). simpl.
              split; [by rewrite Ht, <- !app_assoc|]. split; [done|].
              split; [by rewrite records_app, Hr; unfold records|]. split.
              ** apply Forall_app_2; [done|]. by apply Forall_singleton.
              ** intros x Hx. destruct (decide (x = bad)) as [->|Hxb];
                   [by right|].
                 destruct (Hcov' x [] Hx) as [Hb|Hn]; [|by right].
                 left. by apply list_elem_of_filter.
           ++ unfold turns_left.
              assert (length (filter (λ y, y ≠ bad) b) < length b)%nat.
              { apply (length_filter_lt _ _ bad); [done|]. by intros H. }
              lia.
      * destruct (bool_decide (Z.of_nat (S a) > retries)); [|done].
        apply Hbudget. unfold ambiguous. by rewrite Es.
    + destruct (bool_decide (Z.of_nat (S a) > retries)); [|done].
      apply Hbudget. unfold ambiguous. by rewrite Es.
Qed.

Lemma fetch_loop batch0 st0 :
  ∀ fuel b a s,
    fetch_inv batch0 st0 b a s →
    (turns_left retries b a < fuel)%nat →
    ∃ r, EntrezMetadata.while_true remote delay retries fuel b a s = Some r
         ∧ match r with
           | Ok s' => fetch_post batch0 st0 s'
           | Raise e => ∃ msg, e = RemoteError msg ∧ gives_up remote batch0 msg
           end.
Proof.
  induction fuel as [|fuel IH]; intros b a s Hinv Hfuel; [lia|]. simpl.
  pose proof (fetch_turn batch0 st0 b a s Hinv) as Hturn.
  destruct (EntrezMetadata.loop_body remote delay retries b a s)
    as [b' a' s'|s'|msg s'].
  - destruct Hturn as [Hinv' Hdec]. apply IH; [done|lia].
  - by exists (Ok s').
  - exists (Raise (RemoteError msg)). split; [done|]. by exists msg.
Qed.
End Turns.

Section Run.
Variable remote : service.
Variable delay : seconds.
Variable retries : Z.

Lemma gives_up_mono b ids msg :
  b `sublist_of` ids → gives_up remote b msg → gives_up remote ids msg.
Proof.
  intros Hsub (n & b' & Hne & Hb' & Hf & Ha). exists n, b'.
  split; [done|]. split; [by etrans|done].
Qed.

Lemma fetch_batches ids batches st :
  Forall (λ b, b ≠ [] ∧ (length b ≤ 400)%nat ∧ b `sublist_of` ids) batches →
  ∃ r, EntrezMetadata.for_batches remote delay retries batches st = Some r
       ∧ match r with
         | Ok st' => fetched ids (concat batches) st st'
         | Raise e => ∃ msg, e = RemoteError msg ∧ gives_up remote ids msg
         end.
Proof.
  intros Hall. revert st.
  induction Hall as [|b rest (Hne & Hlen & Hsub) Hrest IH]; intros st.
  - exists (Ok st). split; [done|]. exists []. rewrite !app_nil_r.
    repeat split; try done. intros x Hx. inversion Hx.
  - cbn [EntrezMetadata.for_batches]. rewrite bool_decide_eq_false_2 by done.
    destruct (fetch_loop remote delay retries b st
                (S (length b + Z.to_nat retries)) b 0%nat st)
      as (r & -> & Hr).
    { split; [done|]. split; [done|]. exists []. rewrite app_nil_r.
      repeat split; try done. intros x Hx. by left. }
    { unfold turns_left. lia. }
    destruct r as [st1|e].
    + destruct Hr as (n1 & Ht1 & Ho1 & Ha1 & Hc1).
      destruct (IH st1) as (r & -> & Hr). exists r. split; [done|].
      destruct r as [st2|e]; [|done].
      destruct Hr as (n2 & Ht2 & Ho2 & Ha2 & Hc2).
      exists (n1 ++ n2). split; [by rewrite Ht2, Ht1, app_assoc|].
      split; [by rewrite Ho2, Ho1, records_app, app_assoc|]. split.
      * apply Forall_app_2; [|done]. eapply Forall_impl; [done|].
        intros e. by apply Audit.asks_within_mono.
      * simpl. intros x [Hx|Hx]%elem_of_app.
        -- destruct (Hc1 x Hx); [left; by apply carried_app_l
                                |right; by apply named_app_l].
        -- destruct (Hc2 x Hx); [left; by apply carried_app_r
                                |right; by apply named_app_r].
    + exists (Raise e). split; [done|]. destruct Hr as (msg & -> & Hg).
      exists msg. split; [done|]. by eapply gives_up_mono.
Qed.

(** [esummary_protein] always ends.  When it returns, its result is
    made of the records of the calls that succeeded, in call order;
    every call asked about a run of at most 400 input identifiers; and
    each input identifier was carried by a call that succeeded or was
    named by a failed call that carried it.  When it raises, it raises
    the error of a call that named no member of the batch asked. *)
Theorem esummary_protein_outcome (ids : list string) :
  ∃ r,
    esummary_protein remote delay retries ids = Some r
    ∧ match r with
      | Ok st =>
          out st = records (EntrezMetadata.trace st)
          ∧ Forall (asks_within 400 ids) (EntrezMetadata.trace st)
          ∧ ∀ x, x ∈ ids →
                 carried (EntrezMetadata.trace st) x
                 ∨ named (EntrezMetadata.trace st) x
      | Raise e => ∃ msg, e = RemoteError msg ∧ gives_up remote ids msg
      end.
Proof.
  unfold esummary_protein.
  destruct (Chunking.chunker_shape ids 400 ltac:(lia))
    as (batches & Hc & _ & Hb).
  destruct (Loop.chunker_covers ids 400 ltac:(lia)) as (batches' & Hc' & Hcov).
  rewrite Hc in Hc'. injection Hc' as <-. rewrite Hc.
  destruct (fetch_batches ids batches (Fetch 0 [] [])) as (r & -> & Hr).
  - apply Forall_lookup_2. intros j b Hj.
    destruct (Hb j b Hj) as (? & ? & ? & _). done.
  - exists r. split; [done|]. destruct r as [st|e]; [|done].
    destruct Hr as (new & Ht & Ho & Ha & Hcv). simpl in Ht, Ho.
    rewrite Ht. split; [done|]. split; [done|]. intros x Hx.
    by apply Hcv, Hcov.
Qed.

Lemma persistent_failure (b : list string) (from : nat) :
  (∀ n, (from ≤ n)%nat →
        ∃ msg, remote n (Py.join_comma b) = Failure msg ∧ ambiguous b msg) →
  ∀ k a s fuel,
    (from ≤ EntrezMetadata.calls s)%nat →
    k = Z.to_nat (retries - Z.of_nat a) → (k < fuel)%nat →
    ∃ msg,
      remote (EntrezMetadata.calls s + k)%nat (Py.join_comma b) = Failure msg
      ∧ EntrezMetadata.while_true remote delay retries fuel b a s
        = Some (Raise (RemoteError msg)).
Proof.
  intros Hfail k. induction k as [|k IH]; intros a s fuel Hfrom Hk Hfuel;
    (destruct fuel as [|fuel]; [lia|]); simpl;
    destruct (Hfail (EntrezMetadata.calls s) Hfrom) as (msg & Hm & Ha);
    unfold EntrezMetadata.loop_body; rewrite Hm.
  - rewrite (bool_decide_eq_true_2 (Z.of_nat (S a) > retries)) by lia.
    exists msg. rewrite Nat.add_0_r. split; [done|].
    unfold ambiguous in Ha. destruct (search_invalid_uid msg); [|done].
    by rewrite bool_decide_eq_false_2.
  - rewrite (bool_decide_eq_false_2 (Z.of_nat (S a) > retries)) by lia.
    destruct (IH (S a)
                (Fetch (S (EntrezMetadata.calls s))
                   ((EntrezMetadata.trace s ++ [WholeBatch b (Failure msg)])
                    ++ [Sleep (whole_seconds (3 * S a))]) (out s)) fuel)
      as (msg' & Hm' & Hrun); [simpl; lia|lia|lia|].
    exists msg'. simpl in Hm'.
    replace (EntrezMetadata.calls s + S k)%nat
      with (S (EntrezMetadata.calls s + k)%nat) by lia.
    split; [done|].
    unfold ambiguous in Ha. destruct (search_invalid_uid msg); [|done].
    by rewrite bool_decide_eq_false_2.
Qed.

Lemma chunker_head (l : list string) (n : Z) :
  l ≠ [] → 0 < n →
  ∃ rest, chunker l n = Ok (take (Z.to_nat n) l :: rest).
Proof.
  intros Hl Hn. unfold chunker. rewrite !bool_decide_eq_false_2 by lia.
  unfold range_step.
  assert (1 ≤ (length l + Z.to_nat n - 1) / Z.to_nat n)%nat as Hm.
  { apply Nat.div_le_lower_bound; [lia|]. destruct l; [done|]. simpl. lia. }
  destruct ((length l + Z.to_nat n - 1) / Z.to_nat n)%nat as [|m]; [lia|].
  simpl. by eexists.
Qed.

(** [esummary_protein] has no fallback: when the calls for the first
    batch all fail without naming one of its members, the call number
    [retries] (the first one if [retries] is negative) is the last,
    and its error is raised: nothing is returned for any batch. *)
Theorem esummary_protein_gives_up (ids : list string) :
  ids ≠ [] →
  (∀ n, ∃ msg, remote n (Py.join_comma (take 400 ids)) = Failure msg
               ∧ ambiguous (take 400 ids) msg) →
  ∃ msg,
    remote (Z.to_nat retries) (Py.join_comma (take 400 ids)) = Failure msg
    ∧ esummary_protein remote delay retries ids
      = Some (Raise (RemoteError msg)).
Proof.
  intros Hne Hfail. unfold esummary_protein.
  destruct (chunker_head ids 400 Hne ltac:(lia)) as (rest & ->).
  change (Z.to_nat 400) with 400%nat in *.
  cbn [EntrezMetadata.for_batches].
  rewrite bool_decide_eq_false_2 by (by destruct ids).
  destruct (persistent_failure (take 400 ids) 0%nat
              (λ n _, Hfail n) (Z.to_nat retries) 0%nat
              (Fetch 0 [] [])
              (S (length (take 400 ids) + Z.to_nat retries)))
    as (msg & Hm & ->); [simpl; lia|lia|lia|].
  by exists msg.
Qed.

(** In [esummary_protein] the removal of a named identifier uses up
    one retry: after one removal, the calls that fail without naming
    anyone are made up to call number [max 1 retries] only, one retry
    fewer than the budget, and the error of that call is raised. *)
Theorem removal_spends_budget (ids : list string) (x msg0 : string) :
  x ∈ take 400 ids →
  filter (λ y, y ≠ x) (take 400 ids) ≠ [] →
  remote 0%nat (Py.join_comma (take 400 ids)) = Failure msg0 →
  search_invalid_uid msg0 = Some x →
  (∀ n, ∃ msg,
     remote (S n) (Py.join_comma (filter (λ y, y ≠ x) (take 400 ids)))
     = Failure msg
     ∧ ambiguous (filter (λ y, y ≠ x) (take 400 ids)) msg) →
  ∃ msg,
    remote (S (Z.to_nat (retries - 1)))
      (Py.join_comma (filter (λ y, y ≠ x) (take 400 ids)))
    = Failure msg
    ∧ esummary_protein remote delay retries ids
      = Some (Raise (RemoteError msg)).
Proof.
  intros Hx Hrest H0 Hs Hfail. unfold esummary_protein.
  assert (ids ≠ []) as Hne by (intros ->; inversion Hx).
  destruct (chunker_head ids 400 Hne ltac:(lia)) as (rest & ->).
  change (Z.to_nat 400) with 400%nat in *.
  cbn [EntrezMetadata.for_batches].
  rewrite bool_decide_eq_false_2 by (by destruct ids).
  cbn [EntrezMetadata.while_true]. unfold EntrezMetadata.loop_body at 1.
  cbn [EntrezMetadata.calls]. rewrite H0, Hs.
  rewrite (bool_decide_eq_true_2 (x ∈ take 400 ids)) by done.
  rewrite (bool_decide_eq_false_2 (filter _ _ = [])) by done.
  assert (length (filter (λ y, y ≠ x) (take 400 ids))
          < length (take 400 ids))%nat as Hlt.
  { apply (length_filter_lt _ _ x); [done|]. by intros H. }
  assert (∀ n, (1 ≤ n)%nat →
            ∃ msg,
              remote n
                (Py.join_comma (filter (λ y, y ≠ x) (take 400 ids)))
              = Failure msg
              ∧ ambiguous (filter (λ y, y ≠ x) (take 400 ids)) msg)
    as Hlater.
  { intros [|n] Hn; [lia|]. apply Hfail. }
  match goal with
  | |- context [EntrezMetadata.while_true _ _ _ ?f ?b ?a ?s] =>
      destruct (persistent_failure b 1%nat Hlater
                  (Z.to_nat (retries - 1)) a s f)
        as (msg & Hm & Hrun); [simpl; lia|lia|lia|]
  end.
  rewrite Hrun. by exists msg.
Qed.

End Run.

Lemma esummary_protein_gives_up_witness :
  ["C"; "D"] ≠ []
  ∧ (∀ n, ∃ msg,
       Scenario.stale n (Py.join_comma (take 400 ["C"; "D"])) = Failure msg
       ∧ ambiguous (take 400 ["C"; "D"]) msg)
  ∧ ∃ msg,
      Scenario.stale (Z.to_nat 1) (Py.join_comma (take 400 ["C"; "D"]))
      = Failure msg
      ∧ esummary_protein Scenario.stale (Seconds 34 100) 1 ["C"; "D"]
        = Some (Raise (RemoteError msg)).
Proof.
  assert (∀ n : nat, ∃ msg,
            Scenario.stale n (Py.join_comma (take 400 ["C"; "D"]))
            = Failure msg
            ∧ ambiguous (take 400 ["C"; "D"]) msg) as Hfail.
  { intros n. exists "Invalid uid Z". split; [reflexivity|].
    unfold ambiguous.
    replace (search_invalid_uid "Invalid uid Z") with (Some "Z")
      by (vm_compute; reflexivity).
    simpl. intros H. apply elem_of_cons in H as [H|H]; [discriminate H|].
    apply list_elem_of_singleton in H. discriminate H. }
  split; [discriminate|]. split; [exact Hfail|].
  apply esummary_protein_gives_up; [discriminate | exact Hfail].
Defined.

Lemma removal_spends_budget_witness :
  "A" ∈ take 400 ["A"; "B"; "C"]
  ∧ filter (λ y, y ≠ "A") (take 400 ["A"; "B"; "C"]) ≠ []
  ∧ Scenario.lost 0%nat (Py.join_comma (take 400 ["A"; "B"; "C"]))
    = Failure "Invalid uid A"
  ∧ search_invalid_uid "Invalid uid A" = Some "A"
  ∧ (∀ n, ∃ msg,
       Scenario.lost (S n)
         (Py.join_comma (filter (λ y, y ≠ "A") (take 400 ["A"; "B"; "C"])))
       = Failure msg
       ∧ ambiguous (filter (λ y, y ≠ "A") (take 400 ["A"; "B"; "C"])) msg)
  ∧ ∃ msg,
      Scenario.lost (S (Z.to_nat (1 - 1)))
        (Py.join_comma (filter (λ y, y ≠ "A") (take 400 ["A"; "B"; "C"])))
      = Failure msg
      ∧ esummary_protein Scenario.lost (Seconds 34 100) 1 ["A"; "B"; "C"]
        = Some (Raise (RemoteError msg)).
Proof.
  assert ("A" ∈ take 400 ["A"; "B"; "C"]) as H1 by (simpl; left).
  assert (filter (λ y, y ≠ "A") (take 400 ["A"; "B"; "C"]) ≠ []) as H2
    by (vm_compute; discriminate).
  assert (search_invalid_uid "Invalid uid A" = Some "A") as H3
    by (vm_compute; reflexivity).
  assert (∀ n : nat, ∃ msg,
            Scenario.lost (S n)
              (Py.join_comma
                 (filter (λ y, y ≠ "A") (take 400 ["A"; "B"; "C"])))
            = Failure msg
            ∧ ambiguous (filter (λ y, y ≠ "A") (take 400 ["A"; "B"; "C"]))
                msg) as H4.
  { intros n. exists "timed out". split; [reflexivity|].
    unfold ambiguous.
    replace (search_invalid_uid "timed out") with (@None string)
      by (vm_compute; reflexivity).
    exact I. }
  split; [exact H1|]. split; [exact H2|]. split; [reflexivity|].
  split; [exact H3|]. split; [exact H4|].
  apply (removal_spends_budget Scenario.lost (Seconds 34 100) 1 ["A"; "B"; "C"] "A"
           "Invalid uid A" H1 H2 eq_refl H3 H4).
Defined.

End Summaries.

(** ** [taxonomy_lineage] *)

Module Lineage.
Import Entrez Design EntrezMetadata Metadata.

Section Facts.
Variable remote : taxonomy.
Variable delay : seconds.
Variable retries : Z.

Lemma taxa_of_app t1 t2 : taxa_of (t1 ++ t2) = taxa_of t1 ++ taxa_of t2.
Proof. unfold taxa_of. by rewrite fmap_app, concat_app. Qed.

Lemma answered_app t1 t2 : answered (t1 ++ t2) = answered t1 ++ answered t2.
Proof. unfold answered. by rewrite fmap_app, concat_app. Qed.

Lemma efetch_calls_app t1 t2 :
  efetch_calls (t1 ++ t2) = (efetch_calls t1 + efetch_calls t2)%nat.
Proof. unfold efetch_calls. by rewrite filter_app, length_app. Qed.

Lemma taxonomy_loop_post (batch : list string) :
  ∀ fuel a st,
    (Z.to_nat (retries - Z.of_nat a) < fuel)%nat →
    ∃ r, taxonomy_loop remote delay retries fuel batch a st = Some r
         ∧ match r with
           | Ok st' =>
               ∃ new,
                 history st' = history st ++ new
                 ∧ lineage_map st'
                   = foldl record_taxon (lineage_map st) (taxa_of new)
                 ∧ answered new = [batch]
                 ∧ (efetch_calls new ≤ S (Z.to_nat (retries - Z.of_nat a)))%nat
           | Raise e =>
               ∃ msg, e = RemoteError msg
                      ∧ taxonomy_fails remote [batch] msg
           end.
Proof.
  induction fuel as [|fuel IH]; intros a st Hfuel; [lia|]. simpl.
  destruct (remote (efetches st) (Py.join_comma batch)) as [taxa|msg] eqn:E.
  - eexists. split; [done|]. simpl.
    exists [Efetch batch (Taxa taxa); Pause delay].
    split; [by rewrite <- app_assoc|]. split; [|split].
    + unfold taxa_of. simpl. by rewrite app_nil_r.
    + done.
    + unfold efetch_calls. simpl. lia.
  - case_bool_decide as Hgt.
    + eexists. split; [done|]. exists msg. split; [done|].
      exists (efetches st), batch. split; [left|done].
    + match goal with
      | |- context [taxonomy_loop _ _ _ fuel batch ?a' ?s'] =>
          destruct (IH a' s') as (r & Hrun & Hr); [lia|]; rewrite Hrun
      end.
      exists r. split; [done|]. destruct r as [st'|e]; [|done].
      destruct Hr as (new & Ht & Hm & Ha & Hc). simpl in Ht, Hm.
      match type of Ht with
      | _ = (_ ++ [_; ?p]) ++ _ =>
          exists ([Efetch batch (NoTaxa msg); p] ++ new)
      | _ = ((_ ++ [_]) ++ [?p]) ++ _ =>
          exists ([Efetch batch (NoTaxa msg); p] ++ new)
      end.
      split; [by rewrite Ht, <- !app_assoc|]. split; [|split].
      * by rewrite taxa_of_app.
      * by rewrite answered_app.
      * rewrite efetch_calls_app. unfold efetch_calls at 1. simpl. lia.
Qed.

Lemma taxonomy_batches_post (batches : list (list string)) :
  ∀ st,
    ∃ r, taxonomy_batches remote delay retries batches st = Some r
         ∧ match r with
           | Ok st' => taxonomy_done retries batches st st'
           | Raise e =>
               ∃ msg, e = RemoteError msg
                      ∧ taxonomy_fails remote batches msg
           end.
Proof.
  induction batches as [|b rest IH]; intros st.
  - exists (Ok st). split; [done|]. exists []. by rewrite app_nil_r.
  - cbn [taxonomy_batches].
    destruct (taxonomy_loop_post b (S (Z.to_nat retries)) 0%nat st)
      as (r & -> & Hr); [lia|].
    destruct r as [st1|e].
    + destruct Hr as (n1 & Ht1 & Hm1 & Ha1 & Hc1).
      destruct (IH st1) as (r & -> & Hr). exists r. split; [done|].
      destruct r as [st2|e].
      * destruct Hr as (n2 & Ht2 & Hm2 & Ha2 & Hc2).
        exists (n1 ++ n2). split; [by rewrite Ht2, Ht1, app_assoc|].
        split; [|split].
        -- by rewrite Hm2, Hm1, taxa_of_app, foldl_app.
        -- by rewrite answered_app, Ha1, Ha2.
        -- rewrite efetch_calls_app. simpl.
           replace (Z.to_nat (retries - Z.of_nat 0)) with (Z.to_nat retries)
             in Hc1 by lia. lia.
      * destruct Hr as (msg & -> & n & b' & Hb' & Hf).
        exists msg. split; [done|]. exists n, b'. split; [by right|done].
    + exists (Raise e). split; [done|].
      destruct Hr as (msg & -> & n & b' & Hb' & Hf).
      exists msg. split; [done|]. exists n, b'.
      apply list_elem_of_singleton in Hb' as ->. split; [left|done].
Qed.

(** [taxonomy_lineage] always ends.  When it returns, each batch was
    answered by exactly one call that succeeded, in order; there were
    at most [1 + max 0 retries] calls per batch on the whole; and
    [lineage_map] is what the taxa of the calls that succeeded leave,
    the later ones written over the earlier ones.  When it raises, it
    raises the error of a failed call for one of the batches. *)
Theorem taxonomy_lineage_outcome (taxids : list string) :
  ∃ r batches,
    chunker taxids 400 = Ok batches
    ∧ taxonomy_lineage remote delay retries taxids = Some r
    ∧ match r with
      | Ok st =>
          lineage_map st = foldl record_taxon ∅ (taxa_of (history st))
          ∧ answered (history st) = batches
          ∧ (efetch_calls (history st)
             ≤ length batches * S (Z.to_nat retries))%nat
      | Raise e =>
          ∃ msg, e = RemoteError msg ∧ taxonomy_fails remote batches msg
      end.
Proof.
  unfold taxonomy_lineage.
  destruct (Loop.chunker_ok taxids 400 ltac:(lia)) as (batches & Hc & _).
  rewrite Hc.
  destruct (taxonomy_batches_post batches (Lineages 0 [] ∅)) as (r & Hrun & Hr).
  exists r, batches. split; [done|]. split; [done|].
  destruct r as [st|e]; [|done].
  destruct Hr as (new & Ht & Hm & Ha & Hcalls). simpl in Ht, Hm.
  by rewrite Ht.
Qed.

Lemma taxonomy_persistent (b : list string) :
  (∀ n, ∃ msg, remote n (Py.join_comma b) = NoTaxa msg) →
  ∀ k a st fuel,
    k = Z.to_nat (retries - Z.of_nat a) → (k < fuel)%nat →
    ∃ msg,
      remote (efetches st + k)%nat (Py.join_comma b) = NoTaxa msg
      ∧ taxonomy_loop remote delay retries fuel b a st
        = Some (Raise (RemoteError msg)).
Proof.
  intros Hfail k. induction k as [|k IH]; intros a st fuel Hk Hfuel;
    (destruct fuel as [|fuel]; [lia|]); simpl;
    destruct (Hfail (efetches st)) as (msg & Hm); rewrite Hm.
  - rewrite bool_decide_eq_true_2 by lia.
    exists msg. by rewrite Nat.add_0_r.
  - rewrite bool_decide_eq_false_2 by lia.
    match goal with
    | |- context [taxonomy_loop _ _ _ fuel b ?a' ?s'] =>
        destruct (IH a' s' fuel) as (msg' & Hm' & Hrun); [lia|lia|]
    end.
    exists msg'. simpl in Hm'.
    replace (efetches st + S k)%nat with (S (efetches st + k)%nat) by lia.
    done.
Qed.

(** [taxonomy_lineage] retries a batch [retries] times and no more:
    when the calls for the first batch all fail, the call number
    [retries] (the first one if [retries] is negative) is the last,
    and its error is raised. *)
Theorem taxonomy_lineage_gives_up (taxids : list string) :
  taxids ≠ [] →
  (∀ n, ∃ msg, remote n (Py.join_comma (take 400 taxids)) = NoTaxa msg) →
  ∃ msg,
    remote (Z.to_nat retries) (Py.join_comma (take 400 taxids)) = NoTaxa msg
    ∧ taxonomy_lineage remote delay retries taxids
      = Some (Raise (RemoteError msg)).
Proof.
  intros Hne Hfail. unfold taxonomy_lineage.
  destruct (Summaries.chunker_head taxids 400 Hne ltac:(lia)) as (rest & ->).
  change (Z.to_nat 400) with 400%nat in *.
  cbn [taxonomy_batches].
  destruct (taxonomy_persistent (take 400 taxids) Hfail (Z.to_nat retries)
              0%nat (Lineages 0 [] ∅) (S (Z.to_nat retries)))
    as (msg & Hm & ->); [lia|lia|].
  by exists msg.
Qed.

End Facts.

Lemma taxonomy_lineage_gives_up_witness :
  ["9606"] ≠ []
  ∧ (∀ n, ∃ msg,
       Scenario.down n (Py.join_comma (take 400 ["9606"])) = NoTaxa msg)
  ∧ ∃ msg,
      Scenario.down (Z.to_nat 2) (Py.join_comma (take 400 ["9606"])) = NoTaxa msg
      ∧ taxonomy_lineage Scenario.down (Seconds 34 100) 2 ["9606"]
        = Some (Raise (RemoteError msg)).
Proof.
  split; [discriminate|].
  split; [intros n; by exists "HTTP Error 502"|].
  apply taxonomy_lineage_gives_up; [discriminate|].
  intros n. by exists "HTTP Error 502".
Defined.

End Lineage.

(** ** The rewriter, from file to file *)

Module Files.
Import CleanFasta Design.

(** The lines of a text, put end to end, are the text. *)
Lemma written_readlines text : written (readlines text) = text.
Proof.
  induction text as [|c rest IH]; [done|]. simpl.
  case_bool_decide.
  - simpl. by rewrite IH.
  - destruct (readlines rest) as [|l ls]; simpl in *; by rewrite <- IH.
Qed.

(** Universal newlines change nothing in a text without carriage
    return. *)
Lemma universal_newlines_id content :
  carriage_free content = true → universal_newlines content = content.
Proof.
  unfold carriage_free. induction content as [|c rest IH]; [done|]. simpl.
  intros [Hc Hrest]%andb_true_iff. apply negb_true_iff in Hc.
  rewrite Hc. by rewrite IH.
Qed.

(** For an input file whose lines, read in text mode, make up records,
    the output file holds the lines of the records that are kept, end
    to end and nothing else; the lines of all the records, end to end,
    are the input with [\r\n] and [\r] turned into [\n], and are the
    input itself when it holds no carriage return: such a file is
    copied byte for byte, less the records removed. *)
Theorem file_fidelity (content : string) (rs : list fasta_record)
    (bad_ids : gset string) :
  open_rt content = stream rs →
  Forall well_formed rs →
  write_cleaned_fasta_files content bad_ids
  = (written (stream (filter (retained bad_ids) rs)), None)
  ∧ written (stream rs) = universal_newlines content
  ∧ (carriage_free content = true → written (stream rs) = content).
Proof.
  intros Hread Hwf. unfold write_cleaned_fasta_files, write_cleaned_fasta.
  rewrite Hread.
  destruct (Rewriter.write_lines_stream bad_ids rs (Writer [] true 0 0) Hwf)
    as (c & ->).
  simpl. split; [done|].
  assert (written (stream rs) = universal_newlines content) as Hall.
  { rewrite <- Hread. apply written_readlines. }
  split; [done|]. intros Hfree. by rewrite Hall, universal_newlines_id.
Qed.

Lemma file_fidelity_witness :
  open_rt Scenario.unix_file
  = stream [Scenario.first_record; Scenario.second_record]
  ∧ Forall well_formed [Scenario.first_record; Scenario.second_record]
  ∧ write_cleaned_fasta_files Scenario.unix_file {["NP_000001.1"]}
    = (written (stream (filter (retained {["NP_000001.1"]})
                          [Scenario.first_record; Scenario.second_record])),
       None)
  ∧ written (stream [Scenario.first_record; Scenario.second_record])
    = universal_newlines Scenario.unix_file
  ∧ (carriage_free Scenario.unix_file = true →
     written (stream [Scenario.first_record; Scenario.second_record])
     = Scenario.unix_file).
Proof.
  assert (open_rt Scenario.unix_file
          = stream [Scenario.first_record; Scenario.second_record]) as Hread
    by (vm_compute; reflexivity).
  assert (Forall well_formed [Scenario.first_record; Scenario.second_record])
    as Hwf.
  { repeat apply Forall_cons_2; try apply Forall_nil_2;
      (split; [reflexivity|]; split;
       [repeat apply Forall_cons_2; try apply Forall_nil_2; reflexivity|]).
    - exists "NP_000001.1". vm_compute. reflexivity.
    - exists "sp|P12345". vm_compute. reflexivity. }
  split; [exact Hread|]. split; [exact Hwf|].
  apply file_fidelity; [exact Hread | exact Hwf].
Defined.

End Files.
